(** * gpx-got-calculator: track-point pipeline, embedded and verified

    The Go program reads a GPX track, smooths it, sums great-circle
    distances and hysteresis-filtered ascent (per calendar day in the
    second variant of [main]) and converts the result to GOT points.

    Conventions of the embedding:
    - [float64] is Rocq's primitive [float] (IEEE-754 binary64, round to
      nearest even), so [+ - * /] and the comparisons are the machine's;
    - [int] is a [Z] kept in the 64-bit range by [Go.wrap];
    - a slice is a [list]; a Go [map[string][]TrackPoint] is a
      [gmap string (list TrackPoint)];
    - functions of Go's standard library ([math], [time]) are modelled in
      the modules [GoMath] and [GoTime]. *)

From Stdlib Require Import ZArith Floats Uint63 Lia Ascii String List.
From stdpp Require Import base list list_numbers gmap strings.

Set Warnings "-inexact-float".
Local Open Scope Z_scope.

(** ** Go's [int] and [float64] *)

Module Go.

(** Two's complement wrap-around of a 64-bit [int]. *)
Definition wrap (z : Z) : Z := (z + 2 ^ 63) mod 2 ^ 64 - 2 ^ 63.

Definition in_int (z : Z) : Prop := - 2 ^ 63 <= z < 2 ^ 63.

Definition add (a b : Z) : Z := wrap (a + b).
Definition sub (a b : Z) : Z := wrap (a - b).
(** [a / b] and [a % b] on [int] truncate toward zero. *)
Definition quot (a b : Z) : Z := wrap (Z.quot a b).
Definition rem (a b : Z) : Z := Z.rem a b.

(** [len(s)]. *)
Definition len {A} (s : list A) : Z := Z.of_nat (length s).

(** [float64(n)] for an [int] [n]: the nearest binary64 value. *)
Definition float64 (n : Z) : float :=
  if n =? - 2 ^ 63 then (-9223372036854775808)%float
  else if n <? 0 then (- PrimFloat.of_uint63 (Uint63.of_Z (- n)))%float
  else PrimFloat.of_uint63 (Uint63.of_Z n).

End Go.

(** ** Data model (both variants of the program)

    [gpx.go] declares [TrackPoint] without the [Time] field; the
    per-day variant adds it.  The functions shared by the two files are
    textually identical, so one record serves both. *)

Record xml_Name := { xmlSpace : string; xmlLocal : string }.

(** [time.Time]: an instant, as seconds and nanoseconds since the Unix
    epoch. *)
Record time_Time := { unixSec : Z; nsec : Z }.

Record TrackPoint := {
  XMLName : xml_Name;
  Latitude : float;
  Longitude : float;
  Elevation : float;
  Time : time_Time
}.

(** The zero value [make([]TrackPoint, n)] fills a slice with. *)
Definition zeroTrackPoint : TrackPoint :=
  {| XMLName := {| xmlSpace := ""; xmlLocal := "" |};
     Latitude := 0; Longitude := 0; Elevation := 0;
     Time := {| unixSec := -62135596800; nsec := 0 |} |}.

#[global] Instance TrackPoint_inhabited : Inhabited TrackPoint :=
  populate zeroTrackPoint.

(** [points[i]] for an [int] index that is in range. *)
Definition index (points : list TrackPoint) (i : Z) : TrackPoint :=
  points !!! Z.to_nat i.

(** [p.Elevation = e] and the like on a copy of [p]. *)
Definition set_Elevation (p : TrackPoint) (e : float) : TrackPoint :=
  {| XMLName := XMLName p; Latitude := Latitude p; Longitude := Longitude p;
     Elevation := e; Time := Time p |}.
Definition set_Latitude (p : TrackPoint) (x : float) : TrackPoint :=
  {| XMLName := XMLName p; Latitude := x; Longitude := Longitude p;
     Elevation := Elevation p; Time := Time p |}.
Definition set_Longitude (p : TrackPoint) (x : float) : TrackPoint :=
  {| XMLName := XMLName p; Latitude := Latitude p; Longitude := x;
     Elevation := Elevation p; Time := Time p |}.

(** ** calculateCumulativeAscent *)

Record AscentState := {
  totalAscent : float;
  climb : float;
  prevEle : float
}.

(** One iteration of [for i := 1; i < len(points); i++]. *)
Definition ascent_body (threshold : float) (points : list TrackPoint)
    (st : AscentState) (i : Z) : AscentState :=
  let currEle := Elevation (index points i) in
  let diff := (currEle - prevEle st)%float in
  if (0 <? diff)%float then
    {| totalAscent := totalAscent st;
       climb := (climb st + diff)%float;
       prevEle := currEle |}
  else
    {| totalAscent :=
         if (threshold <=? climb st)%float
         then (totalAscent st + climb st)%float else totalAscent st;
       climb := 0;
       prevEle := currEle |}.

Definition calculateCumulativeAscent (points : list TrackPoint)
    (threshold : float) : float :=
  if Go.len points <? 2 then 0%float
  else
    let st0 := {| totalAscent := 0; climb := 0;
                  prevEle := Elevation (index points 0) |} in
    let st := fold_left (ascent_body threshold points)
                        (seqZ 1 (Go.len points - 1)) st0 in
    if (threshold <=? climb st)%float
    then (totalAscent st + climb st)%float else totalAscent st.

(** Points carrying only an elevation, for examples. *)
Definition at_elevation (e : float) : TrackPoint := set_Elevation zeroTrackPoint e.

(** The loop body, fed with the elevation it reads. *)
Definition ascent_feed (T : float) (st : AscentState) (currEle : float) : AscentState :=
  let diff := (currEle - prevEle st)%float in
  if (0 <? diff)%float then
    {| totalAscent := totalAscent st; climb := (climb st + diff)%float;
       prevEle := currEle |}
  else
    {| totalAscent :=
         if (T <=? climb st)%float
         then (totalAscent st + climb st)%float else totalAscent st;
       climb := 0;
       prevEle := currEle |}.

(** *** The hysteresis filter, as the specification words it

    A two-state machine ([total], [climb]) over the consecutive elevation
    deltas: a positive delta extends the climb; otherwise (flat or
    descending) the climb is committed when it reaches the threshold and
    is reset in either case; the last climb is flushed the same way. *)

Definition deltas (es : list float) : list float :=
  zip_with (fun cur prev => (cur - prev)%float) (tail es) es.

Definition commit (T total run : float) : float :=
  if (T <=? run)%float then (total + run)%float else total.

Definition hysteresis_step (T : float) (st : float * float) (d : float)
    : float * float :=
  if (0 <? d)%float then (st.1, (st.2 + d)%float)
  else (commit T st.1 st.2, 0%float).

Definition hysteresis_total (T : float) (es : list float) : float :=
  let st := fold_left (hysteresis_step T) (deltas es) (0%float, 0%float) in
  commit T st.1 st.2.

Definition ascent_spec (points : list TrackPoint) (T : float) : float :=
  if (length points <? 2)%nat then 0%float
  else hysteresis_total T (Elevation <$> points).

(** Left-to-right [float64] sum. *)
Definition fsum (xs : list float) : float :=
  fold_left (fun acc x => (acc + x)%float) xs 0%float.

(** Totals of the maximal climb runs of a delta sequence: the deltas are
    cut at every delta that is not positive, and each group of positive
    deltas is summed from the left.  [cur] is the run in progress. *)
Fixpoint run_totals (ds : list float) (cur : option float) : list float :=
  match ds with
  | [] => match cur with Some c => [c] | None => [] end
  | d :: ds' =>
      if (0 <? d)%float then
        run_totals ds' (Some (default 0%float cur + d)%float)
      else
        match cur with
        | Some c => c :: run_totals ds' None
        | None => run_totals ds' None
        end
  end.

Definition climb_runs (points : list TrackPoint) : list float :=
  run_totals (deltas (Elevation <$> points)) None.

(** The naive ascent: the sum over [i] of
    [max(0, elevation[i] - elevation[i-1])]. *)
Definition naive_ascent (points : list TrackPoint) : float :=
  fsum ((fun d => if (0 <? d)%float then d else 0%float)
          <$> deltas (Elevation <$> points)).

(** ** binary64 values that are not negative *)

(** Zero, a positive finite number or +Inf: not NaN, not negative, and
    not the negative zero. *)
Definition nonneg_sf (x : spec_float) : bool :=
  match x with
  | S754_zero false | S754_finite false _ _ | S754_infinity false => true
  | _ => false
  end.
Definition nonneg (x : float) : bool := nonneg_sf (Prim2SF x).

(** Zero or a finite number. *)
Definition finite_sf (x : spec_float) : bool :=
  match x with
  | S754_zero _ | S754_finite _ _ _ => true
  | _ => false
  end.
Definition finite (x : float) : bool := finite_sf (Prim2SF x).

(** The filter state mirrors the run in progress. *)
Definition run_state (cur : option float) (run : float) : Prop :=
  (cur = None /\ run = 0%float) \/ cur = Some run.

(** Two climbs, 1.2 -> 1.8 -> 5.4 and 1.2 -> 2.2 -> 2.4. *)
Definition two_climbs : list TrackPoint :=
  at_elevation <$> [1.2; 1.8; 5.4; 1.2; 2.2; 2.4]%float.

(** ** Rounding of binary64 values, read on integers *)

(** [mrs] is what [j] right shifts leave of [M]: the quotient, and the
    round and sticky bits placing the remainder against one half. *)
Definition shifted (M j : Z) (mrs : shr_record) : Prop :=
  exists R, M = shr_m mrs * 2 ^ j + R /\ 0 <= R < 2 ^ j /\ 0 <= shr_m mrs
            /\ (shr_r mrs = true <-> 2 ^ j <= 2 * R)
            /\ (shr_s mrs = true <-> R <> 0 /\ 2 * R <> 2 ^ j).

(** Round to nearest, ties to even, of [q + R / 2^j]. *)
Definition round_up (q R P : Z) : Z :=
  if (P <? 2 * R) || ((2 * R =? P) && Z.odd q) then q + 1 else q.

(** The value of a binary64 number in units of 2^-1074 (the smallest
    positive value), infinities placed beyond every finite value. *)
Definition rank (x : spec_float) : Z :=
  match x with
  | S754_zero _ => 0
  | S754_finite s m e => let v := Z.pos m * 2 ^ (e + 1074) in if s then - v else v
  | S754_infinity s => if s then - 2 ^ 2098 else 2 ^ 2098
  | S754_nan => 0
  end.

(** Rounding an integer number of units to 53 significant bits, ties to
    even, saturating at infinity. *)
Definition round_shift (V : Z) : Z := Z.max (Zdigits2 V - 53) 0.
Definition round_value (V : Z) : Z :=
  let k := round_shift V in
  round_up (V `div` 2 ^ k) (V `mod` 2 ^ k) (2 ^ k) * 2 ^ k.
Definition round_sat (V : Z) : Z := Z.min (round_value V) (2 ^ 2098).

Definition is_nan_sf (x : spec_float) : bool :=
  match x with S754_nan => true | _ => false end.

(** The rank of a sum of two values that are not negative. *)
Definition rank_add (a b : Z) : Z :=
  if (a =? 2 ^ 2098) || (b =? 2 ^ 2098) then 2 ^ 2098 else round_sat (a + b).

(** Threshold [Ta] accepts every climb that [Tb] accepts. *)
Definition accepts_more (Ta Tb : float) : Prop :=
  forall r, nonneg r = true -> (Tb <=? r)%float = true -> (Ta <=? r)%float = true.

(** Two climbs, 0.1 -> 7.1 -> 19.8 and 8.7 -> 9.1 -> 12.5. *)
Definition long_climbs : list TrackPoint :=
  at_elevation <$> [0.1; 7.1; 19.8; 8.7; 9.1; 12.5]%float.

(** ** Go's [math] package *)

Module GoMath.

(** [math.Pi], converted to [float64] where it meets a [float64] operand. *)
Definition Pi : float :=
  3.14159265358979323846264338327950288419716939937510582097494459%float.

(** The platform's sine, cosine and two-argument arctangent
    ([math.Sin], [math.Cos], [math.Atan2]): approximations whose bits
    depend on the build; the program only composes them. *)
Record libm := {
  Sin : float -> float;
  Cos : float -> float;
  Atan2 : float -> float -> float
}.

(** [math.Sqrt] is the correctly rounded IEEE square root. *)
Definition Sqrt (x : float) : float := PrimFloat.sqrt x.

Definition signed (s : bool) (f : float) : float := if s then (- f)%float else f.

(** [math.Round]: nearest integer, halves away from zero.  The three
    branches are those of Go's implementation on the exponent field: for
    |x| < 1 the result is ±0, or ±1 from 0.5 on; with fractional bits
    present, half a unit is added to the mantissa and the fractional bits
    are cleared; otherwise (an integer, ±Inf, NaN, ±0) [x] is returned. *)
Definition Round (x : float) : float :=
  match Prim2SF x with
  | S754_finite s m e =>
      let E := Z.pos (SpecFloat.digits2_pos m) + e in
      if E <? 0 then signed s 0%float
      else if E =? 0 then signed s 1%float
      else if e <? 0 then
        signed s (PrimFloat.of_uint63
                    (Uint63.of_Z (Z.shiftr (Z.pos m + Z.shiftl 1 (- e - 1)) (- e))))
      else x
  | _ => x
  end.

(** What [int(x)] yields when [x] is out of range or not a number: left
    to the implementation by the language; this is amd64's answer. *)
Definition int_indefinite : Z := - 2 ^ 63.

(** [int(x)]: the fraction is discarded (truncation toward zero). *)
Definition int_of_float64 (x : float) : Z :=
  match Prim2SF x with
  | S754_zero _ => 0
  | S754_finite s m e =>
      let v := Z.shiftl (Z.pos m) e in
      let v := if s then - v else v in
      if (- 2 ^ 63 <=? v) && (v <? 2 ^ 63) then v else int_indefinite
  | _ => int_indefinite
  end.

End GoMath.

(** Nearest integer to ±m·2^e, halves away from zero. *)
Definition nearest_away (s : bool) (m : positive) (e : Z) : Z :=
  let mag := if 0 <=? e then Z.pos m * 2 ^ e
             else (2 * Z.pos m + 2 ^ (- e)) `div` (2 * 2 ^ (- e)) in
  if s then - mag else mag.

(** ** Go's [time] package: what [groupByDay] uses of it *)

Module GoTime.

(** [*time.Location]: a name and, for every instant, the offset in
    seconds east of UTC in force then. *)
Record Location := { zoneName : string; zoneOffset : Z -> Z }.

Definition UTC : Location := {| zoneName := "UTC"; zoneOffset := fun _ => 0 |}.
Definition FixedZone (name : string) (offset : Z) : Location :=
  {| zoneName := name; zoneOffset := fun _ => offset |}.

(** [t.In(loc)]: the same instant, to be read on [loc]'s clock. *)
Definition In (t : time_Time) (loc : Location) : time_Time * Location := (t, loc).

(** Day number (days since 1970-01-01) shown by the local clock. *)
Definition localDay (lt : time_Time * Location) : Z :=
  (unixSec lt.1 + zoneOffset lt.2 (unixSec lt.1)) `div` 86400.

(** Proleptic Gregorian date of a day number: (year, month, day). *)
Definition civil_of_doe (era doe : Z) : Z * Z * Z :=
  let yoe := (doe - doe `div` 1460 + doe `div` 36524 - doe `div` 146096) `div` 365 in
  let doy := doe - (365 * yoe + yoe `div` 4 - yoe `div` 100) in
  let mp := (5 * doy + 2) `div` 153 in
  let d := doy - (153 * mp + 2) `div` 5 + 1 in
  let m := if mp <? 10 then mp + 3 else mp - 9 in
  let y := yoe + era * 400 in
  (if m <=? 2 then y + 1 else y, m, d).

Definition civil_from_days (days : Z) : Z * Z * Z :=
  let z := days + 719468 in
  civil_of_doe (z `div` 146097) (z `mod` 146097).

(** [t.Date()]. *)
Definition Date (lt : time_Time * Location) : Z * Z * Z :=
  civil_from_days (localDay lt).

Definition digit_char (d : Z) : ascii := ascii_of_nat (48 + Z.to_nat d).

(** Decimal digits of [n >= 0], most significant first, onto [acc]. *)
Fixpoint digits_go (fuel : nat) (n : Z) (acc : list ascii) : list ascii :=
  match fuel with
  | O => acc
  | S fuel' =>
      let acc' := digit_char (n `mod` 10) :: acc in
      if n <? 10 then acc' else digits_go fuel' (n `div` 10) acc'
  end.

Definition digits (n : Z) : list ascii :=
  digits_go (S (Z.to_nat (Z.log2 n))) n [].

(** [appendInt]: optional sign, then the decimal digits zero-padded to
    [width]. *)
Definition appendInt (x : Z) (width : nat) : list ascii :=
  let ds := digits (Z.abs x) in
  (if x <? 0 then ["-"%char] else []) ++
  replicate (width - length ds) "0"%char ++ ds.

(** [t.Format("2006-01-02")]. *)
Definition Format_date (lt : time_Time * Location) : string :=
  let '(y, m, d) := Date lt in
  string_of_list_ascii
    (appendInt y 4 ++ ["-"%char] ++ appendInt m 2 ++ ["-"%char] ++ appendInt d 2).

(** Instant of a civil UTC date and time of day, for examples. *)
Definition days_from_civil (y m d : Z) : Z :=
  let y' := if m <=? 2 then y - 1 else y in
  let era := y' `div` 400 in
  let yoe := y' - era * 400 in
  let mp := if m <=? 2 then m + 9 else m - 3 in
  let doy := (153 * mp + 2) `div` 5 + d - 1 in
  let doe := yoe * 365 + yoe `div` 4 - yoe `div` 100 + doy in
  era * 146097 + doe - 719468.

Definition instant (y m d hh mm ss : Z) : time_Time :=
  {| unixSec := days_from_civil y m d * 86400 + hh * 3600 + mm * 60 + ss; nsec := 0 |}.

(** Reading a decimal numeral back. *)
Definition digit_value (c : ascii) : Z := Z.of_nat (nat_of_ascii c) - 48.
Definition parse_digits (l : list ascii) : Z :=
  fold_left (fun acc c => acc * 10 + digit_value c) l 0.
Definition parseInt (l : list ascii) : Z :=
  match l with
  | c :: r => if Ascii.eqb c "-" then - parse_digits r else parse_digits l
  | [] => 0
  end.

(** [P] holds of the [n] integers from [start] on. *)
Fixpoint all_from (P : Z -> bool) (n : nat) (start : Z) : bool :=
  match n with
  | O => true
  | S n' => P start && all_from P n' (start + 1)
  end.

(** Month and day are in range on a day of the 400-year cycle. *)
Definition civil_in_range (doe : Z) : bool :=
  let '(_, m, d) := civil_of_doe 0 doe in
  (1 <=? m) && (m <=? 12) && (1 <=? d) && (d <=? 31).

End GoTime.

(** ** haversineDistance2D *)

Definition earthRadius : float := 6371.0%float.

Definition toRadians (deg : float) : float := (deg * GoMath.Pi / 180.0)%float.

Definition haversineDistance2D (M : GoMath.libm) (p1 p2 : TrackPoint) : float :=
  let lat1 := toRadians (Latitude p1) in
  let lon1 := toRadians (Longitude p1) in
  let lat2 := toRadians (Latitude p2) in
  let lon2 := toRadians (Longitude p2) in
  let dLat := (lat2 - lat1)%float in
  let dLon := (lon2 - lon1)%float in
  let a := (GoMath.Sin M (dLat / 2) * GoMath.Sin M (dLat / 2) +
            GoMath.Cos M lat1 * GoMath.Cos M lat2 *
            GoMath.Sin M (dLon / 2) * GoMath.Sin M (dLon / 2))%float in
  let c := (2 * GoMath.Atan2 M (GoMath.Sqrt a) (GoMath.Sqrt (1 - a)))%float in
  (earthRadius * c)%float.

(** What the program relies on of the platform's [math] functions:
    sine is odd and maps 0 to 0, cosine stays within [-1, 1] on finite
    arguments, and [Atan2(+0, 1)] is +0. *)
Definition libm_ok (M : GoMath.libm) : Prop :=
  (forall v, GoMath.Sin M (- v)%float = (- GoMath.Sin M v)%float)
  /\ GoMath.Sin M 0 = 0%float
  /\ (forall v, finite v = true -> (abs (GoMath.Cos M v) <=? 1)%float = true)
  /\ GoMath.Atan2 M 0 1 = 0%float.

(** A point whose coordinates are numbers a radian value exists for. *)
Definition valid_coordinates (p : TrackPoint) : Prop :=
  finite (toRadians (Latitude p)) = true /\ finite (toRadians (Longitude p)) = true.

(** A stand-in for the platform's functions (the small-angle forms). *)
Definition small_angle_libm : GoMath.libm :=
  {| GoMath.Sin := fun v => v;
     GoMath.Cos := fun _ => 1%float;
     GoMath.Atan2 := fun y x => (y / x)%float |}.

Definition at_position (lat lon : float) : TrackPoint :=
  set_Longitude (set_Latitude zeroTrackPoint lat) lon.

(** ** applyMovingAverage and applyLatLonSmoothing *)

(** [if windowSize%2 == 0 { windowSize++ }]. *)
Definition odd_window (windowSize : Z) : Z :=
  if Go.rem windowSize 2 =? 0 then Go.add windowSize 1 else windowSize.

(** The clipped window [start..end] around index [i]. *)
Definition window (n i half : Z) : Z * Z :=
  let start := Go.sub i half in
  let start := if start <? 0 then 0 else start in
  let end_ := Go.add i half in
  let end_ := if end_ >=? n then Go.sub n 1 else end_ in
  (start, end_).

(** [for j := start; j <= end; j++]: the indices visited. *)
Definition loop_range (start end_ : Z) : list Z := seqZ start (end_ - start + 1).

(** The inner loop of [applyMovingAverage]: ([sumElevation], [count]). *)
Definition sum_elevation (points : list TrackPoint) (start end_ : Z) : float * Z :=
  fold_left (fun acc j => ((acc.1 + Elevation (index points j))%float, Go.add acc.2 1))
            (loop_range start end_) (0%float, 0).

Definition applyMovingAverage (points : list TrackPoint) (windowSize : Z)
    : list TrackPoint :=
  if (windowSize <? 1) || (Go.len points =? 0) then points
  else
    let windowSize := odd_window windowSize in
    let smoothedPoints := replicate (length points) zeroTrackPoint in
    let halfWindow := Go.quot windowSize 2 in
    fold_left
      (fun smoothedPoints i =>
         let smoothedPoints := <[Z.to_nat i := index points i]> smoothedPoints in
         let '(start, end_) := window (Go.len points) i halfWindow in
         let '(sumElevation, count) := sum_elevation points start end_ in
         <[Z.to_nat i := set_Elevation (index smoothedPoints i)
                              (sumElevation / Go.float64 count)%float]> smoothedPoints)
      (seqZ 0 (Go.len points)) smoothedPoints.

(** The inner loop of [applyLatLonSmoothing]: ([sumLat], [sumLon], [count]). *)
Definition sum_latlon (points : list TrackPoint) (start end_ : Z)
    : float * float * Z :=
  fold_left (fun acc j =>
               ((acc.1.1 + Latitude (index points j))%float,
                (acc.1.2 + Longitude (index points j))%float,
                Go.add acc.2 1))
            (loop_range start end_) (0%float, 0%float, 0).

Definition applyLatLonSmoothing (points : list TrackPoint) (windowSize : Z)
    : list TrackPoint :=
  if (windowSize <? 1) || (Go.len points =? 0) then points
  else
    let windowSize := odd_window windowSize in
    let smoothed := replicate (length points) zeroTrackPoint in
    let half := Go.quot windowSize 2 in
    fold_left
      (fun smoothed i =>
         let '(start, end_) := window (Go.len points) i half in
         let '(sumLat, sumLon, count) := sum_latlon points start end_ in
         let smoothed := <[Z.to_nat i := index points i]> smoothed in
         let smoothed :=
           <[Z.to_nat i := set_Latitude (index smoothed i)
                                (sumLat / Go.float64 count)%float]> smoothed in
         <[Z.to_nat i := set_Longitude (index smoothed i)
                              (sumLon / Go.float64 count)%float]> smoothed)
      (seqZ 0 (Go.len points)) smoothed.

(** What each smoother leaves at index [i]. *)
Definition smooth_elevation_at (points : list TrackPoint) (half i : Z) : TrackPoint :=
  let '(start, end_) := window (Go.len points) i half in
  let '(sumElevation, count) := sum_elevation points start end_ in
  set_Elevation (index points i) (sumElevation / Go.float64 count)%float.

Definition smooth_latlon_at (points : list TrackPoint) (half i : Z) : TrackPoint :=
  let '(start, end_) := window (Go.len points) i half in
  let '(sumLat, sumLon, count) := sum_latlon points start end_ in
  set_Longitude (set_Latitude (index points i) (sumLat / Go.float64 count)%float)
                (sumLon / Go.float64 count)%float.

(** *** The smoothers, as the specification words them *)

(** Arithmetic mean of [field] over the input indices [lo..hi]. *)
Definition window_mean (field : TrackPoint -> float) (points : list TrackPoint)
    (lo hi : Z) : float :=
  (fsum (field <$> take (Z.to_nat (hi - lo + 1)) (drop (Z.to_nat lo) points))
   / Go.float64 (hi - lo + 1))%float.

(** [W' = W + 1] when [W] is even, [W] otherwise. *)
Definition normalized_window (W : Z) : Z := if Z.even W then W + 1 else W.

Definition window_lo (W i : Z) : Z := Z.max 0 (i - normalized_window W `div` 2).
Definition window_hi (W n i : Z) : Z := Z.min (n - 1) (i + normalized_window W `div` 2).

(** ** groupByDay *)

Definition groupByDay (points : list TrackPoint) (location : GoTime.Location)
    : gmap string (list TrackPoint) :=
  fold_left
    (fun grouped p =>
       let localTime := GoTime.In (Time p) location in
       let day := GoTime.Format_date localTime in
       <[day := default [] (grouped !! day) ++ [p]]> grouped)
    points ∅.

(** The local calendar date of a point in a timezone. *)
Definition localDate (location : GoTime.Location) (p : TrackPoint) : Z * Z * Z :=
  GoTime.Date (GoTime.In (Time p) location).

(** The key [groupByDay] files a point under. *)
Definition dayKey (location : GoTime.Location) (p : TrackPoint) : string :=
  GoTime.Format_date (GoTime.In (Time p) location).

(** One iteration of the loop of [groupByDay]. *)
Definition group_step (location : GoTime.Location)
    (grouped : gmap string (list TrackPoint)) (p : TrackPoint)
    : gmap string (list TrackPoint) :=
  <[dayKey location p := default [] (grouped !! dayKey location p) ++ [p]]> grouped.

(** The points of a day, in input order. *)
Definition day_points (location : GoTime.Location) (day : string)
    (points : list TrackPoint) : list TrackPoint :=
  filter (fun p => dayKey location p = day) points.

(** [p] and [q] lie in one bucket of [g]. *)
Definition same_bucket (g : gmap string (list TrackPoint)) (p q : TrackPoint) : Prop :=
  exists day bucket, g !! day = Some bucket /\ p ∈ bucket /\ q ∈ bucket.

(** Every bucket present in the map holds at least one point. *)
Definition buckets_inhabited (g : gmap string (list TrackPoint)) : Prop :=
  forall day bucket, g !! day = Some bucket -> bucket <> [].

(** All the points held by the buckets of a map. *)
Definition bucket_points (g : gmap string (list TrackPoint)) : list TrackPoint :=
  concat (map_to_list g).*2.

(** A point stamped with an instant, for examples. *)
Definition at_time (t : time_Time) : TrackPoint :=
  {| XMLName := XMLName zeroTrackPoint; Latitude := 0; Longitude := 0;
     Elevation := 0; Time := t |}.

Definition late_evening : TrackPoint := at_time (GoTime.instant 2024 6 1 23 59 0).
Definition after_midnight : TrackPoint := at_time (GoTime.instant 2024 6 2 0 1 0).

(** ** GOT points *)

Definition calculateGOTAscent (n : float) : Z :=
  let val := (n / 100.0)%float in
  GoMath.int_of_float64 (GoMath.Round val).

Definition calculateGOTDistance (n : float) : Z :=
  GoMath.int_of_float64 (GoMath.Round n).


(** One entry of [results] in [main]. *)
Record DayResult := { Distance : float; Ascent : float }.




(** ** The GPX document and [main]

    [main] reads and parses the file, then works on the parsed [GPX]
    value; what follows is that second half.  The two source files
    differ here: [gpx.go] adds everything up into two totals, the
    per-day variant keeps one entry per calendar day. *)

Record TrackSegment := {
  TrackSegment_XMLName : xml_Name;
  TrackPoints : list TrackPoint
}.

Record Track := {
  Track_XMLName : xml_Name;
  Name : string;
  TrackSegs : list TrackSegment
}.

Record GPX := {
  GPX_XMLName : xml_Name;
  Tracks : list Track
}.

Definition ascentThreshold : float := 1.5%float.
Definition movingAverageWindowSize : Z := 3.

(** [for i := 1; i < len(smoothed); i++ { dist +=
    haversineDistance2D(smoothed[i-1], smoothed[i]) }], from the value
    [dist] holds on entry ([i - 1] stays an [int], as [i >= 1]). *)
Definition distance_loop (M : GoMath.libm) (smoothed : list TrackPoint)
    (dist : float) : float :=
  fold_left
    (fun dist i =>
       (dist + haversineDistance2D M (index smoothed (i - 1)) (index smoothed i))%float)
    (seqZ 1 (Go.len smoothed - 1)) dist.

(** The great-circle legs of a track, one per pair of neighbours. *)
Definition legs (M : GoMath.libm) (points : list TrackPoint) : list float :=
  zip_with (haversineDistance2D M) points (tail points).

(** *** [main] of [gpx.go]: two running totals *)

(** The body of [for _, segment := range track.TrackSegs]; [totals] is
    ([totalDistanceKm], [totalAscentMeters]). *)
Definition total_segment (M : GoMath.libm) (totals : float * float)
    (segment : TrackSegment) : float * float :=
  let smoothed := applyMovingAverage (TrackPoints segment) movingAverageWindowSize in
  let smoothed := applyLatLonSmoothing smoothed movingAverageWindowSize in
  let totalDistanceKm := distance_loop M smoothed totals.1 in
  let totalAscentMeters :=
    (totals.2 + calculateCumulativeAscent smoothed ascentThreshold)%float in
  (totalDistanceKm, totalAscentMeters).

Definition main_totals (M : GoMath.libm) (gpx : GPX) : float * float :=
  fold_left (fun totals track => fold_left (total_segment M) (TrackSegs track) totals)
            (Tracks gpx) (0%float, 0%float).

(** All the segments of a document, track after track. *)
Definition segments (gpx : GPX) : list TrackSegment :=
  Tracks gpx ≫= TrackSegs.

(** *** [main] of the per-day variant: one entry per day *)

(** The zero value a missing key of [results] reads as. *)
Definition zeroDayResult : DayResult := {| Distance := 0; Ascent := 0 |}.

(** The figures of one day of one segment: ([dist], [ascent]). *)
Definition day_figures (M : GoMath.libm) (pts : list TrackPoint) : float * float :=
  let smoothed := applyMovingAverage pts movingAverageWindowSize in
  let smoothed := applyLatLonSmoothing smoothed movingAverageWindowSize in
  let dist := distance_loop M smoothed 0%float in
  let ascent := calculateCumulativeAscent smoothed ascentThreshold in
  (dist, ascent).

(** The body of [for day, pts := range grouped]. *)
Definition result_day (M : GoMath.libm) (results : gmap string DayResult)
    (entry : string * list TrackPoint) : gmap string DayResult :=
  let '(day, pts) := entry in
  let '(dist, ascent) := day_figures M pts in
  let r := default zeroDayResult (results !! day) in
  let r := {| Distance := (Distance r + dist)%float; Ascent := Ascent r |} in
  let r := {| Distance := Distance r; Ascent := (Ascent r + ascent)%float |} in
  <[day := r]> results.

(** [range] over a Go map visits every entry once, in an order the
    language leaves open: a [MapOrder] is one way of choosing it. *)
Definition MapOrder : Type :=
  gmap string (list TrackPoint) -> list (string * list TrackPoint).

Definition visits_once (range : MapOrder) : Prop :=
  forall grouped, range grouped ≡ₚ map_to_list grouped.

(** The body of [for _, segment := range track.TrackSegs]. *)
Definition result_segment (M : GoMath.libm) (location : GoTime.Location)
    (range : MapOrder) (results : gmap string DayResult) (segment : TrackSegment)
    : gmap string DayResult :=
  let grouped := groupByDay (TrackPoints segment) location in
  fold_left (result_day M) (range grouped) results.

Definition main_results (M : GoMath.libm) (location : GoTime.Location)
    (range : MapOrder) (gpx : GPX) : gmap string DayResult :=
  fold_left
    (fun results track =>
       fold_left (result_segment M location range) (TrackSegs track) results)
    (Tracks gpx) ∅.

(** What [result_day] leaves under [day] when it handles [pts]. *)
Definition day_entry_after (M : GoMath.libm) (entry : option DayResult)
    (pts : list TrackPoint) : DayResult :=
  let r := default zeroDayResult entry in
  {| Distance := (Distance r + (day_figures M pts).1)%float;
     Ascent := (Ascent r + (day_figures M pts).2)%float |}.

(** What a segment adds to the entry of [day]: nothing when no point of
    the segment falls on that day. *)
Definition add_figures (M : GoMath.libm) (location : GoTime.Location) (day : string)
    (entry : option DayResult) (segment : TrackSegment) : option DayResult :=
  match day_points location day (TrackPoints segment) with
  | [] => entry
  | pts => Some (day_entry_after M entry pts)
  end.

(** A document of one track with one segment, walked across midnight
    (UTC), for examples. *)
Definition night_walk : GPX :=
  {| GPX_XMLName := XMLName zeroTrackPoint;
     Tracks :=
       [ {| Track_XMLName := XMLName zeroTrackPoint;
            Name := "night walk";
            TrackSegs :=
              [ {| TrackSegment_XMLName := XMLName zeroTrackPoint;
                   TrackPoints := [late_evening; after_midnight] |} ] |} ] |}.

(** The visiting order of [map_to_list], and the opposite one. *)
Definition range_forth : MapOrder := map_to_list.
Definition range_back : MapOrder := fun grouped => reverse (map_to_list grouped).

(** ** Rounding to points, read on ranks *)

(** Nearest integer, halves away from zero, of [r / P] for a positive
    [P]. *)
Definition nearest_of_units (P r : Z) : Z :=
  Z.sgn r * ((2 * Z.abs r + P) `div` (2 * P)).

(** Nearest integer, halves away from zero, of a value given by its
    rank (units of 2^-1074). *)
Definition nearest_of_rank (r : Z) : Z := nearest_of_units (2 ^ 1074) r.

(** The largest value the statements on points look at: a round number
    below 2^63, beyond which [int(x)] is left to the implementation. *)
Definition points_bound : float := 9e18%float.

(** ** Coordinates that are not numbers *)


(** * Properties *)

Example ascent_zero_threshold :
  calculateCumulativeAscent (at_elevation <$> [0; 10; 20; 30]%float) 0 = 30%float.
Proof. vm_compute. reflexivity. Qed.

Example ascent_two_small_climbs :
  calculateCumulativeAscent (at_elevation <$> [0; 3; 0; 3; 0]%float) 5 = 0%float.
Proof. vm_compute. reflexivity. Qed.

Example ascent_two_runs :
  calculateCumulativeAscent (at_elevation <$> [100; 102; 101; 105]%float) 1.5 = 6%float.
Proof. vm_compute. reflexivity. Qed.

(** ** The ascent loop follows the hysteresis filter *)

Lemma len_app {A} (l k : list A) : Go.len (l ++ k) = Go.len l + Go.len k.
Proof. unfold Go.len. rewrite length_app. lia. Qed.

Lemma len_cons {A} (x : A) (l : list A) : Go.len (x :: l) = 1 + Go.len l.
Proof. unfold Go.len. simpl. lia. Qed.

Lemma len_nonneg {A} (l : list A) : 0 <= Go.len l.
Proof. unfold Go.len. lia. Qed.

Lemma index_app_r (pre rest : list TrackPoint) (p : TrackPoint) :
  index (pre ++ p :: rest) (Go.len pre) = p.
Proof.
  unfold index, Go.len. rewrite Nat2Z.id.
  apply list_lookup_total_correct.
  rewrite lookup_app_r by lia. by rewrite Nat.sub_diag.
Qed.

Lemma ascent_loop_feed (T : float) (rest pre : list TrackPoint) (st : AscentState) :
  fold_left (ascent_body T (pre ++ rest)) (seqZ (Go.len pre) (Go.len rest)) st
  = fold_left (ascent_feed T) (Elevation <$> rest) st.
Proof.
  revert pre st. induction rest as [|p rest IH]; intros pre st; [done|].
  rewrite len_cons, seqZ_cons by (pose proof (len_nonneg rest); lia).
  cbn [fold_left fmap list_fmap].
  replace (Z.pred (1 + Go.len rest)) with (Go.len rest) by lia.
  replace (Z.succ (Go.len pre)) with (Go.len (pre ++ [p]))
    by (rewrite len_app, len_cons; unfold Go.len; simpl; lia).
  rewrite (cons_middle p pre rest), app_assoc, IH. f_equal.
  unfold ascent_body, ascent_feed, commit.
  rewrite <- app_assoc. cbn [app]. by rewrite index_app_r.
Qed.

Lemma ascent_feed_hysteresis (T : float) (es : list float) (st : AscentState) :
  let st' := fold_left (ascent_feed T) es st in
  (totalAscent st', climb st')
  = fold_left (hysteresis_step T) (deltas (prevEle st :: es))
              (totalAscent st, climb st).
Proof.
  revert st. induction es as [|e es IH]; intros st; [done|].
  cbn zeta in *. cbn [fold_left]. rewrite IH. clear IH.
  unfold deltas. cbn [tail zip_with fold_left].
  f_equal.
  - f_equal. unfold ascent_feed. by destruct (0 <? e - prevEle st)%float.
  - unfold ascent_feed, hysteresis_step. cbn [fst snd].
    by destruct (0 <? e - prevEle st)%float.
Qed.

Lemma ascent_short (points : list TrackPoint) (T : float) :
  (length points < 2)%nat -> calculateCumulativeAscent points T = 0%float.
Proof.
  intros Hlt. unfold calculateCumulativeAscent.
  destruct (Z.ltb_spec (Go.len points) 2) as [_|Hge]; [done|].
  unfold Go.len in Hge. lia.
Qed.

Lemma ascent_loop_spec (points : list TrackPoint) (T : float) :
  calculateCumulativeAscent points T = ascent_spec points T.
Proof.
  unfold ascent_spec.
  destruct (Nat.ltb_spec (length points) 2) as [Hlt|Hge]; [by apply ascent_short|].
  destruct points as [|p0 rest]; [simpl in Hge; lia|].
  unfold calculateCumulativeAscent.
  destruct (Z.ltb_spec (Go.len (p0 :: rest)) 2) as [Hlt|_].
  { unfold Go.len in Hlt. lia. }
  replace (Go.len (p0 :: rest) - 1) with (Go.len rest) by (rewrite len_cons; lia).
  rewrite (ascent_loop_feed T rest [p0]).
  change (index (p0 :: rest) 0) with p0.
  set (st0 := {| totalAscent := 0; climb := 0; prevEle := Elevation p0 |}).
  pose proof (ascent_feed_hysteresis T (Elevation <$> rest) st0) as H.
  cbn zeta in H. unfold hysteresis_total.
  change (Elevation <$> p0 :: rest) with (prevEle st0 :: (Elevation <$> rest)).
  change (0%float, 0%float) with (totalAscent st0, climb st0).
  rewrite <- H. reflexivity.
Qed.

(** C1. For every point sequence and every threshold,
    [calculateCumulativeAscent] returns the total of the two-state
    hysteresis filter over the consecutive elevation deltas: a positive
    delta is added to the running climb; on any other delta the climb is
    committed exactly when it is at least the threshold and is reset
    either way; the last climb is flushed by the same rule; fewer than
    two points give 0. *)
Theorem calculateCumulativeAscent_hysteresis (points : list TrackPoint) (T : float) :
  calculateCumulativeAscent points T = ascent_spec points T
  /\ ((length points < 2)%nat -> calculateCumulativeAscent points T = 0%float).
Proof. split; [apply ascent_loop_spec|apply ascent_short]. Qed.

(** ** The smoothers rebuild the slice index by index *)

(** A loop that writes [g i] at each index [i] of a slice tabulates [g]. *)
Lemma fold_insert_tabulate (g : Z -> TrackPoint)
    (step : list TrackPoint -> Z -> list TrackPoint) (k : nat) (l : list TrackPoint) :
  (forall l' i, (i < length l')%nat ->
                step l' (Z.of_nat i) = <[i := g (Z.of_nat i)]> l') ->
  (k <= length l)%nat ->
  fold_left step (seqZ 0 (Z.of_nat k)) l
  = (g <$> seqZ 0 (Z.of_nat k)) ++ drop k l.
Proof.
  intros Hstep. induction k as [|k IH]; intros Hk.
  - by rewrite drop_0.
  - rewrite Nat2Z.inj_succ, <- Z.add_1_r, seqZ_app by lia.
    rewrite fold_left_app, IH by lia.
    change (seqZ (0 + Z.of_nat k) 1) with ([0 + Z.of_nat k]).
    rewrite fmap_app, <- app_assoc. cbn [fmap list_fmap app fold_left].
    rewrite Z.add_0_l.
    destruct (drop k l) as [|x l'] eqn:Hd.
    { apply (f_equal length) in Hd. rewrite length_drop in Hd. simpl in Hd. lia. }
    rewrite Hstep by (rewrite length_app, length_fmap, length_seqZ; simpl; lia).
    rewrite insert_app_r_alt by (rewrite length_fmap, length_seqZ; lia).
    rewrite length_fmap, length_seqZ.
    replace (k - Z.to_nat (Z.of_nat k))%nat with 0%nat by lia.
    cbn [insert list_insert]. f_equal. f_equal.
    replace (S k) with (k + 1)%nat by lia. by rewrite <- drop_drop, Hd.
Qed.

Lemma index_insert (l : list TrackPoint) (i : nat) (p : TrackPoint) :
  (i < length l)%nat -> index (<[i := p]> l) (Z.of_nat i) = p.
Proof.
  intros Hi. unfold index. rewrite Nat2Z.id.
  apply list_lookup_total_correct. by apply list_lookup_insert_eq.
Qed.

Lemma smoothing_guard (points : list TrackPoint) (W : Z) :
  (W <? 1) || (Go.len points =? 0) = false <-> 1 <= W /\ points <> [].
Proof.
  rewrite orb_false_iff, Z.ltb_ge, Z.eqb_neq. unfold Go.len.
  destruct points; simpl; split; intros [? ?]; split; try done; lia.
Qed.

Lemma applyMovingAverage_tabulate (points : list TrackPoint) (W : Z) :
  1 <= W -> points <> [] ->
  applyMovingAverage points W
  = smooth_elevation_at points (Go.quot (odd_window W) 2) <$> seqZ 0 (Go.len points).
Proof.
  intros HW Hne. unfold applyMovingAverage.
  destruct (smoothing_guard points W) as [_ ->]; [|done].
  cbn zeta. unfold Go.len at 2 3.
  rewrite (fold_insert_tabulate
             (smooth_elevation_at points (Go.quot (odd_window W) 2))).
  - rewrite drop_ge by (rewrite length_replicate; lia). by rewrite app_nil_r.
  - intros l i Hi. unfold smooth_elevation_at. rewrite Nat2Z.id.
    destruct (window _ _ _) as [start end_].
    destruct (sum_elevation _ _ _) as [s c].
    by rewrite index_insert, list_insert_insert_eq.
  - by rewrite length_replicate.
Qed.

Lemma applyLatLonSmoothing_tabulate (points : list TrackPoint) (W : Z) :
  1 <= W -> points <> [] ->
  applyLatLonSmoothing points W
  = smooth_latlon_at points (Go.quot (odd_window W) 2) <$> seqZ 0 (Go.len points).
Proof.
  intros HW Hne. unfold applyLatLonSmoothing.
  destruct (smoothing_guard points W) as [_ ->]; [|done].
  cbn zeta. unfold Go.len at 2 3.
  rewrite (fold_insert_tabulate
             (smooth_latlon_at points (Go.quot (odd_window W) 2))).
  - rewrite drop_ge by (rewrite length_replicate; lia). by rewrite app_nil_r.
  - intros l i Hi. unfold smooth_latlon_at. rewrite Nat2Z.id.
    destruct (window _ _ _) as [start end_].
    destruct (sum_latlon _ _ _) as [[sLat sLon] c].
    rewrite !index_insert by (by rewrite ?length_insert).
    by rewrite !list_insert_insert_eq.
  - by rewrite length_replicate.
Qed.

Lemma index_lookup (points : list TrackPoint) (i : nat) (p : TrackPoint) :
  points !! i = Some p -> index points (Z.of_nat i) = p.
Proof.
  intros H. unfold index. rewrite Nat2Z.id. by apply list_lookup_total_correct.
Qed.

(** Any per-index rewrite that keeps a field keeps the whole column. *)
Lemma tabulate_frame {B} (field : TrackPoint -> B) (g : Z -> TrackPoint)
    (points : list TrackPoint) :
  (forall i, field (g i) = field (index points i)) ->
  field <$> (g <$> seqZ 0 (Go.len points)) = field <$> points.
Proof.
  intros Hg. apply list_eq. intros i.
  rewrite !list_lookup_fmap.
  destruct (points !! i) as [p|] eqn:Hp.
  - rewrite (lookup_seqZ_lt 0 (Go.len points) i)
      by (apply lookup_lt_Some in Hp; unfold Go.len; lia).
    cbn. rewrite Z.add_0_l. f_equal. rewrite Hg. f_equal. by apply index_lookup.
  - rewrite lookup_seqZ_ge; [done|].
    apply lookup_ge_None in Hp. unfold Go.len. lia.
Qed.

Lemma smoothers_length (points : list TrackPoint) (windowSize : Z) :
  length (applyMovingAverage points windowSize) = length points
  /\ length (applyLatLonSmoothing points windowSize) = length points.
Proof.
  destruct ((windowSize <? 1) || (Go.len points =? 0)) eqn:Hguard.
  { unfold applyMovingAverage, applyLatLonSmoothing. by rewrite Hguard. }
  apply smoothing_guard in Hguard as [HW Hne].
  rewrite applyMovingAverage_tabulate, applyLatLonSmoothing_tabulate by done.
  rewrite !length_fmap, !length_seqZ. unfold Go.len. by rewrite !Nat2Z.id.
Qed.

(** C7. For every point sequence and window size, [applyMovingAverage]
    changes the elevation column only (name, latitude, longitude and
    timestamp columns are those of the input, index by index) and
    [applyLatLonSmoothing] changes latitude and longitude only (name,
    elevation and timestamp columns are kept); both keep the length. *)
Theorem smoothers_frame (points : list TrackPoint) (windowSize : Z) :
  (length (applyMovingAverage points windowSize) = length points
   /\ XMLName <$> applyMovingAverage points windowSize = XMLName <$> points
   /\ Latitude <$> applyMovingAverage points windowSize = Latitude <$> points
   /\ Longitude <$> applyMovingAverage points windowSize = Longitude <$> points
   /\ Time <$> applyMovingAverage points windowSize = Time <$> points)
  /\ (length (applyLatLonSmoothing points windowSize) = length points
      /\ XMLName <$> applyLatLonSmoothing points windowSize = XMLName <$> points
      /\ Elevation <$> applyLatLonSmoothing points windowSize = Elevation <$> points
      /\ Time <$> applyLatLonSmoothing points windowSize = Time <$> points).
Proof.
  destruct ((windowSize <? 1) || (Go.len points =? 0)) eqn:Hguard.
  { unfold applyMovingAverage, applyLatLonSmoothing. by rewrite Hguard. }
  apply smoothing_guard in Hguard as [HW Hne].
  rewrite applyMovingAverage_tabulate, applyLatLonSmoothing_tabulate by done.
  rewrite !length_fmap, !length_seqZ. unfold Go.len at 1 6. rewrite !Nat2Z.id.
  repeat split; try done; apply tabulate_frame; intros i;
    unfold smooth_elevation_at, smooth_latlon_at;
    destruct (window _ _ _) as [start end_];
    try destruct (sum_elevation _ _ _) as [s c];
    try destruct (sum_latlon _ _ _) as [[sLat sLon] c]; done.
Qed.

Lemma wrap_small (z : Z) : - 2 ^ 63 <= z < 2 ^ 63 -> Go.wrap z = z.
Proof. intros H. unfold Go.wrap. rewrite Z.mod_small; lia. Qed.

Lemma odd_window_normalized (W : Z) :
  1 <= W < 2 ^ 63 -> odd_window W = normalized_window W.
Proof.
  intros HW. unfold odd_window, normalized_window, Go.rem, Go.add.
  rewrite Z.rem_mod_nonneg by lia. rewrite Zeven_mod.
  destruct (Z.eqb_spec (W mod 2) 0) as [He|Ho]; [|done].
  apply wrap_small. 
  assert (W <> 2 ^ 63 - 1).
  { intros ->. vm_compute in He. done. }
  lia.
Qed.

Lemma half_window_bounds (W : Z) :
  1 <= W < 2 ^ 63 ->
  Go.quot (normalized_window W) 2 = normalized_window W `div` 2
  /\ 0 <= normalized_window W `div` 2 < 2 ^ 62.
Proof.
  intros HW. unfold Go.quot.
  assert (1 <= normalized_window W < 2 ^ 63) as HW'.
  { rewrite <- odd_window_normalized by done.
    unfold odd_window, Go.rem, Go.add. rewrite Z.rem_mod_nonneg by lia.
    destruct (Z.eqb_spec (W mod 2) 0) as [He|Ho]; [|done].
    assert (W <> 2 ^ 63 - 1) by (intros ->; vm_compute in He; done).
    rewrite wrap_small; lia. }
  rewrite Z.quot_div_nonneg by lia.
  assert (0 <= normalized_window W `div` 2 < 2 ^ 62).
  { split; [apply Z.div_pos; lia|]. apply Z.div_lt_upper_bound; lia. }
  split; [apply wrap_small; lia|done].
Qed.

Lemma window_clip (n i half : Z) :
  0 <= i < n -> n < 2 ^ 62 -> 0 <= half < 2 ^ 62 ->
  window n i half = (Z.max 0 (i - half), Z.min (n - 1) (i + half)).
Proof.
  intros Hi Hn Hh. unfold window, Go.sub, Go.add.
  rewrite !wrap_small by lia.
  destruct (Z.ltb_spec (i - half) 0), (Z.geb_spec (i + half) n); f_equal; lia.
Qed.

(** Reading [points[j]] for [j] over a range reads a slice. *)
Lemma index_range_slice (points : list TrackPoint) (k : nat) (lo : nat) :
  (lo + k <= length points)%nat ->
  index points <$> seqZ (Z.of_nat lo) (Z.of_nat k) = take k (drop lo points).
Proof.
  intros H. apply list_eq. intros i.
  rewrite list_lookup_fmap.
  destruct (decide (i < k)%nat) as [Hi|Hi].
  - rewrite lookup_seqZ_lt by lia. cbn.
    rewrite lookup_take_lt, lookup_drop by done.
    destruct (lookup_lt_is_Some_2 points (lo + i)) as [p Hp]; [lia|].
    rewrite Hp. f_equal.
    replace (Z.of_nat lo + Z.of_nat i) with (Z.of_nat (lo + i)) by lia.
    by apply index_lookup.
  - rewrite lookup_seqZ_ge by lia. cbn.
    by rewrite lookup_take_ge by lia.
Qed.

Lemma fold_sum_count {A} (f : A -> float) (xs : list A) (a : float) (c : Z) :
  0 <= c -> c + Go.len xs < 2 ^ 63 ->
  fold_left (fun acc x => ((acc.1 + f x)%float, Go.add acc.2 1)) xs (a, c)
  = (fold_left (fun acc x => (acc + x)%float) (f <$> xs) a, c + Go.len xs).
Proof.
  revert a c. induction xs as [|x xs IH]; intros a c Hc Hlen.
  - unfold Go.len. simpl. f_equal. lia.
  - rewrite len_cons in *. cbn [fold_left fmap list_fmap fst snd].
    unfold Go.add at 2. rewrite wrap_small by (pose proof (len_nonneg xs); lia).
    rewrite IH by (pose proof (len_nonneg xs); lia). f_equal. lia.
Qed.

Lemma fold_left_fmap {A B C} (f : A -> B -> A) (g : C -> B) (l : list C) (a : A) :
  fold_left f (g <$> l) a = fold_left (fun a c => f a (g c)) l a.
Proof. revert a. induction l as [|c l IH]; intros a; [done|]. apply IH. Qed.

Lemma len_slice (points : list TrackPoint) (lo hi : Z) :
  0 <= lo -> lo <= hi + 1 -> hi < Go.len points ->
  Go.len (take (Z.to_nat (hi - lo + 1)) (drop (Z.to_nat lo) points)) = hi - lo + 1.
Proof.
  intros. unfold Go.len in *. rewrite length_take, length_drop. lia.
Qed.

Lemma sum_elevation_slice (points : list TrackPoint) (lo hi : Z) :
  0 <= lo -> lo <= hi + 1 -> hi < Go.len points -> Go.len points < 2 ^ 62 ->
  sum_elevation points lo hi
  = (fsum (Elevation <$> take (Z.to_nat (hi - lo + 1)) (drop (Z.to_nat lo) points)),
     hi - lo + 1).
Proof.
  intros Hlo Hhi Hn Hbig. unfold sum_elevation, loop_range, fsum.
  rewrite <- (index_range_slice points (Z.to_nat (hi - lo + 1)) (Z.to_nat lo))
    by (unfold Go.len in *; lia).
  rewrite !Z2Nat.id by lia.
  pose proof (fold_left_fmap
    (fun acc p => ((acc.1 + Elevation p)%float, Go.add acc.2 1))
    (index points) (seqZ lo (hi - lo + 1)) (0%float, 0)) as Hf.
  cbn beta in Hf. rewrite <- Hf. clear Hf.
  rewrite fold_sum_count.
  - f_equal. unfold Go.len. rewrite length_fmap, length_seqZ. lia.
  - done.
  - unfold Go.len in *. rewrite length_fmap, length_seqZ. lia.
Qed.

Lemma fold_sum2_count {A} (f g : A -> float) (xs : list A) (a b : float) (c : Z) :
  0 <= c -> c + Go.len xs < 2 ^ 63 ->
  fold_left (fun acc x => ((acc.1.1 + f x)%float, (acc.1.2 + g x)%float, Go.add acc.2 1))
            xs (a, b, c)
  = (fold_left (fun acc x => (acc + x)%float) (f <$> xs) a,
     fold_left (fun acc x => (acc + x)%float) (g <$> xs) b, c + Go.len xs).
Proof.
  revert a b c. induction xs as [|x xs IH]; intros a b c Hc Hlen.
  - unfold Go.len. simpl. do 2 f_equal. lia.
  - rewrite len_cons in *. cbn [fold_left fmap list_fmap fst snd].
    unfold Go.add at 2. rewrite wrap_small by (pose proof (len_nonneg xs); lia).
    rewrite IH by (pose proof (len_nonneg xs); lia). f_equal. lia.
Qed.

Lemma sum_latlon_slice (points : list TrackPoint) (lo hi : Z) :
  0 <= lo -> lo <= hi + 1 -> hi < Go.len points -> Go.len points < 2 ^ 62 ->
  sum_latlon points lo hi
  = (fsum (Latitude <$> take (Z.to_nat (hi - lo + 1)) (drop (Z.to_nat lo) points)),
     fsum (Longitude <$> take (Z.to_nat (hi - lo + 1)) (drop (Z.to_nat lo) points)),
     hi - lo + 1).
Proof.
  intros Hlo Hhi Hn Hbig. unfold sum_latlon, loop_range, fsum.
  rewrite <- (index_range_slice points (Z.to_nat (hi - lo + 1)) (Z.to_nat lo))
    by (unfold Go.len in *; lia).
  rewrite !Z2Nat.id by lia.
  pose proof (fold_left_fmap
    (fun acc p => ((acc.1.1 + Latitude p)%float, (acc.1.2 + Longitude p)%float,
                   Go.add acc.2 1))
    (index points) (seqZ lo (hi - lo + 1)) (0%float, 0%float, 0)) as Hf.
  cbn beta in Hf. rewrite <- Hf. clear Hf.
  rewrite fold_sum2_count.
  - f_equal. unfold Go.len. rewrite length_fmap, length_seqZ. lia.
  - done.
  - unfold Go.len in *. rewrite length_fmap, length_seqZ. lia.
Qed.

(** C2. For a non-empty slice and a window W >= 1, both smoothers keep
    the length, and the smoothed field at index i is the arithmetic mean
    of that field over the input indices max(0, i - W'/2) ..
    min(n-1, i + W'/2), where W' = W+1 for even W and W otherwise; the
    divisor is the number of points in that clipped window.  With an
    empty slice or W < 1 the input comes back unchanged.  (W is an [int];
    a slice holds fewer than 2^62 points.) *)
Theorem smoothers_window_mean (points : list TrackPoint) (W : Z) :
  (1 <= W < 2 ^ 63 -> points <> [] -> Go.len points < 2 ^ 62 ->
   length (applyMovingAverage points W) = length points
   /\ length (applyLatLonSmoothing points W) = length points
   /\ forall (i : nat) (p : TrackPoint), points !! i = Some p ->
      let lo := window_lo W (Z.of_nat i) in
      let hi := window_hi W (Go.len points) (Z.of_nat i) in
      applyMovingAverage points W !! i
      = Some (set_Elevation p (window_mean Elevation points lo hi))
      /\ applyLatLonSmoothing points W !! i
         = Some (set_Longitude (set_Latitude p (window_mean Latitude points lo hi))
                               (window_mean Longitude points lo hi)))
  /\ (W < 1 \/ points = [] ->
      applyMovingAverage points W = points /\ applyLatLonSmoothing points W = points).
Proof.
  split.
  - intros HW Hne Hbig.
    destruct (smoothers_length points W) as [HlenE HlenL].
    split; [done|]. split; [done|].
    intros i p Hp lo hi.
    pose proof (lookup_lt_Some _ _ _ Hp) as Hi.
    destruct (half_window_bounds W HW) as [Hq Hhalf].
    rewrite applyMovingAverage_tabulate, applyLatLonSmoothing_tabulate by (done || lia).
    rewrite !list_lookup_fmap, lookup_seqZ_lt by (unfold Go.len; lia).
    cbn [fmap option_fmap option_map]. rewrite Z.add_0_l.
    unfold smooth_elevation_at, smooth_latlon_at.
    rewrite odd_window_normalized, Hq by done.
    rewrite window_clip by (unfold Go.len in *; lia).
    fold (window_lo W (Z.of_nat i)). fold (window_hi W (Go.len points) (Z.of_nat i)).
    fold lo. fold hi.
    assert (0 <= lo /\ lo <= hi + 1 /\ hi < Go.len points) as (H1 & H2 & H3).
    { unfold lo, hi, window_lo, window_hi, Go.len in *. lia. }
    rewrite sum_elevation_slice, sum_latlon_slice by done.
    rewrite (index_lookup _ _ _ Hp). done.
  - intros Hguard. unfold applyMovingAverage, applyLatLonSmoothing.
    assert ((W <? 1) || (Go.len points =? 0) = true) as ->; [|done].
    apply orb_true_iff. destruct Hguard as [HW| ->].
    + left. by apply Z.ltb_lt.
    + by right.
Qed.

(** ** The date string determines the date *)

Module GoTimeFacts.
Import GoTime.

Lemma digit_value_char (d : Z) : 0 <= d < 10 -> digit_value (digit_char d) = d.
Proof.
  intros H. unfold digit_value, digit_char.
  rewrite nat_ascii_embedding by lia. lia.
Qed.

Lemma digit_char_not_minus (d : Z) : 0 <= d < 10 -> Ascii.eqb (digit_char d) "-" = false.
Proof.
  intros H. apply Ascii.eqb_neq. intros E.
  apply (f_equal digit_value) in E. rewrite digit_value_char in E by done.
  vm_compute in E. lia.
Qed.

Lemma digits_go_acc (fuel : nat) (n : Z) (acc : list ascii) :
  digits_go fuel n acc = digits_go fuel n [] ++ acc.
Proof.
  revert n acc. induction fuel as [|fuel IH]; intros n acc; [done|].
  cbn [digits_go]. destruct (n <? 10); [done|].
  rewrite IH, (IH _ [_]), <- app_assoc. done.
Qed.

Lemma digits_go_fuel (f1 f2 : nat) (n : Z) (acc : list ascii) :
  0 <= n < 2 ^ Z.of_nat f1 -> n < 2 ^ Z.of_nat f2 -> (0 < f1)%nat -> (0 < f2)%nat ->
  digits_go f1 n acc = digits_go f2 n acc.
Proof.
  revert f2 n acc. induction f1 as [|f1 IH]; intros f2 n acc H1 H2 Hp1 Hp2; [lia|].
  destruct f2 as [|f2]; [lia|]. cbn [digits_go].
  destruct (Z.ltb_spec n 10) as [|Hge]; [done|].
  rewrite !Nat2Z.inj_succ, !Z.pow_succ_r in * by lia.
  assert (n `div` 10 < 2 ^ Z.of_nat f1) by (apply Z.div_lt_upper_bound; lia).
  assert (n `div` 10 < 2 ^ Z.of_nat f2) by (apply Z.div_lt_upper_bound; lia).
  assert (0 <= n `div` 10) by (apply Z.div_pos; lia).
  apply IH; try lia.
  - destruct f1; [|lia]. change (2 ^ Z.of_nat 0) with 1 in *. lia.
  - destruct f2; [|lia]. change (2 ^ Z.of_nat 0) with 1 in *. lia.
Qed.

Lemma digits_small (n : Z) : 0 <= n < 10 -> digits n = [digit_char n].
Proof.
  intros H. unfold digits. cbn [digits_go].
  destruct (Z.ltb_spec n 10); [|lia]. by rewrite Z.mod_small.
Qed.

Lemma digits_snoc (n : Z) :
  10 <= n -> digits n = digits (n `div` 10) ++ [digit_char (n `mod` 10)].
Proof.
  intros H. unfold digits at 1. cbn [digits_go].
  destruct (Z.ltb_spec n 10); [lia|].
  rewrite digits_go_acc. f_equal. unfold digits.
  assert (3 <= Z.log2 n) by (apply Z.log2_le_pow2; lia).
  assert (0 <= n `div` 10) by (apply Z.div_pos; lia).
  pose proof (Z.log2_nonneg (n `div` 10)).
  assert (n < 2 ^ Z.succ (Z.log2 n)) by (apply Z.log2_spec; lia).
  rewrite Z.pow_succ_r in * by lia.
  apply digits_go_fuel; try lia.
  - rewrite Z2Nat.id by lia. split; [done|]. apply Z.div_lt_upper_bound; lia.
  - rewrite Nat2Z.inj_succ, Z2Nat.id by lia.
    destruct (Z.eq_dec (n `div` 10) 0) as [->|]; [done|].
    apply Z.log2_spec. lia.
Qed.

Lemma parse_digits_snoc l c : parse_digits (l ++ [c]) = parse_digits l * 10 + digit_value c.
Proof. unfold parse_digits. by rewrite fold_left_app. Qed.

Lemma digits_spec (n : Z) :
  0 <= n ->
  parse_digits (digits n) = n
  /\ exists d r, 0 <= d < 10 /\ digits n = digit_char d :: r.
Proof.
  revert n. apply Zlt_0_ind. intros n IH Hn.
  destruct (Z.lt_ge_cases n 10) as [Hlt|Hge].
  - rewrite digits_small by lia. split.
    + unfold parse_digits. cbn. rewrite digit_value_char; lia.
    + by exists n, [].
  - rewrite digits_snoc by done.
    assert (0 <= n `div` 10 < n) as Hq.
    { split; [apply Z.div_pos; lia|apply Z.div_lt; lia]. }
    destruct (IH (n `div` 10)) as [Hp (d & r & Hd & Hr)]; [lia|].
    split.
    + rewrite parse_digits_snoc, Hp, digit_value_char by (apply Z.mod_pos_bound; lia).
      pose proof (Z.div_mod n 10). lia.
    + exists d, (r ++ [digit_char (n `mod` 10)]). by rewrite Hr.
Qed.

Lemma parse_digits_zeros (k : nat) (l : list ascii) :
  parse_digits (replicate k "0"%char ++ l) = parse_digits l.
Proof. induction k as [|k IH]; [done|]. exact IH. Qed.

Lemma parseInt_appendInt (x : Z) (width : nat) : parseInt (appendInt x width) = x.
Proof.
  unfold appendInt.
  destruct (digits_spec (Z.abs x)) as [Hp (d & r & Hd & Hr)]; [lia|].
  destruct (Z.ltb_spec x 0) as [Hneg|Hpos]; cbn [app parseInt].
  - change (Ascii.eqb "-" "-") with true. cbv iota.
    rewrite parse_digits_zeros, Hp. lia.
  - destruct (replicate _ _ ++ digits (Z.abs x)) as [|c l] eqn:E.
    { apply (f_equal length) in E. rewrite length_app, Hr in E. simpl in E. lia. }
    assert (Ascii.eqb c "-" = false) as Hc.
    { destruct (width - length (digits (Z.abs x)))%nat; cbn [replicate app] in E.
      - rewrite Hr in E. injection E as <- _. by apply digit_char_not_minus.
      - by injection E as <- _. }
    cbn [parseInt]. rewrite Hc, <- E, parse_digits_zeros, Hp. lia.
Qed.

Lemma appendInt_inj (x y : Z) (width : nat) :
  appendInt x width = appendInt y width -> x = y.
Proof.
  intros E. rewrite <- (parseInt_appendInt x width), E. apply parseInt_appendInt.
Qed.

Lemma all_from_spec (P : Z -> bool) (n : nat) (start z : Z) :
  all_from P n start = true -> start <= z < start + Z.of_nat n -> P z = true.
Proof.
  revert start. induction n as [|n IH]; intros start Hall Hz; [lia|].
  cbn [all_from] in Hall. apply andb_true_iff in Hall as [Hs Hrest].
  destruct (Z.eq_dec z start) as [->|Hne]; [done|].
  apply (IH (start + 1)); [done|lia].
Qed.

Lemma civil_in_range_all : all_from civil_in_range (Z.to_nat 146097) 0 = true.
Proof. vm_compute. reflexivity. Qed.

Lemma two_digit_fields :
  all_from (fun v => (length (appendInt v 2) =? 2)%nat) (Z.to_nat 31) 1 = true.
Proof. vm_compute. reflexivity. Qed.

Lemma Date_in_range (lt : time_Time * Location) :
  1 <= (Date lt).1.2 <= 12 /\ 1 <= (Date lt).2 <= 31.
Proof.
  unfold Date, civil_from_days.
  set (z := localDay lt + 719468).
  pose proof (Z.mod_pos_bound z 146097 eq_refl) as Hdoe.
  pose proof (all_from_spec _ _ _ (z `mod` 146097) civil_in_range_all) as Hall.
  unfold civil_in_range in Hall.
  change (civil_of_doe (z `div` 146097) (z `mod` 146097)).1.2
    with (civil_of_doe 0 (z `mod` 146097)).1.2.
  change (civil_of_doe (z `div` 146097) (z `mod` 146097)).2
    with (civil_of_doe 0 (z `mod` 146097)).2.
  destruct (civil_of_doe 0 (z `mod` 146097)) as [[y m] d]. cbn [fst snd].
  rewrite !andb_true_iff, !Z.leb_le in Hall. lia.
Qed.

Lemma appendInt_2_length (v : Z) : 1 <= v <= 31 -> length (appendInt v 2) = 2%nat.
Proof.
  intros Hv. apply Nat.eqb_eq.
  apply (all_from_spec (fun v => (length (appendInt v 2) =? 2)%nat) _ _ v two_digit_fields).
  lia.
Qed.

(** The date string determines the date. *)
Lemma Format_date_inj (lt1 lt2 : time_Time * Location) :
  Format_date lt1 = Format_date lt2 -> Date lt1 = Date lt2.
Proof.
  unfold Format_date.
  pose proof (Date_in_range lt1) as [Hm1 Hd1].
  pose proof (Date_in_range lt2) as [Hm2 Hd2].
  destruct (Date lt1) as [[y1 m1] d1], (Date lt2) as [[y2 m2] d2].
  cbn [fst snd] in *. intros E.
  apply (f_equal list_ascii_of_string) in E.
  rewrite !list_ascii_of_string_of_list_ascii in E.
  apply app_inj_2 in E as [Ey E].
  2:{ cbn [length app]. rewrite !length_app. cbn [length].
      rewrite !appendInt_2_length by lia. done. }
  injection E as E. apply app_inj_1 in E as [Em E].
  2:{ rewrite !appendInt_2_length by lia. done. }
  injection E as E.
  by rewrite (appendInt_inj _ _ _ Ey), (appendInt_inj _ _ _ Em), (appendInt_inj _ _ _ E).
Qed.

End GoTimeFacts.

(** ** groupByDay files each point under its day *)

Lemma groupByDay_fold (points : list TrackPoint) (location : GoTime.Location) :
  groupByDay points location = fold_left (group_step location) points ∅.
Proof. reflexivity. Qed.

Lemma group_step_bucket location g p day :
  default [] (group_step location g p !! day)
  = default [] (g !! day) ++ day_points location day [p].
Proof.
  unfold group_step, day_points. rewrite filter_cons, filter_nil.
  destruct (decide (dayKey location p = day)) as [->|Hne].
  - by rewrite lookup_insert_eq.
  - rewrite lookup_insert_ne by done. by rewrite app_nil_r.
Qed.

Lemma group_fold_bucket location points g day :
  default [] (fold_left (group_step location) points g !! day)
  = default [] (g !! day) ++ day_points location day points.
Proof.
  revert g. induction points as [|p ps IH]; intros g.
  - unfold day_points. by rewrite filter_nil, app_nil_r.
  - cbn [fold_left]. rewrite IH, group_step_bucket, <- app_assoc. f_equal.
    unfold day_points. by rewrite <- filter_app.
Qed.

Lemma group_fold_inhabited location points g :
  buckets_inhabited g -> buckets_inhabited (fold_left (group_step location) points g).
Proof.
  revert g. induction points as [|p ps IH]; intros g Hg; [done|].
  cbn [fold_left]. apply IH. intros day bucket. unfold group_step.
  destruct (decide (dayKey location p = day)) as [->|Hne].
  - rewrite lookup_insert_eq. intros [= <-]. by destruct (default _ _).
  - rewrite lookup_insert_ne by done. apply Hg.
Qed.

(** The bucket of a day is exactly the day's points, in input order; a
    day without points has no bucket. *)
Lemma groupByDay_lookup points location day :
  groupByDay points location !! day
  = match day_points location day points with
    | [] => None
    | bucket => Some bucket
    end.
Proof.
  pose proof (group_fold_bucket location points ∅ day) as Hb.
  pose proof (group_fold_inhabited location points ∅) as Hi.
  rewrite lookup_empty in Hb. cbn in Hb. rewrite groupByDay_fold.
  destruct (fold_left _ points ∅ !! day) as [b|] eqn:Hl; cbn in Hb; rewrite <- Hb.
  - destruct b; [|done]. exfalso. eapply Hi; [|exact Hl|done]. intros ??. by rewrite lookup_empty.
  - done.
Qed.

Lemma groupByDay_Some points location day bucket :
  groupByDay points location !! day = Some bucket
  <-> bucket = day_points location day points /\ bucket <> [].
Proof.
  rewrite groupByDay_lookup. destruct (day_points _ _ _) as [|p l] eqn:E.
  - split; [done|]. by intros [-> ?].
  - split; [by intros [= <-]|]. by intros [-> _].
Qed.

Lemma same_bucket_iff_key points location p q :
  p ∈ points -> q ∈ points ->
  same_bucket (groupByDay points location) p q
  <-> dayKey location p = dayKey location q.
Proof.
  intros Hp Hq. split.
  - intros (day & bucket & Hb & Hpb & Hqb).
    apply groupByDay_Some in Hb as [-> _].
    apply list_elem_of_filter in Hpb as [-> _].
    by apply list_elem_of_filter in Hqb as [-> _].
  - intros Hk. exists (dayKey location p), (day_points location (dayKey location p) points).
    assert (p ∈ day_points location (dayKey location p) points) as Hin
      by (by apply list_elem_of_filter).
    split_and!; [|done|by apply list_elem_of_filter].
    apply groupByDay_Some. split; [done|]. intros E. rewrite E in Hin. by apply not_elem_of_nil in Hin.
Qed.

Lemma group_step_points location g p :
  bucket_points (group_step location g p) ≡ₚ bucket_points g ++ [p].
Proof.
  unfold group_step, bucket_points. set (k := dayKey location p).
  destruct (g !! k) as [b|] eqn:Hk; cbn [default].
  - rewrite <- insert_delete_eq.
    rewrite map_to_list_insert by apply lookup_delete_eq.
    rewrite <- (map_to_list_delete g k b Hk).
    cbn [fmap list_fmap concat snd]. rewrite <- !app_assoc.
    apply Permutation_app; [done|apply Permutation_app_comm].
  - rewrite map_to_list_insert by done.
    cbn [fmap list_fmap concat snd app]. apply Permutation_cons_append.
Qed.

Lemma group_fold_points location points g :
  bucket_points (fold_left (group_step location) points g)
  ≡ₚ bucket_points g ++ points.
Proof.
  revert g. induction points as [|p ps IH]; intros g.
  - by rewrite app_nil_r.
  - cbn [fold_left]. rewrite IH, group_step_points, <- app_assoc. done.
Qed.

Lemma groupByDay_points points location :
  bucket_points (groupByDay points location) ≡ₚ points.
Proof.
  rewrite groupByDay_fold, group_fold_points.
  unfold bucket_points. by rewrite map_to_list_empty.
Qed.

Lemma length_concat_sum {A} (ls : list (list A)) :
  length (concat ls) = sum_list (length <$> ls).
Proof. induction ls as [|l ls IH]; [done|]. cbn. rewrite length_app. lia. Qed.

(** C9. The buckets of [groupByDay] partition the input: taken
    together they hold exactly the input points (as a multiset: nothing
    dropped, nothing duplicated), their sizes add up to the input length,
    every input point lies in the bucket of one day and of no other, and
    every bucket holds input points only. *)
Theorem groupByDay_partition (points : list TrackPoint) (location : GoTime.Location) :
  let g := groupByDay points location in
  concat (map_to_list g).*2 ≡ₚ points
  /\ sum_list (length <$> (map_to_list g).*2) = length points
  /\ (forall p, p ∈ points ->
        exists day, (exists bucket, g !! day = Some bucket /\ p ∈ bucket)
                    /\ forall day' bucket', g !! day' = Some bucket' -> p ∈ bucket' ->
                                            day' = day)
  /\ (forall day bucket p, g !! day = Some bucket -> p ∈ bucket -> p ∈ points).
Proof.
  intros g. pose proof (groupByDay_points points location) as Hperm.
  fold g in Hperm. unfold bucket_points in Hperm.
  split; [done|]. split.
  { rewrite <- length_concat_sum. by rewrite Hperm. }
  split.
  - intros p Hp. exists (dayKey location p). split.
    + exists (day_points location (dayKey location p) points).
      assert (p ∈ day_points location (dayKey location p) points) as Hin
        by (by apply list_elem_of_filter).
      split; [|done]. apply groupByDay_Some. split; [done|].
      intros E. rewrite E in Hin. by apply not_elem_of_nil in Hin.
    + intros day' bucket' Hb Hin. apply groupByDay_Some in Hb as [-> _].
      by apply list_elem_of_filter in Hin as [-> _].
  - intros day bucket p Hb Hin. apply groupByDay_Some in Hb as [-> _].
    by apply list_elem_of_filter in Hin as [_ ?].
Qed.

Lemma dayKey_eq_iff (location : GoTime.Location) (p q : TrackPoint) :
  dayKey location p = dayKey location q <-> localDate location p = localDate location q.
Proof.
  split; [apply GoTimeFacts.Format_date_inj|].
  unfold dayKey, GoTime.Format_date, localDate. by intros ->.
Qed.

(** C4. In a fixed timezone, two points of the input lie in one bucket
    of [groupByDay] exactly when their local calendar dates are equal, and
    every bucket lists the points of its day in input order (it is the
    input filtered by the day's key). *)
Theorem groupByDay_same_day (points : list TrackPoint) (location : GoTime.Location) :
  let g := groupByDay points location in
  (forall p q, p ∈ points -> q ∈ points ->
     (same_bucket g p q <-> localDate location p = localDate location q))
  /\ (forall day bucket, g !! day = Some bucket ->
        bucket = filter (fun p => dayKey location p = day) points
        /\ sublist bucket points).
Proof.
  intros g. split.
  - intros p q Hp Hq. unfold g.
    by rewrite same_bucket_iff_key, dayKey_eq_iff.
  - intros day bucket Hb. apply groupByDay_Some in Hb as [-> _].
    split; [done|]. apply sublist_filter.
Qed.

Example dayKey_utc :
  dayKey GoTime.UTC late_evening = "2024-06-01"
  /\ dayKey GoTime.UTC after_midnight = "2024-06-02".
Proof. split; vm_compute; reflexivity. Qed.

Example dayKey_utc_plus_2 :
  dayKey (GoTime.FixedZone "UTC+2" 7200) late_evening = "2024-06-02"
  /\ dayKey (GoTime.FixedZone "UTC+2" 7200) after_midnight = "2024-06-02".
Proof. split; vm_compute; reflexivity. Qed.

Lemma groupByDay_same_day_witness :
  let points := [late_evening; after_midnight] in
  let zone := GoTime.FixedZone "UTC+2" 7200 in
  late_evening ∈ points /\ after_midnight ∈ points
  /\ (same_bucket (groupByDay points zone) late_evening after_midnight
      <-> localDate zone late_evening = localDate zone after_midnight).
Proof.
  intros points zone.
  assert (late_evening ∈ points) as H1 by (vm_compute; left).
  assert (after_midnight ∈ points) as H2 by (vm_compute; right; left).
  split; [exact H1|]. split; [exact H2|].
  exact (proj1 (groupByDay_same_day points zone) late_evening after_midnight H1 H2).
Defined.
(** ** Facts of binary64 arithmetic used below *)

Module Float64.

(** *** Order and sign *)
Lemma SFcompare_antisym (x y : spec_float) :
  SFcompare y x = CompOpp <$> SFcompare x y.
Proof.
  destruct x as [[]|[]| |[] m1 e1], y as [[]|[]| |[] m2 e2]; try reflexivity;
    cbn [SFcompare fmap option_fmap option_map];
    rewrite (Z.compare_antisym e1 e2);
    destruct (e1 ?= e2) eqn:E; cbn [CompOpp]; try reflexivity;
    rewrite (Pos.compare_cont_antisym m1 m2 Eq); cbn [CompOpp];
    by rewrite ?CompOpp_involutive.
Qed.

Lemma ltb_leb_false (x y : float) : (x <? y)%float = true -> (y <=? x)%float = false.
Proof.
  rewrite FloatAxioms.ltb_spec, FloatAxioms.leb_spec. unfold SFltb, SFleb.
  rewrite (SFcompare_antisym (Prim2SF x) (Prim2SF y)).
  by destruct (SFcompare (Prim2SF x) (Prim2SF y)) as [[]|].
Qed.

Lemma pos_nonneg (d : float) : (0 <? d)%float = true -> nonneg d = true.
Proof.
  rewrite FloatAxioms.ltb_spec. unfold nonneg, SFltb.
  change (Prim2SF 0) with (S754_zero false).
  by destruct (Prim2SF d) as [[]|[]| |[] m e].
Qed.

Lemma leb_nonpos_nonneg (T c : float) :
  (T <=? 0)%float = true -> nonneg c = true -> (T <=? c)%float = true.
Proof.
  rewrite !FloatAxioms.leb_spec. unfold nonneg, SFleb.
  change (Prim2SF 0) with (S754_zero false).
  by destruct (Prim2SF T) as [[]|[]| |[] m e], (Prim2SF c) as [[]|[]| |[] m' e'].
Qed.

Lemma add_zero_r (x : float) : nonneg x = true -> (x + 0)%float = x.
Proof.
  intros Hx. apply Prim2SF_inj. rewrite FloatAxioms.add_spec. unfold nonneg in Hx.
  change (Prim2SF 0) with (S754_zero false).
  by destruct (Prim2SF x) as [[]|[]| |[] m e].
Qed.

(** Shifting right keeps a mantissa that is not negative so. *)
Lemma iter_pos_invariant {A} (P : A -> Prop) (f : A -> A) :
  (forall x, P x -> P (f x)) -> forall p x, P x -> P (SpecFloat.iter_pos f p x).
Proof.
  intros Hf. induction p as [p IH|p IH|]; intros x Hx; cbn [SpecFloat.iter_pos]; auto.
Qed.

Lemma shr_1_nonneg mrs : 0 <= shr_m mrs -> 0 <= shr_m (shr_1 mrs).
Proof. destruct mrs as [[|[p|p|]|[p|p|]] r s]; cbn; lia. Qed.

Lemma shr_nonneg mrs e n : 0 <= shr_m mrs -> 0 <= shr_m (shr mrs e n).1.
Proof.
  intros H. unfold shr. destruct n; cbn [fst]; try done.
  by apply (iter_pos_invariant (fun mrs => 0 <= shr_m mrs)), H; apply shr_1_nonneg.
Qed.

Lemma shr_fexp_nonneg prec emax m e l :
  0 <= m -> 0 <= shr_m (shr_fexp prec emax m e l).1.
Proof.
  intros H. unfold shr_fexp. apply shr_nonneg. by destruct l as [|[]].
Qed.

Lemma round_nearest_even_nonneg m l : 0 <= m -> 0 <= round_nearest_even m l.
Proof. intros H. unfold round_nearest_even. destruct l as [|[]]; try lia. destruct (Z.even m); lia. Qed.

(** Rounding a positive number yields a non-negative one. *)
Lemma binary_round_aux_nonneg prec emax m e l :
  0 <= m -> nonneg_sf (binary_round_aux prec emax false m e l) = true.
Proof.
  intros H. unfold binary_round_aux.
  pose proof (shr_fexp_nonneg prec emax m e l H) as H1.
  destruct (shr_fexp prec emax m e l) as [mrs' e'].
  cbn [fst] in H1.
  pose proof (shr_fexp_nonneg prec emax _ e' loc_Exact
                (round_nearest_even_nonneg _ (loc_of_shr_record mrs') H1)) as H2.
  destruct (shr_fexp prec emax _ e' loc_Exact) as [mrs'' e''].
  cbn [fst] in H2. destruct (shr_m mrs'') as [|p|p]; [done| |lia].
  by destruct (e'' <=? emax - prec).
Qed.

Lemma binary_round_nonneg prec emax m e :
  nonneg_sf (binary_round prec emax false m e) = true.
Proof.
  unfold binary_round. destruct (shl_align _ _ _) as [mz ez].
  by apply binary_round_aux_nonneg.
Qed.

Lemma SFadd_nonneg prec emax (x y : spec_float) :
  nonneg_sf x = true -> nonneg_sf y = true -> nonneg_sf (SFadd prec emax x y) = true.
Proof.
  destruct x as [[]|[]| |[] m1 e1], y as [[]|[]| |[] m2 e2]; try done.
  intros _ _. cbn [SFadd cond_Zopp]. 
  destruct (shl_align m1 e1 _) as [a ?], (shl_align m2 e2 _) as [b ?].
  cbn [fst Z.add binary_normalize]. apply binary_round_nonneg.
Qed.

Lemma add_nonneg (x y : float) :
  nonneg x = true -> nonneg y = true -> nonneg (x + y)%float = true.
Proof. unfold nonneg. rewrite FloatAxioms.add_spec. apply SFadd_nonneg. Qed.

(** *** Integers as binary64 values *)


Lemma digits2_pos_bounds (m : positive) :
  2 ^ (Z.pos (digits2_pos m) - 1) <= Z.pos m < 2 ^ Z.pos (digits2_pos m).
Proof.
  induction m as [m IH|m IH|]; cbn [digits2_pos]; [| |by vm_compute].
  all: rewrite Pos2Z.inj_succ, Z.pow_succ_r by lia.
  all: replace (Z.succ (Z.pos (digits2_pos m)) - 1)
         with (Z.succ (Z.pos (digits2_pos m) - 1)) by lia.
  all: rewrite Z.pow_succ_r by lia; lia.
Qed.

Lemma digits2_pos_shift (m : positive) (k : positive) :
  digits2_pos (Pos.iter xO m k) = (digits2_pos m + k)%positive.
Proof.
  induction k as [|k IH] using Pos.peano_ind.
  - cbn. lia.
  - rewrite Pos.iter_succ. cbn [digits2_pos]. rewrite IH. lia.
Qed.

Lemma pos_iter_xO_value (m : positive) (k : positive) :
  Z.pos (Pos.iter xO m k) = Z.pos m * 2 ^ Z.pos k.
Proof.
  induction k as [|k IH] using Pos.peano_ind.
  - cbn. lia.
  - rewrite Pos.iter_succ, Pos2Z.inj_xO, IH, Pos2Z.inj_succ, Z.pow_succ_r by lia. lia.
Qed.

(** An integer of at most 53 bits is a binary64 value. *)
Lemma binary_normalize_exact (n : positive) :
  Z.pos (digits2_pos n) <= 53 ->
  exists m e, binary_normalize prec emax (Z.pos n) 0 false = S754_finite false m e
              /\ Z.shiftl (Z.pos m) e = Z.pos n.
Proof.
  intros Hd. cbn [binary_normalize]. unfold binary_round.
  set (d := Z.pos (digits2_pos n)) in *.
  assert (fexp prec emax (d + 0) = d - 53) as Hf.
  { unfold fexp, SpecFloat.emin, prec, emax. lia. }
  rewrite Hf. unfold shl_align.
  destruct (d - 53 - 0) as [|k|k] eqn:Hk; [| lia |].
  - (* already 53 bits *)
    assert (d = 53) as Hd53 by lia.
    exists n, 0. split; [|by rewrite Z.shiftl_0_r].
    unfold binary_round_aux, shr_fexp. cbn [Zdigits2]. fold d. rewrite Hf, Hk.
    cbn [shr shr_record_of_loc shr_m loc_of_shr_record round_nearest_even Zdigits2].
    fold d. rewrite Hf, Hk. cbn [shr shr_m]. by vm_compute (0 <=? emax - prec).
  - (* fewer bits: aligned to 53 *)
    exists (Pos.iter xO n k), (d - 53). split.
    + unfold binary_round_aux, shr_fexp. cbn [Zdigits2].
      rewrite digits2_pos_shift, Pos2Z.inj_add. fold d.
      assert (fexp prec emax (d + Z.pos k + (d - 53)) - (d - 53) = 0) as ->.
      { unfold fexp, SpecFloat.emin, prec, emax. lia. }
      cbn [shr shr_record_of_loc shr_m loc_of_shr_record round_nearest_even Zdigits2].
      rewrite digits2_pos_shift, Pos2Z.inj_add. fold d.
      assert (fexp prec emax (d + Z.pos k + (d - 53)) - (d - 53) = 0) as ->.
      { unfold fexp, SpecFloat.emin, prec, emax. lia. }
      cbn [shr shr_m].
      destruct (Z.leb_spec (d - 53) (emax - prec)) as [_|Hbad]; [done|].
      unfold emax, prec in Hbad. lia.
    + rewrite pos_iter_xO_value.
      replace (d - 53) with (- Z.pos k) by lia.
      rewrite Z.shiftl_opp_r, Z.shiftr_div_pow2 by lia.
      apply Z.div_mul. lia.
Qed.

Lemma valid_digits (s : bool) (m : positive) (e : Z) :
  valid_binary (S754_finite s m e) = true -> Z.pos (digits2_pos m) <= 53.
Proof.
  cbn [SpecFloat.valid_binary]. unfold bounded, canonical_mantissa, fexp, SpecFloat.emin, prec, emax.
  rewrite andb_true_iff, Z.eqb_eq. lia.
Qed.

Lemma digits_le_53 (n : positive) : Z.pos n < 2 ^ 53 -> Z.pos (digits2_pos n) <= 53.
Proof.
  intros Hn. pose proof (digits2_pos_bounds n) as [Hlo _].
  destruct (Z.le_gt_cases (Z.pos (digits2_pos n)) 53) as [|Hgt]; [done|].
  assert (2 ^ 53 <= 2 ^ (Z.pos (digits2_pos n) - 1)) by (apply Z.pow_le_mono_r; lia).
  lia.
Qed.

(** *** Signs and symmetry *)


(** Rounding commutes with negation. *)
Lemma binary_round_aux_opp prec emax s m e l :
  binary_round_aux prec emax (negb s) m e l
  = SFopp (binary_round_aux prec emax s m e l).
Proof.
  unfold binary_round_aux.
  destruct (shr_fexp prec emax m e l) as [mrs' e'].
  destruct (shr_fexp prec emax _ e' loc_Exact) as [mrs'' e''].
  destruct (shr_m mrs''); [done| |done]. by destruct (e'' <=? emax - prec).
Qed.

Lemma binary_round_opp prec emax s m e :
  binary_round prec emax (negb s) m e = SFopp (binary_round prec emax s m e).
Proof.
  unfold binary_round. destruct (shl_align _ _ _). apply binary_round_aux_opp.
Qed.






Lemma SFmul_comm prec emax (x y : spec_float) :
  SFmul prec emax x y = SFmul prec emax y x.
Proof.
  destruct x as [sx|sx| |sx mx ex], y as [sy|sy| |sy my ey];
    cbn [SFmul]; try done; try (by destruct sx, sy).
  by rewrite (Pos.mul_comm mx my), (Z.add_comm ex ey), (xorb_comm sx sy).
Qed.

Lemma mul_comm (x y : float) : (x * y = y * x)%float.
Proof. apply Prim2SF_inj. rewrite !FloatAxioms.mul_spec. apply SFmul_comm. Qed.





(** A finite number minus itself is +0. *)
Lemma sub_diag (x : float) : finite x = true -> (x - x)%float = 0%float.
Proof.
  unfold finite. intros Hx. apply Prim2SF_inj. rewrite FloatAxioms.sub_spec.
  change (Prim2SF 0) with (S754_zero false).
  destruct (Prim2SF x) as [[]|[]| |s m e]; try done.
  unfold SF64sub. cbn [SFsub]. cbv zeta. by rewrite Z.sub_diag.
Qed.



Lemma Zdigits2_le (a k : Z) : 0 <= a < 2 ^ k -> 0 <= k -> Zdigits2 a <= k.
Proof.
  intros [Ha Hlt] Hk. destruct a as [|p|p]; [done| |lia]. cbn [Zdigits2].
  pose proof (digits2_pos_bounds p) as [Hlo _].
  destruct (Z.le_gt_cases (Z.pos (digits2_pos p)) k) as [|Hgt]; [done|].
  assert (2 ^ k <= 2 ^ (Z.pos (digits2_pos p) - 1)) by (apply Z.pow_le_mono_r; lia).
  lia.
Qed.

Lemma shr_1_le mrs : 0 <= shr_m mrs -> 0 <= shr_m (shr_1 mrs) <= shr_m mrs.
Proof. destruct mrs as [[|[p|p|]|[p|p|]] r s]; cbn; lia. Qed.

Lemma shr_le mrs e n :
  0 <= shr_m mrs -> 0 <= shr_m (shr mrs e n).1 <= shr_m mrs.
Proof.
  intros H. unfold shr. destruct n; cbn [fst]; try lia.
  apply (iter_pos_invariant (fun x => 0 <= shr_m x <= shr_m mrs)); [|lia].
  intros x Hx. pose proof (shr_1_le x). lia.
Qed.

Lemma shr_fexp_bounds prec emax m e l :
  0 <= m ->
  0 <= shr_m (shr_fexp prec emax m e l).1 <= m
  /\ (shr_fexp prec emax m e l).2 <= Z.max e (fexp prec emax (Zdigits2 m + e)).
Proof.
  intros Hm. unfold shr_fexp. split.
  - pose proof (shr_le (shr_record_of_loc m l) e
                  (fexp prec emax (Zdigits2 m + e) - e)) as H.
    assert (shr_m (shr_record_of_loc m l) = m) as Hrec by (by destruct l as [|[]]).
    rewrite Hrec in H. by apply H.
  - unfold shr. destruct (fexp prec emax (Zdigits2 m + e) - e) eqn:E; cbn [snd]; lia.
Qed.

Lemma round_nearest_even_le m l : 0 <= m -> 0 <= round_nearest_even m l <= m + 1.
Proof.
  intros H. unfold round_nearest_even. destruct l as [|[]]; try lia.
  destruct (Z.even m); lia.
Qed.

(** Rounding a number of at most [dmax] bits whose exponent is small
    does not overflow. *)
Lemma binary_round_aux_finite (mx ex : Z) (dmax : Z) :
  0 <= mx < 2 ^ dmax -> 0 <= dmax <= 900 -> ex + 2 * dmax <= 900 ->
  finite_sf (binary_round_aux prec emax false mx ex loc_Exact) = true.
Proof.
  intros [Hm Hlt] [Hd Hd'] He. unfold binary_round_aux.
  pose proof (shr_fexp_bounds prec emax mx ex loc_Exact Hm) as [[H1 H1'] H2].
  pose proof (Zdigits2_le mx dmax (conj Hm Hlt) Hd) as Hdig.
  destruct (shr_fexp prec emax mx ex loc_Exact) as [mrs' e']. cbn [fst snd] in *.
  pose proof (round_nearest_even_le (shr_m mrs') (loc_of_shr_record mrs') H1) as Hr.
  set (m1 := round_nearest_even _ _) in *.
  pose proof (shr_fexp_bounds prec emax m1 e' loc_Exact (proj1 Hr)) as [[H3 H3'] H4].
  assert (Zdigits2 m1 <= dmax + 1) as Hdig1.
  { apply Zdigits2_le; [|lia]. rewrite Z.pow_add_r by lia. lia. }
  destruct (shr_fexp prec emax m1 e' loc_Exact) as [mrs'' e'']. cbn [fst snd] in *.
  destruct (shr_m mrs'') as [|p|p]; [done| |lia].
  destruct (Z.leb_spec e'' (emax - prec)) as [|Hbad]; [done|]. exfalso.
  unfold fexp, SpecFloat.emin, prec, emax in *. lia.
Qed.

(** The square of a number of magnitude at most 1 is finite and not
    negative. *)
Lemma square_unit (c : float) :
  (abs c <=? 1)%float = true -> finite (c * c) = true /\ nonneg (c * c) = true.
Proof.
  rewrite FloatAxioms.leb_spec, FloatAxioms.abs_spec. unfold finite, nonneg.
  rewrite FloatAxioms.mul_spec.
  pose proof (Prim2SF_valid c) as Hv.
  change (Prim2SF 1) with (S754_finite false 4503599627370496 (-52)).
  destruct (Prim2SF c) as [[]|[]| |s m e]; try done.
  intros Hle. unfold SF64mul. cbn [SFmul].
  assert (e <= -52) as He.
  { unfold SFleb in Hle. cbn [SFabs SFcompare] in Hle.
    destruct (Z.compare_spec e (-52)); [lia|lia|done]. }
  pose proof (valid_digits s m e Hv) as Hd.
  pose proof (digits2_pos_bounds m) as [_ Hhi].
  assert (Z.pos m < 2 ^ 53).
  { eapply Z.lt_le_trans; [exact Hhi|]. apply Z.pow_le_mono_r; lia. }
  replace (xorb s s) with false by (by destruct s).
  split.
  - apply (binary_round_aux_finite _ _ 106); [|lia|lia].
    rewrite Pos2Z.inj_mul. change (2 ^ 106) with (2 ^ 53 * 2 ^ 53). nia.
  - apply binary_round_aux_nonneg. lia.
Qed.

Lemma mul_zero_r (x : float) :
  finite x = true -> nonneg x = true -> (x * 0)%float = 0%float.
Proof.
  unfold finite, nonneg. intros Hf Hn. apply Prim2SF_inj.
  rewrite FloatAxioms.mul_spec. change (Prim2SF 0) with (S754_zero false).
  by destruct (Prim2SF x) as [[]|[]| |[] m e].
Qed.

(** *** Rounding, read on integers *)

Lemma shifted_init (M : Z) : 0 <= M -> shifted M 0 (Build_shr_record M false false).
Proof.
  intros HM. exists 0. cbn [shr_m shr_r shr_s]. change (2 ^ 0) with 1.
  repeat split; try lia; try done. 
Qed.

Lemma shifted_step (M j : Z) (mrs : shr_record) :
  0 <= j -> shifted M j mrs -> shifted M (j + 1) (shr_1 mrs).
Proof.
  intros Hj (R & HM & HR & Hm & Hr & Hs). unfold shifted.
  rewrite Z.pow_add_r by lia. change (2 ^ 1) with 2.
  assert (0 < 2 ^ j) as HP by (apply Z.pow_pos_nonneg; lia).
  set (P := 2 ^ j) in *. destruct mrs as [m r s]. cbn [shr_m shr_r shr_s] in *.
  assert (r = true \/ s = true <-> R <> 0) as Hrs.
  { rewrite Hr, Hs. lia. }
  assert (r || s = true <-> R <> 0) as Hors.
  { rewrite orb_true_iff. exact Hrs. }
  destruct m as [|[p|p|]|p]; [| | | |lia]; cbn [shr_1 shr_m shr_r shr_s].
  - exists R. rewrite Hors. repeat split; try lia; try done.
  - exists (R + P). rewrite Hors. repeat split; try lia; try done.
  - exists R. rewrite Hors. repeat split; try lia; try done.
  - exists (R + P). rewrite Hors. repeat split; try lia; try done.
Qed.

Lemma iter_pos_count {A} (P : Z -> A -> Prop) (f : A -> A) :
  (forall j x, 0 <= j -> P j x -> P (j + 1) (f x)) ->
  forall p j x, 0 <= j -> P j x -> P (j + Z.pos p) (SpecFloat.iter_pos f p x).
Proof.
  intros Hf. induction p as [p IH|p IH|]; intros j x Hj Hx; cbn [SpecFloat.iter_pos].
  - replace (j + Z.pos p~1) with (j + 1 + Z.pos p + Z.pos p) by lia.
    apply IH; [lia|]. apply IH; [lia|]. by apply Hf.
  - replace (j + Z.pos p~0) with (j + Z.pos p + Z.pos p) by lia.
    apply IH; [lia|]. by apply IH.
  - by apply Hf.
Qed.

Lemma shifted_iter (M : Z) (p : positive) :
  0 <= M ->
  shifted M (Z.pos p) (SpecFloat.iter_pos shr_1 p (Build_shr_record M false false)).
Proof.
  intros HM.
  apply (iter_pos_count (shifted M) shr_1 (shifted_step M) p 0); [lia|].
  by apply shifted_init.
Qed.

Lemma shifted_round (M j : Z) (mrs : shr_record) :
  shifted M j mrs ->
  exists R, M = shr_m mrs * 2 ^ j + R /\ 0 <= R < 2 ^ j /\ 0 <= shr_m mrs
    /\ round_nearest_even (shr_m mrs) (loc_of_shr_record mrs)
       = round_up (shr_m mrs) R (2 ^ j).
Proof.
  intros (R & HM & HR & Hm & Hr & Hs). exists R. repeat split; try done; try lia.
  destruct mrs as [m r s]. cbn [shr_m shr_r shr_s] in *. unfold round_up.
  rewrite <- Z.negb_even.
  destruct r, s; cbn [loc_of_shr_record round_nearest_even].
  - assert (2 ^ j < 2 * R) as H by (destruct Hr as [Hr _], Hs as [Hs _]; 
      specialize (Hr eq_refl); specialize (Hs eq_refl); lia).
    apply Z.ltb_lt in H. by rewrite H.
  - assert (2 * R = 2 ^ j) as H.
    { destruct Hr as [Hr _]. specialize (Hr eq_refl).
      destruct (Z.eq_dec (2 * R) (2 ^ j)) as [|Hne]; [done|].
      destruct Hs as [_ Hs]. assert (false = true); [|done]. apply Hs. lia. }
    rewrite H, Z.ltb_irrefl, Z.eqb_refl. cbn [orb andb]. by destruct (Z.even m).
  - assert (2 * R < 2 ^ j) as H.
    { destruct (Z.lt_ge_cases (2 * R) (2 ^ j)) as [|Hge]; [done|].
      destruct Hr as [_ Hr]. assert (false = true); [|done]. by apply Hr. }
    destruct (Z.ltb_spec (2 ^ j) (2 * R)); [lia|].
    destruct (Z.eqb_spec (2 * R) (2 ^ j)); [lia|]. done.
  - assert (R = 0) as ->.
    { destruct (Z.eq_dec R 0) as [|Hne]; [done|].
      destruct (Z.eq_dec (2 * R) (2 ^ j)) as [He|Hne2].
      - destruct Hr as [_ Hr]. assert (false = true); [|done]. apply Hr. lia.
      - destruct Hs as [_ Hs]. assert (false = true); [|done]. by apply Hs. }
    assert (0 < 2 ^ j) by lia.
    destruct (Z.ltb_spec (2 ^ j) (2 * 0)); [lia|].
    destruct (Z.eqb_spec (2 * 0) (2 ^ j)); [lia|]. done.
Qed.

Lemma fexp64 (z : Z) : fexp prec emax z = Z.max (z - 53) (-1074).
Proof. reflexivity. Qed.

Lemma pow2_pos (k : Z) : 0 <= k -> 0 < 2 ^ k.
Proof. intros. apply Z.pow_pos_nonneg; lia. Qed.

Lemma Zdigits2_bounds (M : Z) :
  0 < M -> 2 ^ (Zdigits2 M - 1) <= M < 2 ^ Zdigits2 M /\ 0 < Zdigits2 M.
Proof.
  destruct M as [|p|p]; try lia. intros _. cbn [Zdigits2].
  split; [apply digits2_pos_bounds|lia].
Qed.

Lemma Zdigits2_unique (M d : Z) :
  2 ^ (d - 1) <= M < 2 ^ d -> 0 < d -> Zdigits2 M = d.
Proof.
  intros [Hlo Hhi] Hd.
  assert (0 < M) as HM by (pose proof (pow2_pos (d - 1)); lia).
  destruct (Zdigits2_bounds M HM) as [[Hlo' Hhi'] Hd'].
  destruct (Z.lt_trichotomy (Zdigits2 M) d) as [Hlt|[Heq|Hgt]]; [|done|].
  - assert (2 ^ Zdigits2 M <= 2 ^ (d - 1)) by (apply Z.pow_le_mono_r; lia). lia.
  - assert (2 ^ d <= 2 ^ (Zdigits2 M - 1)) by (apply Z.pow_le_mono_r; lia). lia.
Qed.

Lemma Zdigits2_shift (M j : Z) :
  0 < M -> 0 <= j -> Zdigits2 (M * 2 ^ j) = Zdigits2 M + j.
Proof.
  intros HM Hj. destruct (Zdigits2_bounds M HM) as [[Hlo Hhi] Hd].
  pose proof (pow2_pos j Hj) as HP.
  apply Zdigits2_unique; [|lia].
  replace (Zdigits2 M + j - 1) with (Zdigits2 M - 1 + j) by lia.
  rewrite !Z.pow_add_r by lia. nia.
Qed.

Lemma Zdigits2_mono (a b : Z) : 0 < a <= b -> Zdigits2 a <= Zdigits2 b.
Proof.
  intros [Ha Hab].
  destruct (Zdigits2_bounds a Ha) as [[Hlo Hhi] Hd].
  destruct (Zdigits2_bounds b) as [[Hlo' Hhi'] Hd']; [lia|].
  destruct (Z.le_gt_cases (Zdigits2 a) (Zdigits2 b)) as [|Hgt]; [done|].
  assert (2 ^ Zdigits2 b <= 2 ^ (Zdigits2 a - 1)) by (apply Z.pow_le_mono_r; lia). lia.
Qed.

Lemma round_up_exact (q P : Z) : 0 < P -> round_up q 0 P = q.
Proof.
  intros HP. unfold round_up.
  destruct (Z.ltb_spec P (2 * 0)); [lia|]. destruct (Z.eqb_spec (2 * 0) P); [lia|]. done.
Qed.

Lemma round_up_scale (q R P s : Z) : 0 < s -> round_up q (R * s) (P * s) = round_up q R P.
Proof.
  intros Hs. unfold round_up.
  destruct (Z.ltb_spec (P * s) (2 * (R * s))), (Z.ltb_spec P (2 * R)); try nia;
  destruct (Z.eqb_spec (2 * (R * s)) (P * s)), (Z.eqb_spec (2 * R) P); try nia; done.
Qed.

Lemma round_up_bounds (q R P : Z) : q <= round_up q R P <= q + 1.
Proof. unfold round_up. destruct (_ || _); lia. Qed.

(** A number given as quotient and remainder by its rounding unit. *)
Lemma round_value_split (V q R k : Z) :
  0 <= k -> round_shift V = k -> V = q * 2 ^ k + R -> 0 <= R < 2 ^ k ->
  round_value V = round_up q R (2 ^ k) * 2 ^ k.
Proof.
  intros Hk Hs HV HR. unfold round_value. rewrite Hs. cbv zeta.
  pose proof (pow2_pos k Hk).
  assert (V `div` 2 ^ k = q) as ->.
  { symmetry. apply (Z.div_unique_pos V (2 ^ k) q R); lia. }
  assert (V `mod` 2 ^ k = R) as ->.
  { symmetry. apply (Z.mod_unique_pos V (2 ^ k) q R); lia. }
  done.
Qed.

Lemma pow2_split (a b : Z) : 0 <= a -> 0 <= b -> 2 ^ (a + b) = 2 ^ a * 2 ^ b.
Proof. intros. by apply Z.pow_add_r. Qed.

(** Whether a 53-bit mantissa at a given exponent is below 2^2098. *)
Lemma finite_below (m k : Z) :
  0 < m < 2 ^ 53 -> 0 <= k <= 2045 -> m * 2 ^ k < 2 ^ 2098.
Proof.
  intros Hm Hk.
  assert (2 ^ k <= 2 ^ 2045) by (apply Z.pow_le_mono_r; lia).
  pose proof (pow2_pos k (proj1 Hk)).
  change (2 ^ 2098) with (2 ^ 53 * 2 ^ 2045). nia.
Qed.

Lemma normal_above (m k : Z) :
  2 ^ 52 <= m -> 2046 <= k -> 2 ^ 2098 <= m * 2 ^ k.
Proof.
  intros Hm Hk.
  assert (2 ^ 2046 <= 2 ^ k) by (apply Z.pow_le_mono_r; lia).
  change (2 ^ 2098) with (2 ^ 52 * 2 ^ 2046). nia.
Qed.

(** Rounding leaves a canonical pair as it is. *)
Lemma binary_round_aux_canonical (m : positive) (e : Z) :
  fexp prec emax (Z.pos (digits2_pos m) + e) = e ->
  binary_round_aux prec emax false (Z.pos m) e loc_Exact
  = if e <=? 971 then S754_finite false m e else S754_infinity false.
Proof.
  intros Hc. unfold binary_round_aux, shr_fexp. cbn [Zdigits2].
  rewrite Hc, Z.sub_diag.
  cbn [shr shr_record_of_loc shr_m loc_of_shr_record round_nearest_even Zdigits2].
  rewrite Hc, Z.sub_diag. cbn [shr shr_m]. reflexivity.
Qed.

Lemma rank_canonical (m : positive) (e : Z) :
  -1074 <= e -> fexp prec emax (Z.pos (digits2_pos m) + e) = e ->
  rank (if e <=? 971 then S754_finite false m e else S754_infinity false)
  = round_sat (Z.pos m * 2 ^ (e + 1074)).
Proof.
  intros He Hc. rewrite fexp64 in Hc.
  pose proof (digits2_pos_bounds m) as [Hlo Hhi].
  set (d := Z.pos (digits2_pos m)) in *.
  assert (0 < d) by (unfold d; lia).
  pose proof (pow2_pos (e + 1074)) as HP.
  assert (Z.pos m < 2 ^ 53).
  { eapply Z.lt_le_trans; [exact Hhi|]. apply Z.pow_le_mono_r; lia. }
  assert (round_value (Z.pos m * 2 ^ (e + 1074)) = Z.pos m * 2 ^ (e + 1074)) as Hv.
  { rewrite (round_value_split _ (Z.pos m) 0 (e + 1074)); try lia.
    - rewrite round_up_exact; lia.
    - unfold round_shift. rewrite Zdigits2_shift by lia. cbn [Zdigits2]. fold d. lia. }
  unfold round_sat. rewrite Hv.
  destruct (Z.leb_spec e 971) as [Hle|Hgt]; cbn [rank].
  - pose proof (finite_below (Z.pos m) (e + 1074)). lia.
  - assert (2 ^ 52 <= Z.pos m).
    { etrans; [|exact Hlo]. apply Z.pow_le_mono_r; lia. }
    pose proof (normal_above (Z.pos m) (e + 1074)). lia.
Qed.

(** The heart of the matter: rounding a positive number [M * 2^e]. *)
Lemma binary_round_rank (M : positive) (e : Z) :
  -1074 <= e ->
  rank (binary_round prec emax false M e) = round_sat (Z.pos M * 2 ^ (e + 1074)).
Proof.
  intros He. unfold binary_round.
  pose proof (digits2_pos_bounds M) as [Hlo Hhi].
  set (dM := Z.pos (digits2_pos M)) in *.
  assert (0 < dM) as HdM by (unfold dM; lia).
  rewrite fexp64. remember (Z.max (dM + e - 53) (-1074)) as E eqn:HEdef.
  pose proof (pow2_pos (e + 1074)) as HPe.
  unfold shl_align. destruct (E - e) as [|p|p] eqn:Hd.
  - (* the exponent fits *)
    assert (fexp prec emax (Z.pos (digits2_pos M) + e) = e) as Hc.
    { rewrite fexp64. fold dM. lia. }
    rewrite binary_round_aux_canonical by done.
    by apply rank_canonical.
  - (* bits to drop *)
    assert (E = dM + e - 53 /\ Z.pos p = dM - 53) as [HE Hp] by lia.
    unfold binary_round_aux, shr_fexp. cbn [Zdigits2]. fold dM.
    rewrite fexp64, <- HEdef, Hd.
    cbn [shr shr_record_of_loc].
    destruct (shifted_round (Z.pos M) (Z.pos p) _ (shifted_iter (Z.pos M) p ltac:(lia)))
      as (R & HM & HR & Hq & Hround).
    set (mrs := SpecFloat.iter_pos shr_1 p _) in *.
    rewrite Hround. set (q := shr_m mrs) in *.
    pose proof (pow2_pos (Z.pos p)) as HPp.
    assert (2 ^ dM = 2 ^ 53 * 2 ^ Z.pos p) as HdM2.
    { rewrite <- (pow2_split 53 (Z.pos p)) by lia. f_equal. lia. }
    assert (2 ^ (dM - 1) = 2 ^ 52 * 2 ^ Z.pos p) as HdM1.
    { rewrite <- (pow2_split 52 (Z.pos p)) by lia. f_equal. lia. }
    assert (2 ^ 52 <= q < 2 ^ 53) as Hqr by nia.
    pose proof (round_up_bounds q R (2 ^ Z.pos p)) as Hm1.
    set (m1 := round_up q R (2 ^ Z.pos p)) in *.
    (* the value side *)
    assert (round_value (Z.pos M * 2 ^ (e + 1074)) = m1 * 2 ^ (E + 1074)) as Hv.
    { rewrite (round_value_split _ q (R * 2 ^ (e + 1074)) (E + 1074)); try lia.
      - replace (E + 1074) with (Z.pos p + (e + 1074)) by lia.
        rewrite (pow2_split (Z.pos p) (e + 1074)) by lia.
        rewrite round_up_scale by lia. done.
      - unfold round_shift. rewrite Zdigits2_shift by lia. cbn [Zdigits2]. fold dM. lia.
      - replace (E + 1074) with (Z.pos p + (e + 1074)) by lia.
        rewrite (pow2_split (Z.pos p) (e + 1074)) by lia. nia.
      - replace (E + 1074) with (Z.pos p + (e + 1074)) by lia.
        rewrite (pow2_split (Z.pos p) (e + 1074)) by lia. nia. }
    unfold round_sat. rewrite Hv.
    pose proof (pow2_pos (E + 1074)) as HPE.
    destruct (Z.eq_dec m1 (2 ^ 53)) as [Hov|Hnov].
    + (* the mantissa overflows into the next binade *)
      rewrite Hov. change (Zdigits2 (2 ^ 53)) with 54.
      rewrite fexp64.
      replace (Z.max (54 + (e + Z.pos p) - 53) (-1074) - (e + Z.pos p)) with 1 by lia.
      cbn [shr SpecFloat.iter_pos]. change (2 ^ 53) with 9007199254740992.
      cbn [shr_1 shr_m].
      destruct (Z.leb_spec (e + Z.pos p + 1) (emax - prec)) as [Hle|Hgt];
        unfold emax, prec in *; cbn [rank].
      * replace (e + Z.pos p + 1 + 1074) with (1 + (E + 1074)) by lia.
        pose proof (finite_below (2 ^ 52) (1 + (E + 1074))) as Hfb.
        rewrite (pow2_split 1 (E + 1074)) in * by lia.
        change (2 ^ 1) with 2 in *. change (Z.pos 4503599627370496) with (2 ^ 52).
        lia.
      * assert (2 ^ 2045 <= 2 ^ (E + 1074)) by (apply Z.pow_le_mono_r; lia).
        change (2 ^ 2098) with (9007199254740992 * 2 ^ 2045). nia.
    + assert (Zdigits2 m1 = 53) as Hd1 by (apply Zdigits2_unique; lia).
      rewrite Hd1, fexp64.
      replace (Z.max (53 + (e + Z.pos p) - 53) (-1074) - (e + Z.pos p)) with 0 by lia.
      cbn [shr shr_record_of_loc shr_m].
      destruct m1 as [|m1p|m1p] eqn:Em1; [lia| |lia].
      destruct (Z.leb_spec (e + Z.pos p) (emax - prec)) as [Hle|Hgt];
        unfold emax, prec in *; cbn [rank].
      * replace (e + Z.pos p + 1074) with (E + 1074) by lia.
        pose proof (finite_below (Z.pos m1p) (E + 1074)). lia.
      * pose proof (normal_above (Z.pos m1p) (E + 1074)). lia.
  - (* room to spare: the mantissa is shifted left *)
    assert (Z.pos (Pos.iter xO M p) = Z.pos M * 2 ^ Z.pos p) as Hsh
      by apply pos_iter_xO_value.
    assert (fexp prec emax (Z.pos (digits2_pos (Pos.iter xO M p)) + E) = E) as Hc.
    { rewrite digits2_pos_shift, Pos2Z.inj_add, fexp64. fold dM. lia. }
    rewrite binary_round_aux_canonical by done.
    rewrite rank_canonical by (done || lia).
    rewrite Hsh. f_equal.
    rewrite <- Z.mul_assoc, <- (pow2_split (Z.pos p) (E + 1074)) by lia.
    f_equal. f_equal. lia.
Qed.

(** *** Order of binary64 values as order of their ranks *)

Lemma valid_canonical (s : bool) (m : positive) (e : Z) :
  valid_binary (S754_finite s m e) = true ->
  Z.max (Z.pos (digits2_pos m) + e - 53) (-1074) = e /\ e <= 971.
Proof.
  cbn [SpecFloat.valid_binary]. unfold bounded, canonical_mantissa.
  rewrite andb_true_iff, Z.eqb_eq, Z.leb_le, fexp64. unfold emax, prec. lia.
Qed.

(** Magnitude of a valid finite number. *)
Lemma valid_magnitude (s : bool) (m : positive) (e : Z) :
  valid_binary (S754_finite s m e) = true ->
  0 < Z.pos m * 2 ^ (e + 1074) < 2 ^ 2098.
Proof.
  intros Hv. apply valid_canonical in Hv as [Hc He].
  pose proof (digits2_pos_bounds m) as [_ Hhi].
  assert (Z.pos m < 2 ^ 53).
  { eapply Z.lt_le_trans; [exact Hhi|]. apply Z.pow_le_mono_r; lia. }
  pose proof (pow2_pos (e + 1074)).
  split; [nia|]. apply finite_below; lia.
Qed.

(** Canonical pairs are ordered by exponent, then by mantissa. *)
Lemma canonical_lt_exponent (m1 m2 : positive) (e1 e2 : Z) :
  Z.max (Z.pos (digits2_pos m1) + e1 - 53) (-1074) = e1 ->
  Z.max (Z.pos (digits2_pos m2) + e2 - 53) (-1074) = e2 ->
  e1 < e2 -> Z.pos m1 * 2 ^ (e1 + 1074) < Z.pos m2 * 2 ^ (e2 + 1074).
Proof.
  intros H1 H2 Hlt.
  pose proof (digits2_pos_bounds m1) as [_ Hhi1].
  pose proof (digits2_pos_bounds m2) as [Hlo2 _].
  assert (Z.pos m1 < 2 ^ 53).
  { eapply Z.lt_le_trans; [exact Hhi1|]. apply Z.pow_le_mono_r; lia. }
  assert (2 ^ 52 <= Z.pos m2).
  { etrans; [|exact Hlo2]. apply Z.pow_le_mono_r; lia. }
  pose proof (pow2_pos (e1 + 1074)).
  assert (2 * 2 ^ (e1 + 1074) <= 2 ^ (e2 + 1074)).
  { rewrite <- Z.pow_succ_r by lia. apply Z.pow_le_mono_r; lia. }
  change (2 ^ 53) with (2 * 2 ^ 52) in *. nia.
Qed.

Lemma SFcompare_rank_pos (m1 m2 : positive) (e1 e2 : Z) :
  valid_binary (S754_finite false m1 e1) = true ->
  valid_binary (S754_finite false m2 e2) = true ->
  SFcompare (S754_finite false m1 e1) (S754_finite false m2 e2)
  = Some (Z.pos m1 * 2 ^ (e1 + 1074) ?= Z.pos m2 * 2 ^ (e2 + 1074)).
Proof.
  intros [H1 _]%valid_canonical [H2 _]%valid_canonical. cbn [SFcompare]. f_equal.
  destruct (Z.compare_spec e1 e2) as [->|Hlt|Hgt].
  - pose proof (pow2_pos (e2 + 1074)).
    change (Pos.compare_cont Eq m1 m2) with (Z.pos m1 ?= Z.pos m2).
    symmetry. destruct (Z.compare_spec (Z.pos m1) (Z.pos m2)) as [->|?|?].
    + apply Z.compare_refl.
    + apply Z.compare_lt_iff. nia.
    + apply Z.compare_gt_iff. nia.
  - symmetry. apply Z.compare_lt_iff. by apply canonical_lt_exponent.
  - symmetry. apply Z.compare_gt_iff. by apply canonical_lt_exponent.
Qed.

Lemma SFcompare_rank (x y : spec_float) :
  valid_binary x = true -> valid_binary y = true ->
  is_nan_sf x = false -> is_nan_sf y = false ->
  SFcompare x y = Some (rank x ?= rank y).
Proof.
  intros Hx Hy Hnx Hny.
  destruct x as [sx|sx| |sx mx ex]; [| |done|];
  destruct y as [sy|sy| |sy my ey]; try done.
  all: try pose proof (valid_magnitude _ _ _ Hx) as Hmx.
  all: try pose proof (valid_magnitude _ _ _ Hy) as Hmy.
  all: cbn [rank]; cbv zeta.
  all: try (destruct sx, sy; cbn [SFcompare]; f_equal; symmetry;
            first [ apply Z.compare_refl
                  | apply Z.compare_lt_iff; lia
                  | apply Z.compare_gt_iff; lia ]).
  all: try (destruct sx; cbn [SFcompare]; f_equal; symmetry;
            first [ apply Z.compare_refl
                  | apply Z.compare_lt_iff; lia
                  | apply Z.compare_gt_iff; lia ]).
  all: try (destruct sy; cbn [SFcompare]; f_equal; symmetry;
            first [ apply Z.compare_refl
                  | apply Z.compare_lt_iff; lia
                  | apply Z.compare_gt_iff; lia ]).
  (* two finite numbers *)
  destruct sx, sy.
  - (* both negative: through the positive pair *)
    pose proof (SFcompare_rank_pos mx my ex ey Hx Hy) as H.
    cbn [SFcompare] in *. injection H as H.
    rewrite Z.compare_opp. rewrite (Z.compare_antisym (Z.pos mx * _)), <- H. f_equal.
    destruct (ex ?= ey); cbn [CompOpp]; try done.
  - cbn [SFcompare]. f_equal. symmetry. apply Z.compare_lt_iff. lia.
  - cbn [SFcompare]. f_equal. symmetry. apply Z.compare_gt_iff. lia.
  - by apply SFcompare_rank_pos.
Qed.

Lemma SFleb_rank (x y : spec_float) :
  valid_binary x = true -> valid_binary y = true ->
  is_nan_sf x = false -> is_nan_sf y = false ->
  SFleb x y = (rank x <=? rank y).
Proof.
  intros Hx Hy Hnx Hny. unfold SFleb. rewrite SFcompare_rank by done.
  unfold Z.leb. by destruct (rank x ?= rank y).
Qed.

Lemma SFleb_not_nan (x y : spec_float) :
  SFleb x y = true -> is_nan_sf x = false /\ is_nan_sf y = false.
Proof. by destruct x as [[]|[]| |[] ? ?], y as [[]|[]| |[] ? ?]. Qed.

Lemma nonneg_not_nan (x : spec_float) : nonneg_sf x = true -> is_nan_sf x = false.
Proof. by destruct x as [[]|[]| |[] ? ?]. Qed.

(** [<=] on [float64], read on ranks. *)
Lemma leb_rank (x y : float) :
  (x <=? y)%float = true
  <-> is_nan_sf (Prim2SF x) = false /\ is_nan_sf (Prim2SF y) = false
      /\ rank (Prim2SF x) <= rank (Prim2SF y).
Proof.
  rewrite FloatAxioms.leb_spec. split.
  - intros H. destruct (SFleb_not_nan _ _ H) as [Hx Hy].
    rewrite SFleb_rank in H by (done || apply Prim2SF_valid).
    by apply Z.leb_le in H.
  - intros (Hx & Hy & H).
    rewrite SFleb_rank by (done || apply Prim2SF_valid). by apply Z.leb_le.
Qed.

Lemma leb_trans (x y z : float) :
  (x <=? y)%float = true -> (y <=? z)%float = true -> (x <=? z)%float = true.
Proof. rewrite !leb_rank. intros (? & ? & ?) (? & ? & ?). split_and!; [done..|lia]. Qed.

Lemma leb_refl (x : float) : nonneg x = true -> (x <=? x)%float = true.
Proof.
  intros Hx. apply leb_rank. pose proof (nonneg_not_nan _ Hx). split_and!; [done..|lia].
Qed.

Lemma nonneg_rank (x : spec_float) :
  valid_binary x = true -> nonneg_sf x = true -> 0 <= rank x <= 2 ^ 2098.
Proof.
  intros Hv Hn. destruct x as [[]|[]| |[] m e]; try done; cbn [rank]; try lia.
  pose proof (valid_magnitude _ _ _ Hv). cbv zeta. lia.
Qed.

Lemma leb_zero_nonneg (x : float) : nonneg x = true -> (0 <=? x)%float = true.
Proof.
  intros Hx. apply leb_rank. split; [done|]. split; [by apply nonneg_not_nan|].
  change (rank (Prim2SF 0)) with 0. by apply nonneg_rank; [apply Prim2SF_valid|].
Qed.

(** *** Rounding is monotone *)

Lemma round_up_mono (q R1 R2 P : Z) :
  R1 <= R2 -> round_up q R1 P <= round_up q R2 P.
Proof.
  intros H. unfold round_up.
  destruct (Z.ltb_spec P (2 * R1)), (Z.ltb_spec P (2 * R2)),
    (Z.eqb_spec (2 * R1) P), (Z.eqb_spec (2 * R2) P), (Z.odd q);
    cbn [orb andb]; lia.
Qed.

(** Quotient, remainder and size of a positive number at its rounding
    unit. *)
Lemma round_shift_split (V : Z) :
  0 < V ->
  let k := round_shift V in
  exists q R, V = q * 2 ^ k + R /\ 0 <= R < 2 ^ k /\ 0 <= k
    /\ 0 < q < 2 ^ 53 /\ (0 < k -> 2 ^ 52 <= q)
    /\ round_value V = round_up q R (2 ^ k) * 2 ^ k.
Proof.
  intros HV k.
  assert (0 <= k) as Hk by (unfold k, round_shift; lia).
  assert (round_value V = round_up (V `div` 2 ^ k) (V `mod` 2 ^ k) (2 ^ k) * 2 ^ k)
    as Hrv by reflexivity.
  assert (Zdigits2 V <= 53 + k /\ (0 < k -> Zdigits2 V = 53 + k)) as [Hdk Hdk'].
  { unfold k, round_shift. lia. }
  clearbody k.
  pose proof (pow2_pos k Hk) as HP.
  exists (V `div` 2 ^ k), (V `mod` 2 ^ k).
  pose proof (Z.div_mod V (2 ^ k) ltac:(lia)) as Hdm.
  pose proof (Z.mod_pos_bound V (2 ^ k) HP) as Hmod.
  destruct (Zdigits2_bounds V HV) as [[Hlo Hhi] Hd].
  assert (V < 2 ^ 53 * 2 ^ k) as Hup.
  { rewrite <- (pow2_split 53 k) by lia. eapply Z.lt_le_trans; [exact Hhi|].
    apply Z.pow_le_mono_r; lia. }
  assert (0 < k -> 2 ^ 52 * 2 ^ k <= V) as Hdown.
  { intros Hk0. rewrite <- (pow2_split 52 k) by lia. etrans; [|exact Hlo].
    apply Z.pow_le_mono_r; [lia|]. specialize (Hdk' Hk0). lia. }
  set (q := V `div` 2 ^ k) in *. set (R := V `mod` 2 ^ k) in *.
  set (P := 2 ^ k) in *.
  assert (0 < k -> 2 ^ 52 <= q) as Hq52.
  { intros Hk0. specialize (Hdown Hk0). nia. }
  assert (0 < q) as Hq0.
  { destruct (Z.eq_dec k 0) as [Hz|Hnz].
    - assert (P = 1) as HP1 by (unfold P; by rewrite Hz). nia.
    - specialize (Hq52 ltac:(lia)). lia. }
  assert (q < 2 ^ 53) as Hq53 by nia.
  split; [lia|]. split; [lia|]. split; [lia|]. split; [lia|]. split; [exact Hq52|].
  exact Hrv.
Qed.

Lemma round_value_mono (V1 V2 : Z) :
  0 < V1 <= V2 -> round_value V1 <= round_value V2.
Proof.
  intros [H1 H12].
  destruct (round_shift_split V1 H1) as (q1 & R1 & HV1 & HR1 & Hk1 & Hq1 & Hn1 & ->).
  destruct (round_shift_split V2 ltac:(lia)) as (q2 & R2 & HV2 & HR2 & Hk2 & Hq2 & Hn2 & ->).
  assert (round_shift V1 <= round_shift V2) as Hk.
  { unfold round_shift. pose proof (Zdigits2_mono V1 V2 ltac:(lia)). lia. }
  set (k1 := round_shift V1) in *. set (k2 := round_shift V2) in *.
  pose proof (pow2_pos k1 Hk1) as HP1. pose proof (pow2_pos k2 Hk2) as HP2.
  pose proof (round_up_bounds q1 R1 (2 ^ k1)) as Hm1.
  pose proof (round_up_bounds q2 R2 (2 ^ k2)) as Hm2.
  destruct (Z.eq_dec k1 k2) as [Heq|Hne].
  - rewrite Heq in *. apply Z.mul_le_mono_nonneg_r; [lia|].
    destruct (Z.eq_dec q1 q2) as [->|Hq].
    + apply round_up_mono. lia.
    + assert (q1 < q2) by nia. lia.
  - assert (2 * 2 ^ k1 <= 2 ^ k2).
    { rewrite <- Z.pow_succ_r by lia. apply Z.pow_le_mono_r; lia. }
    specialize (Hn2 ltac:(lia)).
    change (2 ^ 53) with (2 * 2 ^ 52) in *. nia.
Qed.

Lemma round_value_zero : round_value 0 = 0.
Proof. reflexivity. Qed.

Lemma round_value_nonneg (V : Z) : 0 < V -> 0 < round_value V.
Proof.
  intros HV.
  destruct (round_shift_split V HV) as (q & R & _ & _ & Hk & Hq & _ & ->).
  pose proof (round_up_bounds q R (2 ^ round_shift V)).
  pose proof (pow2_pos _ Hk). nia.
Qed.

Lemma round_sat_mono (V1 V2 : Z) : 0 <= V1 <= V2 -> round_sat V1 <= round_sat V2.
Proof.
  intros [H1 H12]. unfold round_sat.
  destruct (Z.eq_dec V1 0) as [->|Hnz].
  - rewrite round_value_zero.
    destruct (Z.eq_dec V2 0) as [->|Hnz2]; [done|].
    pose proof (round_value_nonneg V2 ltac:(lia)). lia.
  - pose proof (round_value_mono V1 V2 ltac:(lia)). lia.
Qed.

(** A binary64 value rounds to itself. *)
Lemma round_sat_valid (m : positive) (e : Z) :
  valid_binary (S754_finite false m e) = true ->
  round_sat (Z.pos m * 2 ^ (e + 1074)) = Z.pos m * 2 ^ (e + 1074).
Proof.
  intros Hv. destruct (valid_canonical _ _ _ Hv) as [Hc He].
  rewrite <- rank_canonical by (rewrite ?fexp64; lia).
  destruct (Z.leb_spec e 971); [done|lia].
Qed.

Lemma round_sat_rank (x : spec_float) :
  valid_binary x = true -> finite_sf x = true -> nonneg_sf x = true ->
  round_sat (rank x) = rank x.
Proof.
  intros Hv Hf Hn. destruct x as [[]|[]| |[] m e]; try discriminate.
  - reflexivity.
  - by apply round_sat_valid.
Qed.

(** *** Addition of values that are not negative *)

Lemma shl_align_value (m : positive) (e e' : Z) :
  e' <= e -> Z.pos (shl_align m e e').1 = Z.pos m * 2 ^ (e - e').
Proof.
  intros He. unfold shl_align. destruct (e' - e) as [|p|p] eqn:Hd; cbn [fst].
  - replace (e - e') with 0 by lia. lia.
  - lia.
  - rewrite pos_iter_xO_value. f_equal. f_equal. lia.
Qed.

Lemma SFadd_rank_finite (mx mc : positive) (ex ec : Z) :
  valid_binary (S754_finite false mx ex) = true ->
  valid_binary (S754_finite false mc ec) = true ->
  rank (SFadd prec emax (S754_finite false mx ex) (S754_finite false mc ec))
  = round_sat (rank (S754_finite false mx ex) + rank (S754_finite false mc ec)).
Proof.
  intros [Hcx _]%valid_canonical [Hcc _]%valid_canonical.
  cbn [SFadd cond_Zopp rank]. cbv zeta.
  set (ez := Z.min ex ec).
  pose proof (shl_align_value mx ex ez ltac:(unfold ez; lia)) as Ha.
  pose proof (shl_align_value mc ec ez ltac:(unfold ez; lia)) as Hb.
  destruct (shl_align mx ex ez) as [a ?], (shl_align mc ec ez) as [b ?].
  cbn [fst] in *. change (Z.pos a + Z.pos b) with (Z.pos (a + b)).
  cbn [binary_normalize].
  rewrite binary_round_rank by (unfold ez; lia). f_equal.
  rewrite Pos2Z.inj_add, Ha, Hb, Z.mul_add_distr_r.
  rewrite <- !Z.mul_assoc, <- !pow2_split by (unfold ez; lia).
  f_equal; f_equal; f_equal; lia.
Qed.

Lemma SFadd_rank (x c : spec_float) :
  valid_binary x = true -> valid_binary c = true ->
  nonneg_sf x = true -> nonneg_sf c = true ->
  rank (SFadd prec emax x c) = rank_add (rank x) (rank c).
Proof.
  intros Hvx Hvc Hnx Hnc. unfold rank_add.
  destruct x as [[]|[]| |[] mx ex]; try discriminate;
  destruct c as [[]|[]| |[] mc ec]; try discriminate.
  - (* 0 + 0 *)
    reflexivity.
  - (* 0 + Inf *)
    reflexivity.
  - (* 0 + c *)
    pose proof (valid_magnitude _ _ _ Hvc). cbn [SFadd]. cbn [rank] in *. cbv zeta in *.
    destruct (Z.eqb_spec (Z.pos mc * 2 ^ (ec + 1074)) (2 ^ 2098)); [lia|].
    cbn [orb Z.eqb]. rewrite Z.add_0_l. symmetry. by apply round_sat_valid.
  - (* Inf + 0 *)
    reflexivity.
  - (* Inf + Inf *)
    reflexivity.
  - (* Inf + c *)
    cbn [SFadd rank]. by rewrite Z.eqb_refl.
  - (* x + 0 *)
    pose proof (valid_magnitude _ _ _ Hvx). cbn [SFadd]. cbn [rank] in *. cbv zeta in *.
    destruct (Z.eqb_spec (Z.pos mx * 2 ^ (ex + 1074)) (2 ^ 2098)); [lia|].
    cbn [orb Z.eqb]. rewrite Z.add_0_r. symmetry. by apply round_sat_valid.
  - (* x + Inf *)
    cbn [SFadd rank]. by rewrite Z.eqb_refl, orb_true_r.
  - (* two finite numbers *)
    rewrite SFadd_rank_finite by done.
    pose proof (valid_magnitude _ _ _ Hvx). pose proof (valid_magnitude _ _ _ Hvc).
    cbn [rank] in *. cbv zeta in *.
    destruct (Z.eqb_spec (Z.pos mx * 2 ^ (ex + 1074)) (2 ^ 2098)); [lia|].
    destruct (Z.eqb_spec (Z.pos mc * 2 ^ (ec + 1074)) (2 ^ 2098)); [lia|]. done.
Qed.

Lemma round_sat_le (V : Z) : round_sat V <= 2 ^ 2098.
Proof. unfold round_sat. lia. Qed.

Lemma rank_add_mono (a b c : Z) :
  0 <= a <= b -> b <= 2 ^ 2098 -> 0 <= c -> rank_add a c <= rank_add b c.
Proof.
  intros Hab Hb Hc. unfold rank_add.
  destruct (Z.eqb_spec c (2 ^ 2098)); [by rewrite !orb_true_r|]. rewrite !orb_false_r.
  destruct (Z.eqb_spec a (2 ^ 2098)), (Z.eqb_spec b (2 ^ 2098)); try lia.
  - apply round_sat_le.
  - apply round_sat_mono. lia.
Qed.

(** Adding the same value on both sides keeps the order. *)
Lemma add_le_mono_l (x y c : float) :
  nonneg x = true -> nonneg y = true -> nonneg c = true ->
  (x <=? y)%float = true -> (x + c <=? y + c)%float = true.
Proof.
  intros Hx Hy Hc Hle. apply leb_rank in Hle as (_ & _ & Hle).
  apply leb_rank.
  pose proof (add_nonneg x c Hx Hc) as Hxc. pose proof (add_nonneg y c Hy Hc) as Hyc.
  split; [by apply nonneg_not_nan|]. split; [by apply nonneg_not_nan|].
  rewrite !FloatAxioms.add_spec. unfold SF64add.
  rewrite !SFadd_rank by (done || apply Prim2SF_valid).
  pose proof (nonneg_rank _ (Prim2SF_valid x) Hx).
  pose proof (nonneg_rank _ (Prim2SF_valid y) Hy).
  pose proof (nonneg_rank _ (Prim2SF_valid c) Hc).
  apply rank_add_mono; lia.
Qed.

(** Adding a value that is not negative does not lower a sum. *)
Lemma add_le_r (x c : float) :
  nonneg x = true -> nonneg c = true -> (x <=? x + c)%float = true.
Proof.
  intros Hx Hc. apply leb_rank.
  pose proof (add_nonneg x c Hx Hc) as Hxc.
  split; [by apply nonneg_not_nan|]. split; [by apply nonneg_not_nan|].
  rewrite FloatAxioms.add_spec. unfold SF64add.
  rewrite SFadd_rank by (done || apply Prim2SF_valid).
  pose proof (nonneg_rank _ (Prim2SF_valid x) Hx) as Hrx.
  pose proof (nonneg_rank _ (Prim2SF_valid c) Hc) as Hrc.
  unfold rank_add.
  destruct (Z.eqb_spec (rank (Prim2SF x)) (2 ^ 2098)); [cbn [orb]; lia|].
  destruct (Z.eqb_spec (rank (Prim2SF c)) (2 ^ 2098)); [cbn [orb]; lia|]. cbn [orb].
  assert (finite_sf (Prim2SF x) = true) as Hfx.
  { unfold nonneg in Hx. by destruct (Prim2SF x) as [[]|[]| |[] m e]. }
  rewrite <- (round_sat_rank (Prim2SF x)) at 1 by (done || apply Prim2SF_valid).
  apply round_sat_mono. lia.
Qed.

End Float64.

(** ** Climb runs and the threshold *)

Lemma run_state_extend cur run d :
  run_state cur run -> run_state (Some (default 0 cur + d))%float (run + d)%float.
Proof. intros [[-> ->]| ->]; by right. Qed.

Lemma hysteresis_step_eq (T total run d : float) :
  hysteresis_step T (total, run) d
  = if (0 <? d)%float then (total, (run + d)%float) else (commit T total run, 0%float).
Proof. reflexivity. Qed.

Lemma hysteresis_sub_threshold (T : float) (ds : list float) cur total run :
  run_state cur run -> total = 0%float ->
  Forall (fun r => (r <? T)%float = true) (run_totals ds cur) ->
  let st := fold_left (hysteresis_step T) ds (total, run) in
  commit T st.1 st.2 = 0%float.
Proof.
  revert cur total run. induction ds as [|d ds IH]; intros cur total run Hst -> Hall.
  - cbn. unfold commit. destruct Hst as [[-> ->]| ->].
    + by destruct (T <=? 0)%float.
    + apply Forall_cons_1 in Hall as [Hlt _].
      by rewrite (Float64.ltb_leb_false _ _ Hlt).
  - cbn [fold_left]. rewrite hysteresis_step_eq.
    cbn [run_totals] in Hall. destruct (0 <? d)%float.
    + eapply IH; [by apply run_state_extend|done|done].
    + destruct Hst as [[-> ->]| ->].
      * apply (IH None); [by left| |done].
        unfold commit. by destruct (T <=? 0)%float.
      * apply Forall_cons_1 in Hall as [Hlt Hall].
        apply (IH None); [by left| |done].
        unfold commit. by rewrite (Float64.ltb_leb_false _ _ Hlt).
Qed.

(** C6. When every maximal run of strictly increasing elevation adds up
    to a climb strictly below the threshold, [calculateCumulativeAscent]
    returns exactly 0: such runs are dropped whole. *)
Theorem sub_threshold_climbs_discarded (points : list TrackPoint) (T : float) :
  Forall (fun r => (r <? T)%float = true) (climb_runs points) ->
  calculateCumulativeAscent points T = 0%float.
Proof.
  intros Hall. rewrite ascent_loop_spec.
  unfold ascent_spec. destruct (length points <? 2)%nat; [done|].
  unfold hysteresis_total. by apply (hysteresis_sub_threshold T _ None); [left|..].
Qed.

Lemma sub_threshold_climbs_discarded_witness :
  Forall (fun r => (r <? 5)%float = true)
         (climb_runs (at_elevation <$> [0; 3; 0; 3; 0]%float))
  /\ calculateCumulativeAscent (at_elevation <$> [0; 3; 0; 3; 0]%float) 5 = 0%float.
Proof.
  assert (Forall (fun r => (r <? 5)%float = true)
                 (climb_runs (at_elevation <$> [0; 3; 0; 3; 0]%float))) as H.
  { vm_compute. repeat constructor. }
  split; [exact H|].
  exact (sub_threshold_climbs_discarded (at_elevation <$> [0; 3; 0; 3; 0]%float) 5 H).
Defined.

Lemma hysteresis_all_runs (T : float) (ds : list float) cur total run :
  (T <=? 0)%float = true ->
  run_state cur run -> nonneg total = true -> nonneg run = true ->
  let st := fold_left (hysteresis_step T) ds (total, run) in
  commit T st.1 st.2 = fold_left (fun acc x => (acc + x)%float) (run_totals ds cur) total.
Proof.
  intros HT. revert cur total run.
  induction ds as [|d ds IH]; intros cur total run Hst Htot Hrun.
  - cbn. unfold commit. rewrite (Float64.leb_nonpos_nonneg T run HT Hrun).
    destruct Hst as [[-> ->]| ->]; [|done]. by apply Float64.add_zero_r.
  - cbn [fold_left run_totals]. rewrite hysteresis_step_eq.
    destruct (0 <? d)%float eqn:Hd.
    + apply IH; [by apply run_state_extend|done|].
      apply Float64.add_nonneg; [done|by apply Float64.pos_nonneg].
    + unfold commit. rewrite (Float64.leb_nonpos_nonneg T run HT Hrun).
      destruct Hst as [[-> ->]| ->].
      * rewrite Float64.add_zero_r by done. apply (IH None); [by left|done..].
      * cbn [fold_left]. apply (IH None); [by left| |done].
        by apply Float64.add_nonneg.
Qed.

Lemma ascent_spec_all_runs (points : list TrackPoint) (T : float) :
  (T <=? 0)%float = true -> ascent_spec points T = fsum (climb_runs points).
Proof.
  intros HT. unfold ascent_spec, climb_runs, fsum.
  destruct (Nat.ltb_spec (length points) 2) as [Hlt|Hge].
  - destruct points as [|p [|q l]]; [done|done|]. simpl in Hlt. lia.
  - unfold hysteresis_total. by apply (hysteresis_all_runs T _ None); [|left|..].
Qed.

(** C5, as amended.  With a threshold T <= 0 no climb run is rejected:
    the result is the sum, run after run, of the totals of all maximal
    climb runs, each total being the sum of the run's deltas.  On
    [0, 10, 20, 30] with threshold 0 this is exactly 30. *)
Theorem nonpositive_threshold_commits_every_run (points : list TrackPoint) (T : float) :
  (T <=? 0)%float = true ->
  calculateCumulativeAscent points T = fsum (climb_runs points).
Proof. intros HT. rewrite ascent_loop_spec. by apply ascent_spec_all_runs. Qed.

Lemma nonpositive_threshold_commits_every_run_witness :
  (0 <=? 0)%float = true
  /\ calculateCumulativeAscent (at_elevation <$> [0; 10; 20; 30]%float) 0
     = fsum (climb_runs (at_elevation <$> [0; 10; 20; 30]%float))
  /\ fsum (climb_runs (at_elevation <$> [0; 10; 20; 30]%float)) = 30%float.
Proof.
  split; [reflexivity|]. split; [|vm_compute; reflexivity].
  apply (nonpositive_threshold_commits_every_run
           (at_elevation <$> [0; 10; 20; 30]%float) 0).
  reflexivity.
Defined.

(** C5 as stated fails: with threshold 0 the result on [two_climbs] is
    5.400000000000001, the naive sum of the positive deltas is 5.4; the
    two are different [float64] values (also under [==]). *)
Lemma naive_sum_differs :
  (0 <=? 0)%float = true
  /\ calculateCumulativeAscent two_climbs 0 = 5.400000000000001%float
  /\ naive_ascent two_climbs = 5.4%float
  /\ (calculateCumulativeAscent two_climbs 0 =? naive_ascent two_climbs)%float = false
  /\ calculateCumulativeAscent two_climbs 0 <> naive_ascent two_climbs.
Proof.
  split; [reflexivity|]. split; [vm_compute; reflexivity|].
  split; [vm_compute; reflexivity|]. split; [vm_compute; reflexivity|].
  intros E. apply (f_equal (fun x => (x =? naive_ascent two_climbs)%float)) in E.
  vm_compute in E. discriminate E.
Qed.
(** ** Rounding to GOT points *)

Section Rounding.
Import Float64.

Lemma int_of_signed_zero (s : bool) : GoMath.int_of_float64 (GoMath.signed s 0) = 0.
Proof. by destruct s. Qed.

Lemma int_of_signed_nat (s : bool) (n : positive) :
  Z.pos n < 2 ^ 53 ->
  GoMath.int_of_float64 (GoMath.signed s (of_uint63 (of_Z (Z.pos n))))
  = if s then - Z.pos n else Z.pos n.
Proof.
  intros Hn. unfold GoMath.int_of_float64.
  destruct (binary_normalize_exact n (digits_le_53 n Hn)) as (m & e & Hb & Hv).
  assert (Prim2SF (of_uint63 (of_Z (Z.pos n))) = S754_finite false m e) as Hp.
  { rewrite FloatAxioms.of_uint63_spec, Uint63.of_Z_spec.
    rewrite Z.mod_small; [done|]. unfold wB, size. split; [lia|].
    eapply Z.lt_trans; [exact Hn|]. by vm_compute. }
  destruct s; cbn [GoMath.signed].
  - rewrite FloatAxioms.opp_spec, Hp. cbn [SFopp negb]. rewrite Hv.
    destruct (Z.leb_spec (- 2 ^ 63) (- Z.pos n)), (Z.ltb_spec (- Z.pos n) (2 ^ 63));
      cbn [andb]; lia.
  - rewrite Hp, Hv.
    destruct (Z.leb_spec (- 2 ^ 63) (Z.pos n)), (Z.ltb_spec (Z.pos n) (2 ^ 63));
      cbn [andb]; lia.
Qed.

(** [int(math.Round(x))] is the nearest integer, halves away from zero. *)
Lemma Round_nearest_away (x : float) (s : bool) (m : positive) (e : Z) :
  Prim2SF x = S754_finite s m e ->
  - 2 ^ 63 <= nearest_away s m e < 2 ^ 63 ->
  GoMath.int_of_float64 (GoMath.Round x) = nearest_away s m e.
Proof.
  intros Hx Hrange. pose proof (Prim2SF_valid x) as Hvalid. rewrite Hx in Hvalid.
  pose proof (valid_digits s m e Hvalid) as Hd53.
  pose proof (digits2_pos_bounds m) as [Hlo Hhi].
  unfold GoMath.Round. rewrite Hx. cbv zeta.
  set (d := Z.pos (digits2_pos m)) in *.
  unfold nearest_away in *.
  destruct (Z.ltb_spec (d + e) 0) as [HE|HE].
  { (* |x| < 1/2 *)
    rewrite int_of_signed_zero.
    destruct (Z.leb_spec 0 e) as [|He]; [lia|].
    assert (2 * 2 ^ d <= 2 ^ (- e)).
    { rewrite <- Z.pow_succ_r by lia. apply Z.pow_le_mono_r; lia. }
    rewrite Z.div_small by lia. by destruct s. }
  destruct (Z.eqb_spec (d + e) 0) as [HE0|HE0].
  { (* 1/2 <= |x| < 1 *)
    destruct (Z.leb_spec 0 e) as [|He]; [lia|].
    replace (- e) with d in * by lia.
    assert (2 ^ d = 2 * 2 ^ (d - 1)) as Hpow.
    { rewrite <- Z.pow_succ_r by lia. f_equal. lia. }
    assert ((2 * Z.pos m + 2 ^ d) `div` (2 * 2 ^ d) = 1) as ->.
    { symmetry. apply (Z.div_unique _ _ 1 (2 * Z.pos m + 2 ^ d - 2 * 2 ^ d)); lia. }
    by destruct s. }
  destruct (Z.ltb_spec e 0) as [He|He].
  - (* fractional bits present *)
    destruct (Z.leb_spec 0 e) as [|_]; [lia|].
    set (D := 2 ^ (- e)) in *.
    assert (0 < D) by (apply Z.pow_pos_nonneg; lia).
    assert (D = 2 * 2 ^ (- e - 1)) as HD.
    { unfold D. rewrite <- Z.pow_succ_r by lia. f_equal. lia. }
    assert (Z.shiftr (Z.pos m + Z.shiftl 1 (- e - 1)) (- e)
            = (2 * Z.pos m + D) `div` (2 * D)) as HN.
    { rewrite Z.shiftr_div_pow2, Z.shiftl_mul_pow2, Z.mul_1_l by lia. fold D.
      rewrite <- (Z.div_mul_cancel_l _ D 2) by lia. f_equal. lia. }
    rewrite HN.
    assert (D <= Z.pos m).
    { etrans; [|exact Hlo]. apply Z.pow_le_mono_r; lia. }
    assert (1 <= (2 * Z.pos m + D) `div` (2 * D)).
    { apply Z.div_le_lower_bound; lia. }
    assert ((2 * Z.pos m + D) `div` (2 * D) < 2 ^ 53).
    { apply Z.div_lt_upper_bound; [lia|].
      assert (Z.pos m < 2 ^ 53).
      { eapply Z.lt_le_trans; [exact Hhi|]. apply Z.pow_le_mono_r; lia. }
      assert (2 <= D) by (rewrite HD; pose proof (Z.pow_pos_nonneg 2 (- e - 1)); lia).
      nia. }
    destruct ((2 * Z.pos m + D) `div` (2 * D)) as [|n|n] eqn:En; [lia| |lia].
    by apply int_of_signed_nat.
  - (* already an integer *)
    destruct (Z.leb_spec 0 e) as [_|]; [|lia].
    unfold GoMath.int_of_float64. rewrite Hx, Z.shiftl_mul_pow2 by lia.
    destruct s.
    + destruct (Z.leb_spec (- 2 ^ 63) (- (Z.pos m * 2 ^ e))),
        (Z.ltb_spec (- (Z.pos m * 2 ^ e)) (2 ^ 63)); cbn [andb]; lia.
    + destruct (Z.leb_spec (- 2 ^ 63) (Z.pos m * 2 ^ e)),
        (Z.ltb_spec (Z.pos m * 2 ^ e) (2 ^ 63)); cbn [andb]; lia.
Qed.



Example Round_ties :
  GoMath.Round 0.5 = 1%float /\ GoMath.Round (-0.5) = (-1)%float
  /\ GoMath.Round 2.5 = 3%float /\ GoMath.Round (-2.5) = (-3)%float
  /\ GoMath.Round 0.49999999999999994 = 0%float
  /\ calculateGOTAscent 250 = 3 /\ calculateGOTAscent 249 = 2
  /\ calculateGOTDistance 49.5 = 50.
Proof. repeat split; vm_compute; reflexivity. Qed.

End Rounding.

(** ** haversineDistance2D *)

Section Haversine.
Import Float64.
















End Haversine.

(** ** The ascent falls as the threshold rises *)

Section Antitone.
Import Float64.

Lemma commit_nonneg (T total run : float) :
  nonneg total = true -> nonneg run = true -> nonneg (commit T total run) = true.
Proof.
  intros Ht Hr. unfold commit. destruct (T <=? run)%float; [|done].
  by apply add_nonneg.
Qed.

Lemma commit_le (Ta Tb tota totb run : float) :
  accepts_more Ta Tb ->
  nonneg tota = true -> nonneg totb = true -> nonneg run = true ->
  (totb <=? tota)%float = true ->
  (commit Tb totb run <=? commit Ta tota run)%float = true.
Proof.
  intros Hacc Ha Hb Hr Hle. unfold commit.
  destruct (Tb <=? run)%float eqn:Eb.
  - rewrite (Hacc run Hr Eb). by apply add_le_mono_l.
  - destruct (Ta <=? run)%float; [|done].
    eapply leb_trans; [exact Hle|]. by apply add_le_r.
Qed.

Lemma hysteresis_le (Ta Tb : float) (ds : list float) (tota totb run : float) :
  accepts_more Ta Tb ->
  nonneg tota = true -> nonneg totb = true -> nonneg run = true ->
  (totb <=? tota)%float = true ->
  let sa := fold_left (hysteresis_step Ta) ds (tota, run) in
  let sb := fold_left (hysteresis_step Tb) ds (totb, run) in
  (commit Tb sb.1 sb.2 <=? commit Ta sa.1 sa.2)%float = true
  /\ nonneg (commit Tb sb.1 sb.2) = true.
Proof.
  intros Hacc. revert tota totb run.
  induction ds as [|d ds IH]; intros tota totb run Ha Hb Hr Hle.
  - cbn. split; [by apply commit_le|by apply commit_nonneg].
  - cbn [fold_left]. rewrite !hysteresis_step_eq.
    destruct (0 <? d)%float eqn:Hd.
    + apply IH; try done. apply add_nonneg; [done|by apply pos_nonneg].
    + apply IH; try done; [by apply commit_nonneg..|by apply commit_le].
Qed.

Lemma ascent_le (points : list TrackPoint) (Ta Tb : float) :
  accepts_more Ta Tb ->
  (calculateCumulativeAscent points Tb <=? calculateCumulativeAscent points Ta)%float = true
  /\ nonneg (calculateCumulativeAscent points Tb) = true.
Proof.
  intros Hacc.
  rewrite !ascent_loop_spec.
  unfold ascent_spec. destruct (length points <? 2)%nat; [done|].
  unfold hysteresis_total. by apply hysteresis_le.
Qed.

Lemma accepts_more_le (T1 T2 : float) : (T1 <=? T2)%float = true -> accepts_more T1 T2.
Proof. intros H r _ Hr. by eapply leb_trans. Qed.

Lemma accepts_more_zero (T : float) : accepts_more 0 T.
Proof. intros r Hr _. by apply leb_zero_nonneg. Qed.

(** C10, as amended.  For all thresholds T1 <= T2,
    [calculateCumulativeAscent(points, T1) >= calculateCumulativeAscent
    (points, T2)]; for every threshold the result is at least 0 and at
    most the sum of the totals of all climb runs, which is the result
    for any threshold <= 0. *)
Theorem ascent_antitone_in_threshold (points : list TrackPoint) (T1 T2 : float) :
  (T1 <=? T2)%float = true ->
  (calculateCumulativeAscent points T2 <=? calculateCumulativeAscent points T1)%float = true
  /\ (forall T, (0 <=? calculateCumulativeAscent points T)%float = true
                /\ (calculateCumulativeAscent points T <=? fsum (climb_runs points))%float
                   = true).
Proof.
  intros Hle. split; [by apply ascent_le, accepts_more_le|].
  intros T. destruct (ascent_le points 0 T (accepts_more_zero T)) as [Hup Hnn].
  split; [by apply leb_zero_nonneg|].
  by rewrite <- (ascent_spec_all_runs points 0), <- ascent_loop_spec.
Qed.

End Antitone.

Lemma ascent_antitone_in_threshold_witness :
  (0 <=? 1.5)%float = true
  /\ (calculateCumulativeAscent long_climbs 1.5
      <=? calculateCumulativeAscent long_climbs 0)%float = true.
Proof.
  split; [reflexivity|].
  exact (proj1 (ascent_antitone_in_threshold long_climbs 0 1.5 eq_refl)).
Defined.

(** C10 as stated fails in its bound by the naive sum: on [long_climbs]
    with threshold 1.5 (a threshold >= 0) the result is
    23.500000000000004 and the naive sum of the positive deltas is 23.5. *)
Lemma ascent_exceeds_naive_sum :
  (0 <=? 1.5)%float = true
  /\ calculateCumulativeAscent long_climbs 1.5 = 23.500000000000004%float
  /\ naive_ascent long_climbs = 23.5%float
  /\ (calculateCumulativeAscent long_climbs 1.5 <=? naive_ascent long_climbs)%float = false.
Proof. repeat split; vm_compute; reflexivity. Qed.


(** ** The ascent as a sum of the accepted climb runs *)

Lemma commit_idle (T total : float) : nonneg total = true -> commit T total 0 = total.
Proof.
  intros Htot. unfold commit. destruct (T <=? 0)%float; [|done].
  by apply Float64.add_zero_r.
Qed.

Lemma hysteresis_accepted_runs (T : float) (ds : list float) cur total run :
  run_state cur run -> nonneg total = true -> nonneg run = true ->
  let st := fold_left (hysteresis_step T) ds (total, run) in
  commit T st.1 st.2
  = fold_left (fun acc x => (acc + x)%float)
              (filter (fun r => (T <=? r)%float = true) (run_totals ds cur)) total.
Proof.
  revert cur total run.
  induction ds as [|d ds IH]; intros cur total run Hst Htot Hrun.
  - cbn [fold_left run_totals fst snd].
    destruct Hst as [[-> ->]| ->]; [by apply commit_idle|].
    rewrite filter_cons, filter_nil. unfold commit.
    destruct (decide ((T <=? run)%float = true)) as [->|Hn]; [done|].
    by destruct (T <=? run)%float.
  - cbn [fold_left run_totals]. rewrite hysteresis_step_eq.
    destruct (0 <? d)%float eqn:Hd.
    + apply IH; [by apply run_state_extend|done|].
      apply Float64.add_nonneg; [done|by apply Float64.pos_nonneg].
    + cbv zeta. rewrite (IH None); [|by left|by apply commit_nonneg|done].
      destruct Hst as [[-> ->]| ->]; [by rewrite commit_idle|].
      rewrite filter_cons. unfold commit.
      destruct (decide ((T <=? run)%float = true)) as [->|Hn]; [done|].
      by destruct (T <=? run)%float.
Qed.

Lemma ascent_spec_accepted_runs (points : list TrackPoint) (T : float) :
  ascent_spec points T
  = fsum (filter (fun r => (T <=? r)%float = true) (climb_runs points)).
Proof.
  unfold ascent_spec, climb_runs, fsum.
  destruct (Nat.ltb_spec (length points) 2) as [Hlt|Hge].
  - destruct points as [|p [|q l]]; [done|done|]. simpl in Hlt. lia.
  - unfold hysteresis_total. by apply (hysteresis_accepted_runs T _ None); [left|..].
Qed.

(** X1. The result is the [float64] sum, in track order and starting from 0,
    of the totals of exactly those climb runs that reach the threshold. *)
Theorem ascent_sums_accepted_runs (points : list TrackPoint) (T : float) :
  calculateCumulativeAscent points T
  = fsum (filter (fun r => (T <=? r)%float = true) (climb_runs points)).
Proof. rewrite ascent_loop_spec. apply ascent_spec_accepted_runs. Qed.

(** ** What each measurement reads of a track *)

Lemma index_field {B} (field : TrackPoint -> B) (p q : list TrackPoint) (j : Z) :
  field <$> p = field <$> q -> field (index p j) = field (index q j).
Proof.
  intros Heq. unfold index. rewrite !list_lookup_total_alt.
  pose proof (f_equal (fun l => l !! Z.to_nat j) Heq) as Hj. cbv beta in Hj.
  rewrite !list_lookup_fmap in Hj.
  destruct (p !! Z.to_nat j), (q !! Z.to_nat j); simplify_eq/=; done.
Qed.

Lemma ascent_elevation_only (p q : list TrackPoint) (T : float) :
  Elevation <$> p = Elevation <$> q ->
  calculateCumulativeAscent p T = calculateCumulativeAscent q T.
Proof.
  intros Heq. rewrite !ascent_loop_spec. unfold ascent_spec.
  rewrite Heq. by rewrite <- (length_fmap Elevation p), Heq, length_fmap.
Qed.

Lemma distance_loop_feed (M : GoMath.libm) (rest : list TrackPoint) (pre : list TrackPoint)
    (p : TrackPoint) (dist : float) :
  fold_left
    (fun dist i =>
       (dist + haversineDistance2D M (index (pre ++ p :: rest) (i - 1))
                                   (index (pre ++ p :: rest) i))%float)
    (seqZ (Go.len pre + 1) (Go.len rest)) dist
  = fold_left (fun acc x => (acc + x)%float) (legs M (p :: rest)) dist.
Proof.
  revert pre p dist. induction rest as [|q rest IH]; intros pre p dist; [done|].
  rewrite len_cons, seqZ_cons by (pose proof (len_nonneg rest); lia).
  cbn [fold_left]. unfold legs. cbn [tail zip_with fold_left].
  pose proof (len_nonneg pre) as Hpre. pose proof (len_nonneg rest) as Hrest.
  replace (Go.len pre + 1 - 1) with (Go.len pre) by lia.
  rewrite index_app_r.
  replace (index (pre ++ p :: q :: rest) (Go.len pre + 1)) with q.
  2:{ rewrite (cons_middle p pre (q :: rest)), app_assoc.
      replace (Go.len pre + 1) with (Go.len (pre ++ [p])) by (by rewrite len_app).
      by rewrite index_app_r. }
  replace (Z.succ (Go.len pre + 1)) with (Go.len (pre ++ [p]) + 1)
    by (rewrite len_app; unfold Go.len; simpl; lia).
  replace (Z.pred (1 + Go.len rest)) with (Go.len rest) by lia.
  rewrite (cons_middle p pre (q :: rest)), app_assoc.
  by rewrite IH.
Qed.

(** The loop adds the legs of the track from the left. *)
Lemma distance_loop_legs (M : GoMath.libm) (points : list TrackPoint) (dist : float) :
  distance_loop M points dist = fold_left (fun acc x => (acc + x)%float) (legs M points) dist.
Proof.
  unfold distance_loop. destruct points as [|p rest]; [done|].
  replace (Go.len (p :: rest) - 1) with (Go.len rest) by (rewrite len_cons; lia).
  by apply (distance_loop_feed M rest [] p).
Qed.

Lemma legs_length (M : GoMath.libm) (points : list TrackPoint) :
  length (legs M points) = (length points - 1)%nat.
Proof.
  unfold legs. rewrite length_zip_with. destruct points as [|p rest]; [done|].
  cbn [tail length]. lia.
Qed.

(** X7. The distance loop adds to [dist], from the left and in track order,
    the great-circle legs between neighbouring points: [n - 1] legs for
    [n >= 1] points, none for an empty slice. *)
Theorem distance_loop_sums_legs (M : GoMath.libm) (points : list TrackPoint)
    (dist : float) :
  distance_loop M points dist
  = fold_left (fun acc x => (acc + x)%float) (legs M points) dist
  /\ length (legs M points) = (length points - 1)%nat.
Proof. split; [apply distance_loop_legs|apply legs_length]. Qed.

(** ** The two smoothers side by side *)

Lemma smoother_identity (points : list TrackPoint) (W : Z) :
  W < 1 \/ points = [] ->
  applyMovingAverage points W = points /\ applyLatLonSmoothing points W = points.
Proof.
  intros Hguard. unfold applyMovingAverage, applyLatLonSmoothing.
  assert ((W <? 1) || (Go.len points =? 0) = true) as ->; [|done].
  apply orb_true_iff. destruct Hguard as [HW| ->]; [left; by apply Z.ltb_lt|by right].
Qed.

Lemma applyMovingAverage_keeps {B} (field : TrackPoint -> B)
    (points : list TrackPoint) (W : Z) :
  (forall p e, field (set_Elevation p e) = field p) ->
  field <$> applyMovingAverage points W = field <$> points.
Proof.
  intros Hkeep. destruct (decide (W < 1 \/ points = [])) as [Hid|Hgo].
  { by destruct (smoother_identity points W Hid) as [-> _]. }
  assert (1 <= W /\ points <> []) as [HW Hne] by (split; [lia|tauto]).
  rewrite applyMovingAverage_tabulate by done.
  apply tabulate_frame. intros i. unfold smooth_elevation_at.
  destruct (window _ _ _) as [start end_]. by destruct (sum_elevation _ _ _) as [s c].
Qed.

Lemma applyLatLonSmoothing_keeps {B} (field : TrackPoint -> B)
    (points : list TrackPoint) (W : Z) :
  (forall p x, field (set_Latitude p x) = field p) ->
  (forall p x, field (set_Longitude p x) = field p) ->
  field <$> applyLatLonSmoothing points W = field <$> points.
Proof.
  intros Hlat Hlon. destruct (decide (W < 1 \/ points = [])) as [Hid|Hgo].
  { by destruct (smoother_identity points W Hid) as [_ ->]. }
  assert (1 <= W /\ points <> []) as [HW Hne] by (split; [lia|tauto]).
  rewrite applyLatLonSmoothing_tabulate by done.
  apply tabulate_frame. intros i. unfold smooth_latlon_at.
  destruct (window _ _ _) as [start end_].
  destruct (sum_latlon _ _ _) as [[sLat sLon] c]. by rewrite Hlon, Hlat.
Qed.

Lemma sum_elevation_ext (p q : list TrackPoint) (start end_ : Z) :
  Elevation <$> p = Elevation <$> q -> sum_elevation p start end_ = sum_elevation q start end_.
Proof.
  intros Heq. unfold sum_elevation. generalize (0%float, 0).
  induction (loop_range start end_) as [|j js IH]; intros acc; [done|].
  cbn [fold_left]. by rewrite (index_field Elevation p q j Heq), IH.
Qed.

Lemma sum_latlon_ext (p q : list TrackPoint) (start end_ : Z) :
  Latitude <$> p = Latitude <$> q -> Longitude <$> p = Longitude <$> q ->
  sum_latlon p start end_ = sum_latlon q start end_.
Proof.
  intros Hlat Hlon. unfold sum_latlon. generalize (0%float, 0%float, 0).
  induction (loop_range start end_) as [|j js IH]; intros acc; [done|].
  cbn [fold_left].
  by rewrite (index_field Latitude p q j Hlat), (index_field Longitude p q j Hlon), IH.
Qed.

Lemma index_tabulate (g : Z -> TrackPoint) (n i : Z) :
  0 <= i < n -> index (g <$> seqZ 0 n) i = g i.
Proof.
  intros Hi. unfold index. apply list_lookup_total_correct.
  rewrite list_lookup_fmap, lookup_seqZ_lt by lia.
  cbn. f_equal. f_equal. lia.
Qed.

Lemma len_length_eq {A B} (l : list A) (k : list B) :
  length l = length k -> Go.len l = Go.len k.
Proof. unfold Go.len. by intros ->. Qed.

Lemma smooth_elevation_at_eq (points : list TrackPoint) (half i : Z) :
  smooth_elevation_at points half i
  = let w := window (Go.len points) i half in
    let s := sum_elevation points w.1 w.2 in
    set_Elevation (index points i) (s.1 / Go.float64 s.2)%float.
Proof.
  unfold smooth_elevation_at. destruct (window _ _ _) as [start end_].
  by destruct (sum_elevation _ _ _) as [s c].
Qed.

Lemma smooth_latlon_at_eq (points : list TrackPoint) (half i : Z) :
  smooth_latlon_at points half i
  = let w := window (Go.len points) i half in
    let s := sum_latlon points w.1 w.2 in
    set_Longitude (set_Latitude (index points i) (s.1.1 / Go.float64 s.2)%float)
                  (s.1.2 / Go.float64 s.2)%float.
Proof.
  unfold smooth_latlon_at. destruct (window _ _ _) as [start end_].
  by destruct (sum_latlon _ _ _) as [[sLat sLon] c].
Qed.

Lemma smoothing_commutes (points : list TrackPoint) (W1 W2 : Z) :
  applyLatLonSmoothing (applyMovingAverage points W1) W2
  = applyMovingAverage (applyLatLonSmoothing points W2) W1.
Proof.
  destruct (decide (points = [])) as [->|Hne].
  { destruct (smoother_identity [] W1 (or_intror eq_refl)) as [-> _].
    destruct (smoother_identity [] W2 (or_intror eq_refl)) as [_ ->].
    by destruct (smoother_identity [] W1 (or_intror eq_refl)) as [-> _]. }
  destruct (decide (W1 < 1)) as [H1|H1].
  { destruct (smoother_identity points W1 (or_introl H1)) as [-> _].
    by destruct (smoother_identity (applyLatLonSmoothing points W2) W1 (or_introl H1))
      as [-> _]. }
  destruct (decide (W2 < 1)) as [H2|H2].
  { destruct (smoother_identity points W2 (or_introl H2)) as [_ ->].
    by destruct (smoother_identity (applyMovingAverage points W1) W2 (or_introl H2))
      as [_ ->]. }
  destruct (smoothers_length points W1) as [HlenE _].
  destruct (smoothers_length points W2) as [_ HlenL].
  assert (applyMovingAverage points W1 <> []) as HneE.
  { intros Heq. rewrite Heq in HlenE. by destruct points. }
  assert (applyLatLonSmoothing points W2 <> []) as HneL.
  { intros Heq. rewrite Heq in HlenL. by destruct points. }
  rewrite (applyLatLonSmoothing_tabulate (applyMovingAverage points W1)) by (done || lia).
  rewrite (applyMovingAverage_tabulate (applyLatLonSmoothing points W2)) by (done || lia).
  rewrite (len_length_eq _ _ HlenE), (len_length_eq _ _ HlenL).
  apply list_fmap_ext. intros k i Hk.
  apply lookup_seqZ in Hk as [-> Hk].
  rewrite smooth_latlon_at_eq, smooth_elevation_at_eq. cbv zeta.
  rewrite (len_length_eq _ _ HlenE), (len_length_eq _ _ HlenL).
  rewrite (sum_latlon_ext (applyMovingAverage points W1) points)
    by (by apply applyMovingAverage_keeps).
  rewrite (sum_elevation_ext (applyLatLonSmoothing points W2) points)
    by (by apply applyLatLonSmoothing_keeps).
  rewrite applyMovingAverage_tabulate, applyLatLonSmoothing_tabulate by (done || lia).
  rewrite !index_tabulate by lia.
  by rewrite smooth_latlon_at_eq, smooth_elevation_at_eq.
Qed.

(** X4. The two smoothers commute: smoothing positions after elevations, as
    [main] does, gives the slice that the other order gives, for any two
    window sizes. *)
Theorem smoothers_commute (points : list TrackPoint) (W1 W2 : Z) :
  applyLatLonSmoothing (applyMovingAverage points W1) W2
  = applyMovingAverage (applyLatLonSmoothing points W2) W1.
Proof. apply smoothing_commutes. Qed.

Lemma haversine_position_only (M : GoMath.libm) (a b a' b' : TrackPoint) :
  Latitude a = Latitude a' -> Longitude a = Longitude a' ->
  Latitude b = Latitude b' -> Longitude b = Longitude b' ->
  haversineDistance2D M a b = haversineDistance2D M a' b'.
Proof. unfold haversineDistance2D. by intros -> -> -> ->. Qed.

Lemma legs_cons (M : GoMath.libm) (a b : TrackPoint) (rest : list TrackPoint) :
  legs M (a :: b :: rest) = haversineDistance2D M a b :: legs M (b :: rest).
Proof. done. Qed.

Lemma legs_position_only (M : GoMath.libm) (p q : list TrackPoint) :
  Latitude <$> p = Latitude <$> q -> Longitude <$> p = Longitude <$> q ->
  legs M p = legs M q.
Proof.
  revert q. induction p as [|a p IH]; intros [|a' q] Hlat Hlon; try done.
  injection Hlat as Ha Hlat. injection Hlon as Ho Hlon.
  destruct p as [|b p], q as [|b' q]; try done.
  rewrite !legs_cons. rewrite (IH (b' :: q)) by done.
  injection Hlat as Hb _. injection Hlon as Hob _.
  by rewrite (haversine_position_only M a b a' b').
Qed.

Lemma distance_position_only (M : GoMath.libm) (p q : list TrackPoint) (dist : float) :
  Latitude <$> p = Latitude <$> q -> Longitude <$> p = Longitude <$> q ->
  distance_loop M p dist = distance_loop M q dist.
Proof. intros Hlat Hlon. by rewrite !distance_loop_legs, (legs_position_only M p q). Qed.

(** X5. Each smoother leaves the other measurement alone: smoothing the
    positions does not change the ascent, smoothing the elevations does
    not change the distance.  So the figures [main] computes for a day
    from the twice-smoothed slice are the distance of the
    position-smoothed points and the ascent of the elevation-smoothed
    points. *)
Theorem measurements_decouple (M : GoMath.libm) (points : list TrackPoint)
    (W : Z) (T dist : float) :
  calculateCumulativeAscent (applyLatLonSmoothing points W) T
  = calculateCumulativeAscent points T
  /\ distance_loop M (applyMovingAverage points W) dist = distance_loop M points dist
  /\ day_figures M points
     = (distance_loop M (applyLatLonSmoothing points movingAverageWindowSize) 0,
        calculateCumulativeAscent (applyMovingAverage points movingAverageWindowSize)
                                  ascentThreshold).
Proof.
  split; [|split].
  - apply ascent_elevation_only. by apply applyLatLonSmoothing_keeps.
  - apply distance_position_only; by apply applyMovingAverage_keeps.
  - unfold day_figures. cbv zeta. f_equal.
    + rewrite smoothing_commutes.
      apply distance_position_only; by apply applyMovingAverage_keeps.
    + apply ascent_elevation_only. by apply applyLatLonSmoothing_keeps.
Qed.

(** ** A window as wide as the track *)

Lemma applyMovingAverage_lookup (points : list TrackPoint) (W : Z) (i : nat) (p : TrackPoint) :
  1 <= W < 2 ^ 63 -> Go.len points < 2 ^ 62 -> points !! i = Some p ->
  applyMovingAverage points W !! i
  = Some (set_Elevation p (window_mean Elevation points
                             (window_lo W (Z.of_nat i))
                             (window_hi W (Go.len points) (Z.of_nat i)))).
Proof.
  intros HW Hbig Hp.
  assert (points <> []) as Hne by (by destruct points).
  pose proof (lookup_lt_Some _ _ _ Hp) as Hi.
  destruct (half_window_bounds W HW) as [Hq Hhalf].
  rewrite applyMovingAverage_tabulate by (done || lia).
  rewrite !list_lookup_fmap, lookup_seqZ_lt by (unfold Go.len; lia).
  cbn [fmap option_fmap option_map]. rewrite Z.add_0_l.
  unfold smooth_elevation_at.
  rewrite odd_window_normalized, Hq by done.
  rewrite window_clip by (unfold Go.len in *; lia).
  fold (window_lo W (Z.of_nat i)). fold (window_hi W (Go.len points) (Z.of_nat i)).
  rewrite sum_elevation_slice; [by rewrite (index_lookup _ _ _ Hp)|..|done];
    unfold window_lo, window_hi, Go.len in *; lia.
Qed.

Lemma ltb_sub_diag (c : float) : (0 <? c - c)%float = false.
Proof.
  rewrite FloatAxioms.ltb_spec, FloatAxioms.sub_spec.
  change (Prim2SF 0) with (S754_zero false).
  destruct (Prim2SF c) as [[]|[]| |s m e]; try done.
  unfold SF64sub. cbn [SFsub]. cbv zeta. rewrite Z.sub_diag. by destruct s.
Qed.

Lemma run_totals_no_climb (ds : list float) :
  Forall (fun d => (0 <? d)%float = false) ds -> run_totals ds None = [].
Proof. induction 1 as [|d ds Hd _ IH]; [done|]. cbn [run_totals]. by rewrite Hd. Qed.

Lemma deltas_constant (c : float) (n : nat) :
  Forall (fun d => (0 <? d)%float = false) (deltas (replicate n c)).
Proof.
  induction n as [|n IH]; [by constructor|].
  destruct n as [|n]; [by constructor|].
  unfold deltas in *. cbn [replicate tail zip_with] in *.
  constructor; [apply ltb_sub_diag|done].
Qed.

(** X6. When the window reaches over the whole track from every index
    ([W >= 2n - 1] for [n] points), [applyMovingAverage] gives every
    point the same elevation, the mean of all elevations, and the
    ascent of the smoothed track is 0 for every threshold. *)
Theorem wide_window_flattens (points : list TrackPoint) (W : Z) (T : float) :
  1 <= W < 2 ^ 63 -> Go.len points < 2 ^ 62 -> 2 * Go.len points - 1 <= W ->
  Elevation <$> applyMovingAverage points W
  = replicate (length points) (window_mean Elevation points 0 (Go.len points - 1))
  /\ calculateCumulativeAscent (applyMovingAverage points W) T = 0%float.
Proof.
  intros HW Hbig Hwide.
  assert (Elevation <$> applyMovingAverage points W
          = replicate (length points)
                      (window_mean Elevation points 0 (Go.len points - 1))) as Hflat.
  { apply list_eq. intros i. rewrite list_lookup_fmap.
    destruct (points !! i) as [p|] eqn:Hp.
    - rewrite (applyMovingAverage_lookup points W i p) by done.
      pose proof (lookup_lt_Some _ _ _ Hp) as Hi.
      rewrite lookup_replicate_2 by done.
      assert (Go.len points - 1 <= normalized_window W `div` 2) as Hhalf.
      { apply Z.div_le_lower_bound; [lia|].
        unfold normalized_window. destruct (Z.even W); lia. }
      assert (window_lo W (Z.of_nat i) = 0) as ->
        by (unfold window_lo, Go.len in *; lia).
      assert (window_hi W (Go.len points) (Z.of_nat i) = Go.len points - 1) as ->
        by (unfold window_hi, Go.len in *; lia).
      done.
    - apply lookup_ge_None in Hp.
      destruct (smoothers_length points W) as [HlenE _].
      rewrite (proj2 (lookup_ge_None _ _)) by lia.
      symmetry. apply lookup_ge_None. rewrite length_replicate. lia. }
  split; [done|].
  rewrite ascent_loop_spec, ascent_spec_accepted_runs. unfold climb_runs.
  rewrite Hflat. by rewrite run_totals_no_climb by apply deltas_constant.
Qed.

Lemma wide_window_flattens_witness :
  let points := at_elevation <$> [100; 110; 130]%float in
  (1 <= 5 < 2 ^ 63 /\ Go.len points < 2 ^ 62 /\ 2 * Go.len points - 1 <= 5)
  /\ Elevation <$> applyMovingAverage points 5
     = replicate (length points) (window_mean Elevation points 0 (Go.len points - 1))
  /\ calculateCumulativeAscent (applyMovingAverage points 5) 1.5 = 0%float.
Proof.
  intros points.
  assert (1 <= 5 < 2 ^ 63) as HW by lia.
  assert (Go.len points < 2 ^ 62) as Hbig by (vm_compute; reflexivity).
  assert (2 * Go.len points - 1 <= 5) as Hwide by (vm_compute; discriminate).
  split; [done|].
  exact (wide_window_flattens points 5 1.5 HW Hbig Hwide).
Defined.

(** ** The distance loop at its edges *)

Lemma haversine_same_position (M : GoMath.libm) (a b : TrackPoint) :
  libm_ok M -> valid_coordinates a ->
  Latitude b = Latitude a -> Longitude b = Longitude a ->
  haversineDistance2D M a b = 0%float.
Proof.
  intros (Hodd & Hsin0 & Hcos & Hatan) [Hlat Hlon] Hb Ho.
  unfold haversineDistance2D. cbv zeta. rewrite Hb, Ho.
  rewrite !Float64.sub_diag by done.
  change (0 / 2)%float with 0%float. rewrite Hsin0.
  destruct (Float64.square_unit _ (Hcos _ Hlat)) as [Hfin Hnn].
  rewrite (Float64.mul_zero_r _ Hfin Hnn).
  change (0 * 0 + 0 * 0)%float with 0%float.
  change (GoMath.Sqrt 0) with 0%float.
  change (GoMath.Sqrt (1 - 0)) with 1%float.
  rewrite Hatan. reflexivity.
Qed.

Lemma legs_still (M : GoMath.libm) (lat lon : float) (points : list TrackPoint) :
  libm_ok M ->
  finite (toRadians lat) = true -> finite (toRadians lon) = true ->
  Forall (fun p => Latitude p = lat /\ Longitude p = lon) points ->
  Forall (fun d => d = 0%float) (legs M points).
Proof.
  intros HM Hlat Hlon. induction 1 as [|a rest [Ha Ho] Hrest IH]; [by constructor|].
  destruct rest as [|b rest]; [by constructor|].
  rewrite legs_cons. constructor; [|done].
  apply Forall_cons in Hrest as [[Hb Hob] _].
  apply haversine_same_position; [done| |congruence..].
  split; by rewrite ?Ha, ?Ho.
Qed.

Lemma fsum_zeros (ds : list float) :
  Forall (fun d => d = 0%float) ds -> fold_left (fun acc x => (acc + x)%float) ds 0%float = 0%float.
Proof. induction 1 as [|d ds -> _ IH]; [done|]. cbn [fold_left]. exact IH. Qed.

(** X8. A track of fewer than two points has no leg: the loop leaves [dist]
    as it is.  A track that stays at one position (whatever its
    elevations and timestamps) has distance 0, given a [math] library
    with [Sin(0) = 0], [|Cos| <= 1] and [Atan2(0, 1) = 0] and a position
    whose radian values are finite. *)
Theorem distance_loop_still (M : GoMath.libm) :
  (forall points dist, (length points < 2)%nat -> distance_loop M points dist = dist)
  /\ (libm_ok M ->
      forall points lat lon,
        finite (toRadians lat) = true -> finite (toRadians lon) = true ->
        Forall (fun p => Latitude p = lat /\ Longitude p = lon) points ->
        distance_loop M points 0 = 0%float).
Proof.
  split.
  - intros [|p [|q rest]] dist Hlen; [reflexivity|reflexivity|]. simpl in Hlen. lia.
  - intros HM points lat lon Hlat Hlon Hall.
    rewrite distance_loop_legs. apply fsum_zeros. by apply (legs_still M lat lon).
Qed.

Example distance_loop_still_example :
  distance_loop small_angle_libm
    [set_Elevation (at_position 49.2 20.1) 900; set_Elevation (at_position 49.2 20.1) 950;
     set_Elevation (at_position 49.2 20.1) 990] 0 = 0%float.
Proof. vm_compute. reflexivity. Qed.

(** ** More on groupByDay *)

Lemma day_points_nil_iff (location : GoTime.Location) (day : string)
    (points : list TrackPoint) :
  day_points location day points = [] <-> forall p, p ∈ points -> dayKey location p <> day.
Proof.
  unfold day_points. split.
  - intros Hnil p Hp Hday.
    assert (p ∈ filter (fun p => dayKey location p = day) points) as Hin
      by (by apply list_elem_of_filter).
    rewrite Hnil in Hin. by apply elem_of_nil in Hin.
  - intros Hno. induction points as [|p points IH]; [done|].
    rewrite filter_cons, decide_False by (apply Hno; left).
    apply IH. intros q Hq. apply Hno. by right.
Qed.

(** X9. The keys of the map are the days on which at least one point falls,
    no bucket is empty, and an empty slice gives an empty map. *)
Theorem groupByDay_keys (points : list TrackPoint) (location : GoTime.Location) :
  (forall day, is_Some (groupByDay points location !! day)
               <-> exists p, p ∈ points /\ dayKey location p = day)
  /\ (forall day bucket, groupByDay points location !! day = Some bucket -> bucket <> [])
  /\ groupByDay [] location = ∅.
Proof.
  split; [|split; [|done]].
  - intros day. rewrite groupByDay_lookup.
    destruct (day_points location day points) as [|q bucket] eqn:Hb.
    + split; [by intros [? ?]|]. intros (p & Hp & Hday).
      by destruct (proj1 (day_points_nil_iff location day points) Hb p Hp).
    + split; [|done]. intros _. exists q.
      assert (q ∈ day_points location day points) as Hq by (rewrite Hb; left).
      unfold day_points in Hq. by apply list_elem_of_filter in Hq as [? ?].
  - intros day bucket Hb. by apply groupByDay_Some in Hb as [_ ?].
Qed.

(** X10. Grouping a slice made of two parts: each day's bucket is the bucket
    of the first part followed by the bucket of the second part. *)
Theorem groupByDay_app (points1 points2 : list TrackPoint) (location : GoTime.Location) :
  groupByDay (points1 ++ points2) location
  = union_with (fun b1 b2 => Some (b1 ++ b2))
               (groupByDay points1 location) (groupByDay points2 location).
Proof.
  apply map_eq. intros day. rewrite lookup_union_with, !groupByDay_lookup.
  unfold day_points. rewrite filter_app.
  destruct (filter _ points1) as [|a b1], (filter _ points2) as [|c b2]; try done.
  cbn. by rewrite app_nil_r.
Qed.

(** X11. When all the points of a non-empty slice fall on one day, the map
    has that single key and its bucket is the whole slice, in order. *)
Theorem groupByDay_single_day (points : list TrackPoint) (location : GoTime.Location)
    (day : string) :
  points <> [] -> Forall (fun p => dayKey location p = day) points ->
  groupByDay points location = {[ day := points ]}.
Proof.
  intros Hne Hall. apply map_eq. intros d. rewrite groupByDay_lookup.
  destruct (decide (d = day)) as [->|Hd].
  - rewrite lookup_singleton. unfold day_points.
    assert (filter (fun p => dayKey location p = day) points = points) as ->.
    { clear Hne. induction Hall as [|p l Hp _ IH]; [done|].
      rewrite filter_cons. by rewrite decide_True, IH by done. }
    rewrite decide_True by done. by destruct points.
  - rewrite lookup_singleton_ne by done.
    assert (day_points location d points = []) as ->; [|done].
    apply day_points_nil_iff. intros p Hp Hk.
    rewrite Forall_forall in Hall. specialize (Hall p Hp). congruence.
Qed.

Lemma groupByDay_single_day_witness :
  let points := [late_evening; after_midnight] in
  let zone := GoTime.FixedZone "UTC+2" 7200 in
  points <> []
  /\ Forall (fun p => dayKey zone p = "2024-06-02") points
  /\ groupByDay points zone = {[ "2024-06-02" := points ]}.
Proof.
  intros points zone.
  assert (points <> []) as Hne by done.
  assert (Forall (fun p => dayKey zone p = "2024-06-02") points) as Hall.
  { repeat constructor; vm_compute; reflexivity. }
  split; [done|]. split; [done|].
  exact (groupByDay_single_day points zone "2024-06-02" Hne Hall).
Defined.

(** ** The per-day results of [main] *)

Lemma result_day_lookup (M : GoMath.libm) results day pts d :
  result_day M results (day, pts) !! d
  = if decide (d = day) then Some (day_entry_after M (results !! day) pts)
    else results !! d.
Proof.
  unfold result_day, day_entry_after. destruct (day_figures M pts) as [dist ascent].
  destruct (decide (d = day)) as [->|Hd].
  - by rewrite lookup_insert_eq.
  - by rewrite lookup_insert_ne.
Qed.

Lemma fold_result_day_other (M : GoMath.libm) (l : list (string * list TrackPoint))
    results d :
  d ∉ l.*1 -> fold_left (result_day M) l results !! d = results !! d.
Proof.
  revert results. induction l as [|[day pts] l IH]; intros results Hd; [done|].
  cbn [fold_left]. rewrite IH by (intros ?; apply Hd; by right).
  rewrite result_day_lookup. rewrite decide_False; [done|].
  intros ->. apply Hd. left.
Qed.

Lemma fold_result_day_at (M : GoMath.libm) (l : list (string * list TrackPoint))
    results day pts :
  NoDup l.*1 -> (day, pts) ∈ l ->
  fold_left (result_day M) l results !! day
  = Some (day_entry_after M (results !! day) pts).
Proof.
  revert results. induction l as [|[d q] l IH]; intros results Hnd Hin.
  { by apply elem_of_nil in Hin. }
  apply NoDup_cons in Hnd as [Hd Hnd]. cbn [fold_left].
  apply elem_of_cons in Hin as [Heq|Hin].
  - injection Heq as <- <-. rewrite fold_result_day_other by done.
    rewrite result_day_lookup. by rewrite decide_True.
  - assert (day <> d) as Hne.
    { intros ->. apply Hd. apply list_elem_of_fmap. by exists (d, pts). }
    rewrite IH by done. by rewrite result_day_lookup, decide_False.
Qed.

Lemma add_figures_entry (M : GoMath.libm) location day entry segment :
  add_figures M location day entry segment
  = match day_points location day (TrackPoints segment) with
    | [] => entry
    | pts => Some (day_entry_after M entry pts)
    end.
Proof. reflexivity. Qed.

Lemma result_segment_lookup (M : GoMath.libm) location (range : MapOrder)
    results segment day :
  visits_once range ->
  result_segment M location range results segment !! day
  = add_figures M location day (results !! day) segment.
Proof.
  intros Hrange. unfold result_segment. cbv zeta.
  set (grouped := groupByDay (TrackPoints segment) location).
  assert (NoDup (range grouped).*1) as Hnd.
  { rewrite (Hrange grouped). apply NoDup_fst_map_to_list. }
  rewrite add_figures_entry.
  pose proof (groupByDay_lookup (TrackPoints segment) location day) as Hg.
  fold grouped in Hg.
  destruct (day_points location day (TrackPoints segment)) as [|p pts].
  - apply fold_result_day_other. intros Hin.
    apply list_elem_of_fmap in Hin as ([d q] & Heq & Hin). cbn in Heq. subst d.
    rewrite (Hrange grouped) in Hin. apply elem_of_map_to_list in Hin.
    congruence.
  - apply fold_result_day_at; [done|].
    rewrite (Hrange grouped). by apply elem_of_map_to_list.
Qed.

Lemma fold_segments_lookup (M : GoMath.libm) location (range : MapOrder)
    (segs : list TrackSegment) results day :
  visits_once range ->
  fold_left (result_segment M location range) segs results !! day
  = fold_left (add_figures M location day) segs (results !! day).
Proof.
  intros Hrange. revert results.
  induction segs as [|s segs IH]; intros results; [done|].
  cbn [fold_left]. by rewrite IH, result_segment_lookup.
Qed.

Lemma main_results_lookup (M : GoMath.libm) location (range : MapOrder)
    (gpx : GPX) day :
  visits_once range ->
  main_results M location range gpx !! day
  = fold_left (add_figures M location day) (segments gpx) None.
Proof.
  intros Hrange. unfold main_results, segments.
  change (None : option DayResult) with ((∅ : gmap string DayResult) !! day).
  generalize (∅ : gmap string DayResult).
  induction (Tracks gpx) as [|t ts IH]; intros results; [done|].
  cbn [fold_left mbind list_bind]. rewrite fold_left_app.  
  rewrite IH. by rewrite fold_segments_lookup.
Qed.

(** ** Walking on never lowers the ascent *)

Section Prefix.
Import Float64.

Lemma rank_add_comm (a b : Z) : rank_add a b = rank_add b a.
Proof. unfold rank_add. by rewrite orb_comm, Z.add_comm. Qed.

Lemma add_le_mono_r (x y c : float) :
  nonneg x = true -> nonneg y = true -> nonneg c = true ->
  (x <=? y)%float = true -> (c + x <=? c + y)%float = true.
Proof.
  intros Hx Hy Hc Hle. apply leb_rank in Hle as (_ & _ & Hle).
  apply leb_rank.
  pose proof (add_nonneg c x Hc Hx) as Hxc. pose proof (add_nonneg c y Hc Hy) as Hyc.
  split; [by apply nonneg_not_nan|]. split; [by apply nonneg_not_nan|].
  rewrite !FloatAxioms.add_spec. unfold SF64add.
  rewrite !SFadd_rank by (done || apply Prim2SF_valid).
  rewrite (rank_add_comm (rank (Prim2SF c)) (rank (Prim2SF x))),
          (rank_add_comm (rank (Prim2SF c)) (rank (Prim2SF y))).
  pose proof (nonneg_rank _ (Prim2SF_valid x) Hx).
  pose proof (nonneg_rank _ (Prim2SF_valid y) Hy).
  pose proof (nonneg_rank _ (Prim2SF_valid c) Hc).
  apply rank_add_mono; lia.
Qed.

(** A longer climb is committed whenever the shorter one is, and for at
    least as much. *)
Lemma commit_grows (T total run run' : float) :
  nonneg total = true -> nonneg run = true -> nonneg run' = true ->
  (run <=? run')%float = true ->
  (commit T total run <=? commit T total run')%float = true.
Proof.
  intros Htot Hrun Hrun' Hle. unfold commit.
  destruct (T <=? run)%float eqn:H1.
  - rewrite (leb_trans T run run' H1 Hle). by apply add_le_mono_r.
  - destruct (T <=? run')%float; [by apply add_le_r|by apply leb_refl].
Qed.

Lemma hysteresis_state_nonneg (T : float) (ds : list float) (total run : float) :
  nonneg total = true -> nonneg run = true ->
  let st := fold_left (hysteresis_step T) ds (total, run) in
  nonneg st.1 = true /\ nonneg st.2 = true.
Proof.
  revert total run. induction ds as [|d ds IH]; intros total run Htot Hrun; [done|].
  cbn [fold_left]. rewrite hysteresis_step_eq.
  destruct (0 <? d)%float eqn:Hd.
  - apply IH; [done|]. apply add_nonneg; [done|by apply pos_nonneg].
  - apply IH; [by apply commit_nonneg|done].
Qed.

Lemma last_cons_default {A} (l : list A) (x a b : A) :
  List.last (x :: l) a = List.last (x :: l) b.
Proof.
  revert x. induction l as [|y l IH]; intros x; [done|].
  change (List.last (y :: l) a = List.last (y :: l) b). apply IH.
Qed.

Lemma deltas_snoc (es : list float) (e0 e : float) :
  deltas ((e0 :: es) ++ [e])
  = deltas (e0 :: es) ++ [(e - List.last es e0)%float].
Proof.
  unfold deltas. revert e0. induction es as [|e1 es IH]; intros e0; [done|].
  cbn [app tail zip_with] in *. f_equal. rewrite IH. do 3 f_equal.
  destruct es as [|e2 es]; [done|].
  change (List.last (e2 :: es) e1 = List.last (e2 :: es) e0). apply last_cons_default.
Qed.

Lemma hysteresis_total_snoc (T : float) (es : list float) (e0 e : float) :
  (hysteresis_total T (e0 :: es) <=? hysteresis_total T ((e0 :: es) ++ [e]))%float = true.
Proof.
  unfold hysteresis_total. rewrite deltas_snoc, fold_left_app.
  destruct (hysteresis_state_nonneg T (deltas (e0 :: es)) 0 0 eq_refl eq_refl)
    as [Htot Hrun].
  destruct (fold_left (hysteresis_step T) (deltas (e0 :: es)) (0%float, 0%float))
    as [total run].
  cbn [fst snd] in *. cbn [fold_left]. rewrite hysteresis_step_eq.
  destruct (0 <? _)%float eqn:Hd; cbn [fst snd].
  - apply pos_nonneg in Hd. apply commit_grows; try done.
    + by apply add_nonneg.
    + by apply add_le_r.
  - rewrite commit_idle by (by apply commit_nonneg).
    apply leb_refl. by apply commit_nonneg.
Qed.

Lemma ascent_nonneg (points : list TrackPoint) (T : float) :
  nonneg (calculateCumulativeAscent points T) = true.
Proof. exact (proj2 (ascent_le points 0 T (accepts_more_zero T))). Qed.

Lemma ascent_snoc (points : list TrackPoint) (p : TrackPoint) (T : float) :
  (calculateCumulativeAscent points T
   <=? calculateCumulativeAscent (points ++ [p]) T)%float = true.
Proof.
  destruct points as [|p0 [|p1 rest]].
  - reflexivity.
  - rewrite (ascent_short [p0]) by (simpl; lia).
    apply leb_zero_nonneg, ascent_nonneg.
  - rewrite !ascent_loop_spec. unfold ascent_spec.
    rewrite length_app. cbn [length Nat.add Nat.ltb Nat.leb].
    rewrite !fmap_app, !fmap_cons.
    apply (hysteresis_total_snoc T _ (Elevation p0)).
Qed.

Lemma ascent_extend (points more : list TrackPoint) (T : float) :
  (calculateCumulativeAscent points T
   <=? calculateCumulativeAscent (points ++ more) T)%float = true.
Proof.
  revert points. induction more as [|p more IH]; intros points.
  - rewrite app_nil_r. apply leb_refl, ascent_nonneg.
  - rewrite (cons_middle p points more), app_assoc.
    eapply leb_trans; [apply (ascent_snoc points p)|apply IH].
Qed.

End Prefix.

(** X2. Extending a track never lowers its ascent: for every threshold the
    ascent of a track is at most the ascent of the track followed by any
    further points. *)
Theorem ascent_prefix_monotone (points more : list TrackPoint) (T : float) :
  (calculateCumulativeAscent points T
   <=? calculateCumulativeAscent (points ++ more) T)%float = true.
Proof. apply ascent_extend. Qed.

Lemma range_forth_visits_once : visits_once range_forth.
Proof. by intros grouped. Qed.

Lemma range_back_visits_once : visits_once range_back.
Proof. intros grouped. unfold range_back. apply reverse_Permutation. Qed.

(** X12. Day by day, [main] folds the segments of the document in document
    order: the entry of a day starts missing, and each segment with
    points on that day adds the figures of those points (read from the
    zero entry when the day is new); segments without points on that day
    leave it alone.  This holds whatever order [range] visits the day
    buckets in. *)
Theorem main_results_per_day (M : GoMath.libm) (location : GoTime.Location)
    (range : MapOrder) (gpx : GPX) (day : string) :
  visits_once range ->
  main_results M location range gpx !! day
  = fold_left (add_figures M location day) (segments gpx) None.
Proof. apply main_results_lookup. Qed.

Lemma main_results_per_day_witness :
  visits_once range_back
  /\ main_results small_angle_libm GoTime.UTC range_back night_walk !! "2024-06-01"
     = fold_left (add_figures small_angle_libm GoTime.UTC "2024-06-01")
                 (segments night_walk) None.
Proof.
  split; [exact range_back_visits_once|].
  exact (main_results_per_day small_angle_libm GoTime.UTC range_back night_walk
           "2024-06-01" range_back_visits_once).
Defined.

(** X13. The order in which Go happens to visit the entries of [grouped]
    does not show in [results]: any two visiting orders give the same
    map. *)
Theorem main_results_any_order (M : GoMath.libm) (location : GoTime.Location)
    (range1 range2 : MapOrder) (gpx : GPX) :
  visits_once range1 -> visits_once range2 ->
  main_results M location range1 gpx = main_results M location range2 gpx.
Proof.
  intros H1 H2. apply map_eq. intros day. by rewrite !main_results_lookup.
Qed.

Lemma main_results_any_order_witness :
  (visits_once range_forth /\ visits_once range_back)
  /\ main_results small_angle_libm GoTime.UTC range_forth night_walk
     = main_results small_angle_libm GoTime.UTC range_back night_walk.
Proof.
  split; [split; [exact range_forth_visits_once|exact range_back_visits_once]|].
  exact (main_results_any_order small_angle_libm GoTime.UTC range_forth range_back
           night_walk range_forth_visits_once range_back_visits_once).
Defined.

Lemma fold_add_figures_Some (M : GoMath.libm) location day
    (segs : list TrackSegment) (entry : option DayResult) :
  is_Some (fold_left (add_figures M location day) segs entry)
  <-> is_Some entry
      \/ exists segment p, segment ∈ segs /\ p ∈ TrackPoints segment
                           /\ dayKey location p = day.
Proof.
  revert entry. induction segs as [|s segs IH]; intros entry.
  - cbn. split; [by left|]. intros [?|(s & p & Hs & _)]; [done|].
    by apply elem_of_nil in Hs.
  - cbn [fold_left]. rewrite IH. rewrite add_figures_entry.
    destruct (day_points location day (TrackPoints s)) as [|q bucket] eqn:Hb.
    + split.
      * intros [?|(s' & p & Hs & Hp & Hd)]; [by left|].
        right. exists s', p. split; [by right|done].
      * intros [?|(s' & p & Hs & Hp & Hd)]; [by left|].
        apply elem_of_cons in Hs as [->|Hs].
        -- by destruct (proj1 (day_points_nil_iff location day _) Hb p Hp).
        -- right. by exists s', p.
    + split; [|by left]. intros _. right. exists s, q. split; [left|].
      assert (q ∈ day_points location day (TrackPoints s)) as Hq by (rewrite Hb; left).
      unfold day_points in Hq. by apply list_elem_of_filter in Hq as [? ?].
Qed.

(** X14. [results] has an entry for a day exactly when some track point of
    the document falls on that day. *)
Theorem main_results_days (M : GoMath.libm) (location : GoTime.Location)
    (range : MapOrder) (gpx : GPX) (day : string) :
  visits_once range ->
  (is_Some (main_results M location range gpx !! day)
   <-> exists segment p, segment ∈ segments gpx /\ p ∈ TrackPoints segment
                         /\ dayKey location p = day).
Proof.
  intros Hrange. rewrite main_results_lookup by done.
  rewrite fold_add_figures_Some. split; [|by right].
  intros [Hnone|?]; [|done]. by destruct Hnone.
Qed.

Lemma main_results_days_witness :
  visits_once range_forth
  /\ (is_Some (main_results small_angle_libm GoTime.UTC range_forth night_walk
                !! "2024-06-02")
      <-> exists segment p, segment ∈ segments night_walk /\ p ∈ TrackPoints segment
                            /\ dayKey GoTime.UTC p = "2024-06-02").
Proof.
  split; [exact range_forth_visits_once|].
  exact (main_results_days small_angle_libm GoTime.UTC range_forth night_walk
           "2024-06-02" range_forth_visits_once).
Defined.

(** ** Points grow with the distance *)

Section Points.
Import Float64.

Lemma nearest_of_units_mono (P r1 r2 : Z) :
  0 < P -> r1 <= r2 -> nearest_of_units P r1 <= nearest_of_units P r2.
Proof.
  intros HP Hle. unfold nearest_of_units.
  assert (forall a, 0 <= a -> 0 <= (2 * a + P) `div` (2 * P)) as Hnn.
  { intros a Ha. apply Z.div_pos; lia. }
  destruct (Z.sgn_spec r1) as [(H1 & ->)|[(H1 & ->)|(H1 & ->)]],
           (Z.sgn_spec r2) as [(H2 & ->)|[(H2 & ->)|(H2 & ->)]]; try lia.
  - pose proof (Z.div_le_mono (2 * Z.abs r1 + P) (2 * Z.abs r2 + P) (2 * P)). lia.
  - subst r1. pose proof (Hnn (Z.abs r2)). lia.
  - pose proof (Hnn (Z.abs r1)). pose proof (Hnn (Z.abs r2)). lia.
  - subst r2. pose proof (Hnn (Z.abs r1)). lia.
  - pose proof (Z.div_le_mono (2 * Z.abs r2 + P) (2 * Z.abs r1 + P) (2 * P)). lia.
Qed.

Lemma nearest_magnitude (m : positive) (e : Z) :
  -1074 <= e ->
  (2 * (Z.pos m * 2 ^ (e + 1074)) + 2 ^ 1074) `div` (2 * 2 ^ 1074)
  = if 0 <=? e then Z.pos m * 2 ^ e
    else (2 * Z.pos m + 2 ^ (- e)) `div` (2 * 2 ^ (- e)).
Proof.
  intros He. destruct (Z.leb_spec 0 e) as [Hpos|Hneg].
  - rewrite Z.pow_add_r by lia.
    assert (0 < 2 ^ 1074) as HP by (by apply Z.pow_pos_nonneg).
    generalize dependent (2 ^ 1074). intros P HP.
    symmetry. apply (Z.div_unique _ _ _ P); lia.
  - replace (2 ^ 1074) with (2 ^ (- e) * 2 ^ (e + 1074))
      by (rewrite <- Z.pow_add_r by lia; f_equal; lia).
    assert (0 < 2 ^ (e + 1074)) as HK by (apply Z.pow_pos_nonneg; lia).
    assert (0 < 2 ^ (- e)) as HE by (apply Z.pow_pos_nonneg; lia).
    generalize dependent (2 ^ (e + 1074)). intros K HK.
    generalize dependent (2 ^ (- e)). intros E HE.
    replace (2 * (Z.pos m * K) + E * K) with ((2 * Z.pos m + E) * K) by lia.
    replace (2 * (E * K)) with ((2 * E) * K) by lia.
    apply Z.div_mul_cancel_r; lia.
Qed.

Lemma nearest_away_rank (s : bool) (m : positive) (e : Z) :
  -1074 <= e ->
  nearest_away s m e = nearest_of_rank (rank (S754_finite s m e)).
Proof.
  intros He. unfold nearest_away, nearest_of_rank, nearest_of_units. cbn [rank]. cbv zeta.
  rewrite <- (nearest_magnitude m e He).
  assert (0 < Z.pos m * 2 ^ (e + 1074)) as Hv.
  { apply Z.mul_pos_pos; [done|]. apply Z.pow_pos_nonneg; lia. }
  generalize dependent (Z.pos m * 2 ^ (e + 1074)). intros v Hv.
  destruct s.
  - rewrite Z.sgn_neg, Z.abs_opp, (Z.abs_eq v) by lia.
    generalize ((2 * v + 2 ^ 1074) `div` (2 * 2 ^ 1074)). intros; lia.
  - rewrite Z.sgn_pos, (Z.abs_eq v) by lia.
    generalize ((2 * v + 2 ^ 1074) `div` (2 * 2 ^ 1074)). intros; lia.
Qed.

Lemma nearest_of_rank_mono (r1 r2 : Z) :
  r1 <= r2 -> nearest_of_rank r1 <= nearest_of_rank r2.
Proof. apply nearest_of_units_mono. by apply Z.pow_pos_nonneg. Qed.

Lemma nearest_of_rank_zero : nearest_of_rank 0 = 0.
Proof. unfold nearest_of_rank, nearest_of_units. cbn [Z.sgn]. apply Z.mul_0_l. Qed.

Lemma calculateGOTDistance_rank (x : float) :
  finite x = true -> Go.in_int (nearest_of_rank (rank (Prim2SF x))) ->
  calculateGOTDistance x = nearest_of_rank (rank (Prim2SF x)).
Proof.
  unfold finite, calculateGOTDistance. intros Hf Hin.
  pose proof (Prim2SF_valid x) as Hv.
  destruct (Prim2SF x) as [s|s| |s m e] eqn:Hx; try done.
  - cbn [rank]. rewrite nearest_of_rank_zero.
    unfold GoMath.Round. rewrite Hx. unfold GoMath.int_of_float64. by rewrite Hx.
  - destruct (valid_canonical _ _ _ Hv) as [Hc _].
    rewrite <- nearest_away_rank in * by lia.
    by apply Round_nearest_away.
Qed.

Lemma points_bound_rank :
  let R := rank (Prim2SF points_bound) in
  R < 2 ^ 2098
  /\ rank (Prim2SF (- points_bound)%float) = - R
  /\ nearest_of_rank R = 9000000000000000000
  /\ nearest_of_rank (- R) = - 9000000000000000000.
Proof. cbv zeta. repeat split; vm_compute; reflexivity. Qed.

Lemma bounded_rank (x : float) :
  (- points_bound <=? x)%float = true -> (x <=? points_bound)%float = true ->
  finite x = true
  /\ - rank (Prim2SF points_bound) <= rank (Prim2SF x) <= rank (Prim2SF points_bound)
  /\ calculateGOTDistance x = nearest_of_rank (rank (Prim2SF x)).
Proof.
  intros Hlo Hhi.
  apply leb_rank in Hlo as (_ & Hnan & Hlo). apply leb_rank in Hhi as (_ & _ & Hhi).
  destruct points_bound_rank as (Hinf & Hopp & Hup & Hdown).
  cbv zeta in *. rewrite Hopp in Hlo.
  set (R := rank (Prim2SF points_bound)) in *. clearbody R.
  assert (finite x = true) as Hfin.
  { unfold finite. destruct (Prim2SF x) as [s|[]| |s m e]; try done; cbn [rank] in *; lia. }
  split; [done|]. split; [lia|].
  apply calculateGOTDistance_rank; [done|].
  pose proof (nearest_of_rank_mono _ _ Hlo). pose proof (nearest_of_rank_mono _ _ Hhi).
  unfold Go.in_int. lia.
Qed.


Lemma points_nonneg (x : float) :
  (0 <=? x)%float = true -> (x <=? points_bound)%float = true ->
  0 <= calculateGOTDistance x.
Proof.
  intros H0 Hhi.
  assert ((- points_bound <=? x)%float = true) as Hlo.
  { by apply (leb_trans _ 0 _). }
  destruct (bounded_rank x Hlo Hhi) as (_ & _ & ->).
  apply leb_rank in H0 as (_ & _ & H0). change (rank (Prim2SF 0)) with 0 in H0.
  rewrite <- nearest_of_rank_zero. by apply nearest_of_rank_mono.
Qed.

Lemma SFdiv_core_nonneg (m1 m2 : positive) (e1 e2 : Z) :
  0 <= (SFdiv_core_binary prec emax (Z.pos m1) e1 (Z.pos m2) e2).1.1.
Proof.
  unfold SFdiv_core_binary. cbv zeta.
  set (m' := match _ with Z.pos _ => _ | Z0 => _ | Z.neg _ => _ end).
  assert (0 <= m') as Hm'.
  { unfold m'. destruct (_ - _ - _)%Z; [lia| |lia]. by apply Z.shiftl_nonneg. }
  pose proof (Z.div_pos m' (Z.pos m2) Hm' ltac:(lia)) as Hq.
  unfold Z.div in Hq. by destruct (Z.div_eucl m' (Z.pos m2)) as [q r].
Qed.

Lemma div_keeps_sign (n : float) :
  (0 <=? n)%float = true -> (0 <=? n / 100)%float = true.
Proof.
  intros H0.
  destruct (Prim2SF n) as [s|s| |s m e] eqn:Hn.
  - rewrite FloatAxioms.leb_spec, FloatAxioms.div_spec, Hn. by destruct s.
  - apply leb_zero_nonneg. unfold nonneg.
    rewrite FloatAxioms.leb_spec, Hn in H0.
    rewrite FloatAxioms.div_spec, Hn. by destruct s.
  - by rewrite FloatAxioms.leb_spec, Hn in H0.
  - apply leb_zero_nonneg. unfold nonneg.
    rewrite FloatAxioms.leb_spec, Hn in H0.
    rewrite FloatAxioms.div_spec, Hn.
    destruct s; [done|].
    change (Prim2SF 100) with (S754_finite false 7036874417766400 (-46)).
    unfold SF64div. cbn [SFdiv xorb].
    pose proof (SFdiv_core_nonneg m 7036874417766400 e (-46)) as Hq.
    destruct (SFdiv_core_binary _ _ _ _ _ _) as [[mz ez] lz]. cbn [fst] in Hq.
    by apply binary_round_aux_nonneg.
Qed.

(** Ascent that is not negative gives points that are not negative, as
    long as [n / 100] is within the bound. *)
Lemma ascent_points_nonneg (n : float) :
  (0 <=? n)%float = true -> (n / 100 <=? points_bound)%float = true ->
  0 <= calculateGOTAscent n.
Proof.
  intros H0 Hhi. change (calculateGOTAscent n) with (calculateGOTDistance (n / 100)).
  apply points_nonneg; [by apply div_keeps_sign|done].
Qed.

End Points.

(** X18. For distances between -9e18 and 9e18 km, more distance never gives
    fewer points: [calculateGOTDistance] is monotone.  A distance that
    is not negative gives points that are not negative. *)
Theorem calculateGOTDistance_monotone (x y : float) :
  (- points_bound <=? x)%float = true ->
  (x <=? y)%float = true ->
  (y <=? points_bound)%float = true ->
  calculateGOTDistance x <= calculateGOTDistance y
  /\ ((0 <=? x)%float = true -> 0 <= calculateGOTDistance x).
Proof.
  intros Hlo Hxy Hhi.
  destruct (bounded_rank x Hlo (Float64.leb_trans _ _ _ Hxy Hhi)) as (_ & _ & ->).
  destruct (bounded_rank y (Float64.leb_trans _ _ _ Hlo Hxy) Hhi) as (_ & _ & ->).
  split.
  - apply nearest_of_rank_mono. by apply Float64.leb_rank in Hxy as (_ & _ & ?).
  - intros H0. apply Float64.leb_rank in H0 as (_ & _ & H0).
    change (rank (Prim2SF 0)) with 0 in H0.
    rewrite <- nearest_of_rank_zero. by apply nearest_of_rank_mono.
Qed.

Lemma calculateGOTDistance_monotone_witness :
  ((- points_bound <=? 12.4)%float = true
   /\ (12.4 <=? 45.6)%float = true
   /\ (45.6 <=? points_bound)%float = true)
  /\ calculateGOTDistance 12.4 <= calculateGOTDistance 45.6
  /\ ((0 <=? 12.4)%float = true -> 0 <= calculateGOTDistance 12.4).
Proof.
  split; [by repeat split|].
  exact (calculateGOTDistance_monotone 12.4 45.6 eq_refl eq_refl eq_refl).
Defined.

(** ** The totals of [main] in [gpx.go] *)

Lemma fold_segments_concat {A} (f : A -> TrackSegment -> A) (tracks : list Track) (a : A) :
  fold_left (fun a track => fold_left f (TrackSegs track) a) tracks a
  = fold_left f (tracks ≫= TrackSegs) a.
Proof.
  revert a. induction tracks as [|t ts IH]; intros a; [done|].
  cbn [fold_left mbind list_bind]. by rewrite fold_left_app, IH.
Qed.

Lemma smoothed_length (points : list TrackPoint) (W1 W2 : Z) :
  length (applyLatLonSmoothing (applyMovingAverage points W1) W2) = length points.
Proof.
  destruct (smoothers_length (applyMovingAverage points W1) W2) as [_ ->].
  by destruct (smoothers_length points W1) as [-> _].
Qed.

Lemma total_segment_short (M : GoMath.libm) (totals : float * float)
    (segment : TrackSegment) :
  (length (TrackPoints segment) < 2)%nat -> nonneg totals.2 = true ->
  total_segment M totals segment = totals.
Proof.
  intros Hlen Hnn. unfold total_segment. cbv zeta. destruct totals as [d a].
  cbn [fst snd] in *. f_equal.
  - pose proof (smoothed_length (TrackPoints segment) movingAverageWindowSize
                                movingAverageWindowSize) as Hs.
    destruct (applyLatLonSmoothing _ _) as [|p [|q l]]; [reflexivity|reflexivity|].
    simpl in Hs. lia.
  - rewrite ascent_short by (rewrite smoothed_length; lia).
    by apply Float64.add_zero_r.
Qed.

Lemma total_segment_nonneg (M : GoMath.libm) (totals : float * float)
    (segment : TrackSegment) :
  nonneg totals.2 = true -> nonneg (total_segment M totals segment).2 = true.
Proof.
  intros Hnn. unfold total_segment. cbv zeta. cbn [snd].
  apply Float64.add_nonneg; [done|apply ascent_nonneg].
Qed.

Lemma fold_total_segment (M : GoMath.libm) (segs : list TrackSegment)
    (totals : float * float) :
  nonneg totals.2 = true ->
  fold_left (total_segment M) segs totals
  = fold_left (total_segment M)
              (filter (fun s => (2 <= length (TrackPoints s))%nat) segs) totals
  /\ nonneg (fold_left (total_segment M) segs totals).2 = true.
Proof.
  revert totals. induction segs as [|s segs IH]; intros totals Hnn; [done|].
  cbn [fold_left]. rewrite filter_cons.
  destruct (decide (2 <= length (TrackPoints s))%nat) as [Hlong|Hshort].
  - cbn [fold_left]. apply IH. by apply total_segment_nonneg.
  - rewrite total_segment_short by (done || lia). by apply IH.
Qed.

(** X16. The totals of [gpx.go] depend on the segments in document order
    only, not on how tracks group them, and a segment of fewer than two
    points adds nothing to either total.  The ascent total is never
    negative and never NaN, so the ascent points are never negative as
    long as the total divided by 100 stays within the bound of 9e18. *)
Theorem main_totals_segments (M : GoMath.libm) (gpx : GPX) :
  main_totals M gpx
  = fold_left (total_segment M)
              (filter (fun s => (2 <= length (TrackPoints s))%nat) (segments gpx))
              (0%float, 0%float)
  /\ (0 <=? (main_totals M gpx).2)%float = true
  /\ (((main_totals M gpx).2 / 100 <=? points_bound)%float = true ->
      0 <= calculateGOTAscent (main_totals M gpx).2).
Proof.
  unfold main_totals, segments. rewrite fold_segments_concat.
  destruct (fold_total_segment M (Tracks gpx ≫= TrackSegs) (0%float, 0%float) eq_refl)
    as [Heq Hnn].
  apply Float64.leb_zero_nonneg in Hnn.
  split; [done|]. split; [done|]. by apply ascent_points_nonneg.
Qed.

(** ** The indices the smoothers read *)

(** X3. For an [int] window size [W >= 1] and a slice of fewer than 2^62
    points, the window of every index [i] of the slice lies inside the
    slice and holds [i]: the inner loops read [points[j]] at valid
    indices only, at least once, and neither [i - halfWindow] nor
    [i + halfWindow] leaves the [int] range. *)
Theorem smoothing_window_in_range (points : list TrackPoint) (W i : Z) :
  1 <= W < 2 ^ 63 -> Go.len points < 2 ^ 62 -> 0 <= i < Go.len points ->
  let halfWindow := Go.quot (odd_window W) 2 in
  let w := window (Go.len points) i halfWindow in
  0 <= w.1 <= i /\ i <= w.2 < Go.len points
  /\ (forall j, j ∈ loop_range w.1 w.2 -> 0 <= j < Go.len points)
  /\ (sum_elevation points w.1 w.2).2 = w.2 - w.1 + 1
  /\ (sum_latlon points w.1 w.2).2 = w.2 - w.1 + 1
  /\ Go.in_int (i - halfWindow) /\ Go.in_int (i + halfWindow).
Proof.
  intros HW Hbig Hi halfWindow w.
  destruct (half_window_bounds W HW) as [Hq Hhalf].
  assert (halfWindow = normalized_window W `div` 2) as Hh.
  { unfold halfWindow. by rewrite odd_window_normalized, Hq. }
  assert (w = (Z.max 0 (i - halfWindow), Z.min (Go.len points - 1) (i + halfWindow)))
    as Hw.
  { unfold w. apply window_clip; lia. }
  rewrite Hw. cbn [fst snd].
  split; [lia|]. split; [lia|]. split; [|split; [|split]].
  - intros j Hj. unfold loop_range in Hj. apply elem_of_seqZ in Hj. lia.
  - rewrite sum_elevation_slice; [done|lia..].
  - rewrite sum_latlon_slice; [done|lia..].
  - unfold Go.in_int. lia.
Qed.

Lemma smoothing_window_in_range_witness :
  let points := at_elevation <$> [100; 104; 103; 110]%float in
  let w := window (Go.len points) 3 (Go.quot (odd_window 3) 2) in
  (1 <= 3 < 2 ^ 63 /\ Go.len points < 2 ^ 62 /\ 0 <= 3 < Go.len points)
  /\ 0 <= w.1 <= 3 /\ 3 <= w.2 < Go.len points
  /\ (forall j, j ∈ loop_range w.1 w.2 -> 0 <= j < Go.len points)
  /\ (sum_elevation points w.1 w.2).2 = w.2 - w.1 + 1
  /\ (sum_latlon points w.1 w.2).2 = w.2 - w.1 + 1
  /\ Go.in_int (3 - Go.quot (odd_window 3) 2) /\ Go.in_int (3 + Go.quot (odd_window 3) 2).
Proof.
  intros points w.
  assert (1 <= 3 < 2 ^ 63) as HW by lia.
  assert (Go.len points < 2 ^ 62) as Hbig by (vm_compute; reflexivity).
  assert (0 <= 3 < Go.len points) as Hi
    by (vm_compute; split; [discriminate|reflexivity]).
  split; [done|].
  exact (smoothing_window_in_range points 3 3 HW Hbig Hi).
Defined.




(** ** One day, two variants of [main] *)

Section SingleDay.
Import Float64.

Lemma round_sat_pos (V : Z) : 0 < V -> 0 < round_sat V.
Proof.
  intros HV. unfold round_sat. pose proof (round_value_nonneg V HV).
  assert (0 < 2 ^ 2098) by (by apply Z.pow_pos_nonneg). lia.
Qed.

Lemma binary_round_not_zero (s : bool) (m : positive) (e : Z) :
  -1074 <= e -> forall z, binary_round prec emax s m e <> S754_zero z.
Proof.
  intros He z Hz.
  assert (rank (binary_round prec emax false m e) = 0) as Hr.
  { destruct s; [|by rewrite Hz].
    change true with (negb false) in Hz. rewrite binary_round_opp in Hz.
    by destruct (binary_round prec emax false m e) as [[]|[]| |[] ? ?]. }
  rewrite binary_round_rank in Hr by done.
  assert (0 < Z.pos m * 2 ^ (e + 1074)) as Hpos.
  { apply Z.mul_pos_pos; [done|]. apply Z.pow_pos_nonneg; lia. }
  pose proof (round_sat_pos _ Hpos). lia.
Qed.

Lemma binary_normalize_not_neg_zero (m e : Z) :
  -1074 <= e -> binary_normalize prec emax m e false <> S754_zero true.
Proof.
  intros He. destruct m as [|p|p]; cbn [binary_normalize]; [done|..];
    by apply binary_round_not_zero.
Qed.

Lemma SFadd_not_neg_zero (x y : spec_float) :
  valid_binary x = true -> valid_binary y = true ->
  x <> S754_zero true -> SFadd prec emax x y <> S754_zero true.
Proof.
  intros Hvx Hvy Hx.
  destruct x as [[]|[]| |sx mx ex]; try done;
    destruct y as [[]|[]| |sy my ey]; try done.
  all: try (cbn [SFadd]; by destruct sx).
  destruct (valid_canonical _ _ _ Hvx) as [Hcx _].
  destruct (valid_canonical _ _ _ Hvy) as [Hcy _].
  cbn [SFadd]. cbv zeta. apply binary_normalize_not_neg_zero. lia.
Qed.

Lemma sum_from_zero (ds : list float) (acc : float) :
  Prim2SF acc <> S754_zero true ->
  Prim2SF (fold_left (fun a x => (a + x)%float) ds acc) <> S754_zero true.
Proof.
  revert acc. induction ds as [|d ds IH]; intros acc Hacc; [done|].
  cbn [fold_left]. apply IH. rewrite FloatAxioms.add_spec.
  apply SFadd_not_neg_zero; [apply Prim2SF_valid..|done].
Qed.

Lemma add_zero_l (x : float) : Prim2SF x <> S754_zero true -> (0 + x)%float = x.
Proof.
  intros Hx. apply Prim2SF_inj. rewrite FloatAxioms.add_spec.
  change (Prim2SF 0) with (S754_zero false).
  by destruct (Prim2SF x) as [[]|[]| |[] m e].
Qed.

Lemma distance_from_zero (M : GoMath.libm) (points : list TrackPoint) :
  (0 + distance_loop M points 0)%float = distance_loop M points 0.
Proof. apply add_zero_l. rewrite distance_loop_legs. by apply sum_from_zero. Qed.

End SingleDay.

Lemma day_points_all (location : GoTime.Location) (day : string)
    (points : list TrackPoint) :
  (forall p, p ∈ points -> dayKey location p = day) ->
  day_points location day points = points.
Proof.
  intros Hall. unfold day_points. induction points as [|p points IH]; [done|].
  rewrite filter_cons, decide_True by (apply Hall; left).
  rewrite IH; [done|]. intros q Hq. apply Hall. by right.
Qed.

Lemma fold_single_day_ascent (M : GoMath.libm) location day
    (segs : list TrackSegment) (entry : option DayResult) (totals : float * float) :
  (forall segment p, segment ∈ segs -> p ∈ TrackPoints segment ->
                     dayKey location p = day) ->
  nonneg totals.2 = true ->
  match entry with Some r => Ascent r = totals.2 | None => totals.2 = 0%float end ->
  forall r, fold_left (add_figures M location day) segs entry = Some r ->
            Ascent r = (fold_left (total_segment M) segs totals).2.
Proof.
  revert entry totals. induction segs as [|s segs IH]; intros entry totals Hall Hnn Hinv r.
  { cbn. by intros ->. }
  cbn [fold_left]. apply IH.
  - intros s' p Hs'. apply Hall. by right.
  - by apply total_segment_nonneg.
  - rewrite add_figures_entry.
    rewrite day_points_all by (intros p; apply Hall; left).
    destruct (TrackPoints s) as [|q pts] eqn:Hpts.
    + rewrite total_segment_short by (rewrite ?Hpts; done || (simpl; lia)).
      done.
    + unfold day_entry_after, total_segment, day_figures. rewrite Hpts.
      cbn [Ascent snd]. destruct entry as [r0|]; cbn [default id zeroDayResult Ascent];
        by rewrite Hinv.
Qed.

(** X17. When every track point of the document falls on one day, the per-day
    variant of [main] ends with that single entry, and its ascent is, bit
    for bit, the ascent total of [gpx.go]; with a single segment its
    distance is the distance total of [gpx.go] too. *)
Theorem single_day_agrees (M : GoMath.libm) (location : GoTime.Location)
    (range : MapOrder) (gpx : GPX) (day : string) :
  visits_once range ->
  (forall segment p, segment ∈ segments gpx -> p ∈ TrackPoints segment ->
                     dayKey location p = day) ->
  (exists segment, segment ∈ segments gpx /\ TrackPoints segment <> []) ->
  exists r, main_results M location range gpx = {[ day := r ]}
            /\ Ascent r = (main_totals M gpx).2
            /\ (forall segment, segments gpx = [segment] ->
                                Distance r = (main_totals M gpx).1).
Proof.
  intros Hrange Hall (s0 & Hs0 & Hne).
  assert (is_Some (main_results M location range gpx !! day)) as [r Hr].
  { rewrite main_results_lookup by done. apply fold_add_figures_Some. right.
    destruct (TrackPoints s0) as [|p pts] eqn:Hpts; [done|].
    exists s0, p. split; [done|]. split; [rewrite Hpts; left|].
    apply (Hall s0); [done|]. rewrite Hpts. left. }
  exists r. split; [|split].
  - apply map_eq. intros d. destruct (decide (d = day)) as [->|Hd].
    + by rewrite lookup_singleton, decide_True.
    + rewrite lookup_singleton_ne by done.
      apply eq_None_not_Some. rewrite main_results_lookup by done.
      rewrite fold_add_figures_Some. intros [[? ?]|(s & p & Hs & Hp & Hk)]; [done|].
      apply Hd. rewrite <- Hk. by apply (Hall s).
  - rewrite main_results_lookup in Hr by done.
    unfold main_totals. rewrite fold_segments_concat. fold (segments gpx).
    by apply (fold_single_day_ascent M location day (segments gpx) None).
  - intros s Hsegs. rewrite main_results_lookup in Hr by done.
    unfold main_totals. rewrite fold_segments_concat. fold (segments gpx).
    rewrite Hsegs in *. apply list_elem_of_singleton in Hs0 as ->.
    cbn [fold_left] in *. rewrite add_figures_entry in Hr.
    rewrite day_points_all in Hr by (intros p; apply Hall; left).
    destruct (TrackPoints s) as [|q pts] eqn:Hpts; [done|].
    injection Hr as <-. unfold day_entry_after, day_figures, total_segment.
    rewrite Hpts. cbn [Distance fst default zeroDayResult].
    apply distance_from_zero.
Qed.

Lemma single_day_agrees_witness :
  let zone := GoTime.FixedZone "UTC+2" 7200 in
  (visits_once range_forth
   /\ (forall segment p, segment ∈ segments night_walk -> p ∈ TrackPoints segment ->
                         dayKey zone p = "2024-06-02")
   /\ (exists segment, segment ∈ segments night_walk /\ TrackPoints segment <> []))
  /\ exists r, main_results small_angle_libm zone range_forth night_walk
               = {[ "2024-06-02" := r ]}
               /\ Ascent r = (main_totals small_angle_libm night_walk).2
               /\ (forall segment, segments night_walk = [segment] ->
                                   Distance r = (main_totals small_angle_libm night_walk).1).
Proof.
  intros zone.
  assert (forall segment p, segment ∈ segments night_walk -> p ∈ TrackPoints segment ->
                            dayKey zone p = "2024-06-02") as Hall.
  { intros segment p Hs Hp. apply list_elem_of_singleton in Hs as ->.
    cbn [TrackPoints] in Hp.
    apply elem_of_cons in Hp as [->|Hp]; [vm_compute; reflexivity|].
    apply list_elem_of_singleton in Hp as ->. vm_compute; reflexivity. }
  assert (exists segment, segment ∈ segments night_walk /\ TrackPoints segment <> [])
    as Hne.
  { eexists. split; [left|done]. }
  split; [split; [exact range_forth_visits_once|split; [exact Hall|exact Hne]]|].
  exact (single_day_agrees small_angle_libm zone range_forth night_walk "2024-06-02"
           range_forth_visits_once Hall Hne).
Defined.
